(** * Alto-AI interview core: question selection, reply validation, scoring

    A shallow embedding of [interview/questions.go] and
    [interview/analyzer.go], with the properties of the specification
    stated and proved over it.

    Conventions of the embedding:
    - Go's [int] is the 64-bit two's-complement integer of the usual
      targets: a [Z] with the wrap-around written out ([GoInt]).
    - Go's [float64] is IEEE 754 binary64 with round-to-nearest-even, taken
      from the Standard Library's executable specification
      [SpecFloat] ([F64]).
    - A Go [string] holding question text is a [string]; the raw reply of
      the reasoning service, which the validator indexes byte by byte, is
      a [list ascii].
    - Go maps are [gmap]s, a [map[string]bool] used as a set is a [gset].
    - A nullable score [*int] is an [option Z]. *)

From Stdlib Require Import ZArith List Ascii String Lia Permutation.
From Stdlib Require Import Floats.SpecFloat.
From stdpp Require Import base option list gmap strings pretty.

Local Open Scope Z_scope.

(** ** Go's [int] *)

Module GoInt.

Definition int_min : Z := - 2 ^ 63.
Definition int_max : Z := 2 ^ 63 - 1.

(** The value a 64-bit register holds after an operation whose exact result
    is [z]. *)
Definition wrap (z : Z) : Z := (z + 2 ^ 63) mod 2 ^ 64 - 2 ^ 63.

Definition in_range (z : Z) : Prop := int_min <= z <= int_max.

Definition add (a b : Z) : Z := wrap (a + b).
Definition sub (a b : Z) : Z := wrap (a - b).
Definition mul (a b : Z) : Z := wrap (a * b).

(** [a / b] for [b <> 0]: the quotient truncated toward zero. *)
Definition quot (a b : Z) : Z := wrap (Z.quot a b).

Lemma wrap_in_range z : in_range z -> wrap z = z.
Proof.
  unfold in_range, int_min, int_max, wrap. intros H.
  rewrite Z.mod_small by lia. lia.
Qed.

Lemma wrap_range z : in_range (wrap z).
Proof.
  unfold in_range, int_min, int_max, wrap.
  pose proof (Z.mod_pos_bound (z + 2 ^ 63) (2 ^ 64) ltac:(lia)). lia.
Qed.

Lemma wrap_add_l a b : wrap (wrap a + b) = wrap (a + b).
Proof.
  unfold wrap.
  replace (a + 2 ^ 63) with ((a + 2 ^ 63)) by reflexivity.
  replace ((a + 2 ^ 63) mod 2 ^ 64 - 2 ^ 63 + b + 2 ^ 63)
    with ((a + 2 ^ 63) mod 2 ^ 64 + b) by lia.
  replace (a + b + 2 ^ 63) with ((a + 2 ^ 63) + b) by lia.
  rewrite Zplus_mod_idemp_l. reflexivity.
Qed.

End GoInt.

(** ** Go's [float64] *)

Module F64.

Definition prec : Z := 53.
Definition emax : Z := 1024.

(** [float64(z)] for an [int] [z]: the nearest double, ties to even. *)
Definition of_int (z : Z) : spec_float := binary_normalize prec emax z 0 false.

Definition mul : spec_float -> spec_float -> spec_float := SFmul prec emax.
Definition div : spec_float -> spec_float -> spec_float := SFdiv prec emax.

(** [x >= y], [x < y]: false as soon as one side is a NaN. *)
Definition ge (x y : spec_float) : bool := SFleb y x.
Definition lt (x y : spec_float) : bool := SFltb x y.
Definition eqb (x y : spec_float) : bool := SFeqb x y.

(** [int(f)]: the fractional part is discarded.  Go leaves the result open
    when the value does not fit; the amd64 conversion instruction returns
    the smallest [int] then, also for a NaN, and so does this model. *)
Definition to_int (f : spec_float) : Z :=
  match f with
  | S754_zero _ => 0
  | S754_finite s m e =>
      let mag := if 0 <=? e then Z.pos m * 2 ^ e else Z.pos m / 2 ^ (- e) in
      let z := if s then - mag else mag in
      if (GoInt.int_min <=? z) && (z <=? GoInt.int_max) then z else GoInt.int_min
  | _ => GoInt.int_min
  end.

(** A decimal constant [n / d] of the source text, as the compiler rounds
    it. *)
Definition const (n d : Z) : spec_float := div (of_int n) (of_int d).

Definition zero : spec_float := S754_zero false.
Definition c100 : spec_float := Eval vm_compute in of_int 100.
Definition c0_85 : spec_float := Eval vm_compute in const 85 100.
Definition c0_70 : spec_float := Eval vm_compute in const 70 100.
Definition c0_50 : spec_float := Eval vm_compute in const 50 100.

End F64.

#[global] Instance spec_float_eq_dec : EqDecision spec_float.
Proof. solve_decision. Defined.

(** ** The data model ([interview] package types) *)

(** [AnalysisScores]: seven nullable criterion scores and the total. *)
Record AnalysisScores := {
  MigrationIntent : option Z;
  FinancialUnderstanding : option Z;
  AcademicCredibility : option Z;
  SpecificityResearch : option Z;
  Consistency : option Z;
  CommunicationQuality : option Z;
  RedFlags : option Z;
  TotalScore : Z
}.

Record FeedbackByCriterion := {
  FbMigrationIntent : string;
  FbFinancialUnderstanding : string;
  FbAcademicCredibility : string;
  FbSpecificityResearch : string;
  FbConsistency : string;
  FbCommunicationQuality : string;
  FbRedFlags : string
}.

Record StructuredFeedback := {
  Overall : string;
  ByCriterion : FeedbackByCriterion;
  Improvements : list string
}.

Record AnalysisResponse := {
  Scores : AnalysisScores;
  Classification : string;
  Feedback : StructuredFeedback
}.

Record AnalysisRecord := {
  RecordID : string;
  SessionID : string;
  RecordQuestion : string;
  RecordAnswer : string;
  Analysis : AnalysisResponse;
  CreatedAt : Z
}.

Record SessionSummary := {
  TotalQuestions : Z;
  AverageScore : spec_float;
  OverallGrade : string;
  StrongAreas : list string;
  WeakAreas : list string;
  CommonRedFlags : list string;
  Recommendation : string;
  CompletedAt : Z
}.

Record Question := {
  ID : string;
  Category : string;
  Text : string
}.

Definition set_TotalScore (s : AnalysisScores) (t : Z) : AnalysisScores :=
  {| MigrationIntent := MigrationIntent s;
     FinancialUnderstanding := FinancialUnderstanding s;
     AcademicCredibility := AcademicCredibility s;
     SpecificityResearch := SpecificityResearch s;
     Consistency := Consistency s;
     CommunicationQuality := CommunicationQuality s;
     RedFlags := RedFlags s;
     TotalScore := t |}.

(** ** [analyzer.go]: scores and tiers *)

(** [if p != nil { total += *p }] *)
Definition add_score (total : Z) (p : option Z) : Z :=
  match p with
  | Some v => GoInt.add total v
  | None => total
  end.

Definition calculateTotalScore (scores : AnalysisScores) : Z :=
  let total := 0 in
  let total := add_score total (MigrationIntent scores) in
  let total := add_score total (FinancialUnderstanding scores) in
  let total := add_score total (AcademicCredibility scores) in
  let total := add_score total (SpecificityResearch scores) in
  let total := add_score total (Consistency scores) in
  let total := add_score total (CommunicationQuality scores) in
  let total := add_score total (RedFlags scores) in
  total.

(** [if p != nil { count++ }] *)
Definition count_score (count : Z) (p : option Z) : Z :=
  match p with
  | Some _ => GoInt.add count 1
  | None => count
  end.

Definition countRelevantCriteria (scores : AnalysisScores) : Z :=
  let count := 0 in
  let count := count_score count (MigrationIntent scores) in
  let count := count_score count (FinancialUnderstanding scores) in
  let count := count_score count (AcademicCredibility scores) in
  let count := count_score count (SpecificityResearch scores) in
  let count := count_score count (Consistency scores) in
  let count := count_score count (CommunicationQuality scores) in
  let count := count_score count (RedFlags scores) in
  count.

(** The [if / else if / return] ladder shared by the tier functions. *)
Definition ladder (a b c : bool) (w x y z : string) : string :=
  if a then w else if b then x else if c then y else z.

Definition getClassificationFromScore (totalScore criteriaCount : Z) : string :=
  if criteriaCount =? 0 then "Weak"
  else
    let maxScore := GoInt.mul criteriaCount 5 in
    if criteriaCount =? 3 then
      ladder (13 <=? totalScore) (10 <=? totalScore) (7 <=? totalScore)
        "Excellent" "Good" "Average" "Weak"
    else if criteriaCount =? 4 then
      ladder (17 <=? totalScore) (13 <=? totalScore) (9 <=? totalScore)
        "Excellent" "Good" "Average" "Weak"
    else if criteriaCount =? 5 then
      ladder (21 <=? totalScore) (17 <=? totalScore) (12 <=? totalScore)
        "Excellent" "Good" "Average" "Weak"
    else
      let percentage :=
        F64.mul (F64.div (F64.of_int totalScore) (F64.of_int maxScore)) F64.c100 in
      ladder (F64.ge percentage (F64.of_int 85))
             (F64.ge percentage (F64.of_int 70))
             (F64.ge percentage (F64.of_int 50))
        "Excellent" "Good" "Average" "Weak".

Definition getGradeFromScore (score criteriaCount : Z) : string :=
  if criteriaCount =? 0 then "D"
  else
    let maxScore := GoInt.mul criteriaCount 5 in
    let excellentThreshold := F64.to_int (F64.mul (F64.of_int maxScore) F64.c0_85) in
    let goodThreshold := F64.to_int (F64.mul (F64.of_int maxScore) F64.c0_70) in
    let averageThreshold := F64.to_int (F64.mul (F64.of_int maxScore) F64.c0_50) in
    ladder (excellentThreshold <=? score) (goodThreshold <=? score)
           (averageThreshold <=? score)
      "A" "B" "C" "D".

Definition ScoreToPercentage (score criteriaCount : Z) : spec_float :=
  if criteriaCount =? 0 then F64.zero
  else
    let maxScore := GoInt.mul criteriaCount 5 in
    let minScore := GoInt.mul criteriaCount 1 in
    let score := if score <? minScore then minScore else score in
    let score := if maxScore <? score then maxScore else score in
    let scoreRange := GoInt.sub maxScore minScore in
    if scoreRange =? 0 then F64.c100
    else F64.mul (F64.of_int (GoInt.sub score minScore))
                 (F64.div F64.c100 (F64.of_int scoreRange)).

(** ** Errors

    Every failure of the two files is an [error] built by [fmt.Errorf]; the
    constructors stand for the distinct message formats. *)

Abbreviation bytes := (list ascii).

Inductive Error :=
| ErrSendRequest
| ErrReadResponse
| ErrAPIStatus (status : Z) (body : bytes)
| ErrUnmarshalResponse
| ErrEmptyResponse
| ErrNoJSONObject
| ErrUnmatchedBraces
| ErrParseAnalysis
| ErrNoAnalyses
| ErrReadQuestionsFile
| ErrUnmarshalQuestions
| ErrMissingCategory (category : string).

(** The fixed part of each message. *)
Definition Error_text (e : Error) : string :=
  match e with
  | ErrSendRequest => "failed to send request"
  | ErrReadResponse => "failed to read response"
  | ErrAPIStatus _ _ => "API error"
  | ErrUnmarshalResponse => "failed to unmarshal response"
  | ErrEmptyResponse => "empty response from API"
  | ErrNoJSONObject => "no JSON object found in response"
  | ErrUnmatchedBraces => "unmatched braces in JSON response"
  | ErrParseAnalysis => "failed to parse analysis"
  | ErrNoAnalyses => "no analyses provided"
  | ErrReadQuestionsFile => "read questions file"
  | ErrUnmarshalQuestions => "unmarshal questions"
  | ErrMissingCategory _ => "required category not found in questions file"
  end.

(** ** [strings] functions used on the reply, byte by byte *)

Definition byte_is (c : ascii) (n : N) : bool := (N_of_ascii c =? n)%N.

(** The one-byte white space of [unicode.IsSpace]: tab, line feed, vertical
    tab, form feed, carriage return, space. *)
Definition space1 (c : ascii) : bool :=
  byte_is c 9 || byte_is c 10 || byte_is c 11 || byte_is c 12
  || byte_is c 13 || byte_is c 32.

(** U+0085 and U+00A0 in UTF-8. *)
Definition space2 (c d : ascii) : bool :=
  byte_is c 194 && (byte_is d 133 || byte_is d 160).

(** U+1680, U+2000..U+200A, U+2028, U+2029, U+202F, U+205F and U+3000 in
    UTF-8. *)
Definition space3 (c d e : ascii) : bool :=
  (byte_is c 225 && byte_is d 154 && byte_is e 128)
  || (byte_is c 226 && byte_is d 128
      && (((128 <=? N_of_ascii e) && (N_of_ascii e <=? 138))%N
          || byte_is e 168 || byte_is e 169 || byte_is e 175))
  || (byte_is c 226 && byte_is d 129 && byte_is e 159)
  || (byte_is c 227 && byte_is d 128 && byte_is e 128).

(** Leading white-space runes removed. *)
Fixpoint trimLeftSpace (s : bytes) : bytes :=
  match s with
  | [] => []
  | c :: r1 =>
      if space1 c then trimLeftSpace r1
      else
        match r1 with
        | [] => s
        | d :: r2 =>
            if space2 c d then trimLeftSpace r2
            else
              match r2 with
              | [] => s
              | e :: r3 => if space3 c d e then trimLeftSpace r3 else s
              end
        end
  end.

(** The same from the end of the string, on the reversed bytes. *)
Fixpoint trimLeftSpaceRev (s : bytes) : bytes :=
  match s with
  | [] => []
  | c :: r1 =>
      if space1 c then trimLeftSpaceRev r1
      else
        match r1 with
        | [] => s
        | d :: r2 =>
            if space2 d c then trimLeftSpaceRev r2
            else
              match r2 with
              | [] => s
              | e :: r3 => if space3 e d c then trimLeftSpaceRev r3 else s
              end
        end
  end.

Definition trimRightSpace (s : bytes) : bytes := rev (trimLeftSpaceRev (rev s)).

(** [strings.TrimSpace] *)
Definition TrimSpace (s : bytes) : bytes := trimRightSpace (trimLeftSpace s).

Definition bytes_eqb (a b : bytes) : bool := bool_decide (a = b).

(** [strings.HasPrefix], [strings.TrimPrefix], [strings.TrimSuffix] *)
Definition HasPrefix (s p : bytes) : bool := bytes_eqb (take (length p) s) p.

Definition TrimPrefix (s p : bytes) : bytes :=
  if HasPrefix s p then drop (length p) s else s.

Definition HasSuffix (s p : bytes) : bool :=
  (length p <=? length s)%nat
  && bytes_eqb (drop (length s - length p) s) p.

Definition TrimSuffix (s p : bytes) : bytes :=
  if HasSuffix s p then take (length s - length p) s else s.

(** [strings.Index(s, string(c))] for a one-byte pattern; [None] is [-1]. *)
Fixpoint IndexByte (s : bytes) (c : ascii) : option nat :=
  match s with
  | [] => None
  | x :: r => if Ascii.eqb x c then Some 0%nat else S <$> IndexByte r c
  end.

Definition lbrace : ascii := "{"%char.
Definition rbrace : ascii := "}"%char.
Definition fence : bytes := list_ascii_of_string "```".
Definition fence_json : bytes := list_ascii_of_string "```json".

(** The loop that looks for the closing brace: [rest] is [content[i:]],
    the result is [jsonEnd], [None] standing for the [-1] the loop leaves
    when it runs off the end.  The counter never exceeds the length of the
    string, so it stays far inside the range of an [int]. *)
Fixpoint findJSONEnd (rest : bytes) (i : nat) (braceCount : Z) : option nat :=
  match rest with
  | [] => None
  | c :: rest' =>
      if Ascii.eqb c lbrace then findJSONEnd rest' (S i) (braceCount + 1)
      else if Ascii.eqb c rbrace then
        let braceCount := braceCount - 1 in
        if braceCount =? 0 then Some (S i)
        else findJSONEnd rest' (S i) braceCount
      else findJSONEnd rest' (S i) braceCount
  end.

(** [content[lo:hi]] *)
Definition slice (s : bytes) (lo hi : nat) : bytes := take (hi - lo) (drop lo s).

(** Lines 366-373 of [callGPTAPI]: white space and code fences around the
    text of the first choice are removed. *)
Definition stripFences (content : bytes) : bytes :=
  let content := TrimSpace content in
  let content := TrimPrefix content fence_json in
  let content := TrimPrefix content fence in
  let content := TrimSuffix content fence in
  TrimSpace content.

(** Lines 375-401: the first opening brace, its closing brace, and the
    text between the two. *)
Definition locateObject (content : bytes) : Error + bytes :=
  match IndexByte content lbrace with
  | None => inl ErrNoJSONObject
  | Some jsonStart =>
      match findJSONEnd (drop jsonStart content) jsonStart 0 with
      | None => inl ErrUnmatchedBraces
      | Some jsonEnd => inr (slice content jsonStart jsonEnd)
      end
  end.

Definition extractJSON (content : bytes) : Error + bytes :=
  locateObject (stripFences content).

(** What [log.Printf] is given when the reply's tier is overridden. *)
Record Mismatch := {
  said : string;
  score : Z;
  outOf : Z;
  criteria : Z;
  corrected : string
}.

(** Lines 408-422 of [callGPTAPI]: the total and the tier are recomputed
    from the decoded scores. *)
Definition recompute (analysis : AnalysisResponse) : AnalysisResponse * list Mismatch :=
  let scores := set_TotalScore (Scores analysis) (calculateTotalScore (Scores analysis)) in
  let criteriaCount := countRelevantCriteria scores in
  let correctClassification :=
    getClassificationFromScore (TotalScore scores) criteriaCount in
  if bool_decide (Classification analysis = correctClassification) then
    ({| Scores := scores;
        Classification := Classification analysis;
        Feedback := Feedback analysis |}, [])
  else
    ({| Scores := scores;
        Classification := correctClassification;
        Feedback := Feedback analysis |},
     [ {| said := Classification analysis;
          score := TotalScore scores;
          outOf := GoInt.mul criteriaCount 5;
          criteria := criteriaCount;
          corrected := correctClassification |} ]).

(** ** [callGPTAPI] *)

Record GPTMessage := { Role : string; Content : string }.

(** What [httpClient.Do] and [io.ReadAll] come back with. *)
Inductive RoundTrip :=
| SendFailed
| ReadFailed
| Replied (status : Z) (body : bytes).

Definition newline : string := String (ascii_of_N 10) EmptyString.

Definition blank (s : string) : bool :=
  bytes_eqb (TrimSpace (list_ascii_of_string s)) [].

Definition userContent (category question answer : string) : string :=
  if blank category then
    ("Question: " +:+ question +:+ newline +:+ "Student's Answer: " +:+ answer)%string
  else
    ("Category: " +:+ category +:+ newline +:+ "Question: " +:+ question
       +:+ newline +:+ "Student's Answer: " +:+ answer)%string.

Section CallGPTAPI.

(** The reasoning service, reached over HTTP with the message list in the
    request body. *)
Variable service : list GPTMessage -> RoundTrip.

(** [json.Unmarshal] into the provider's envelope (giving the content of
    each choice) and into an [AnalysisResponse]. *)
Variable unmarshalChoices : bytes -> option (list bytes).
Variable unmarshalAnalysis : bytes -> option AnalysisResponse.

(** Lines 342-364: the round trip up to the text of the first choice. *)
Definition firstChoice (rt : RoundTrip) : Error + bytes :=
  match rt with
  | SendFailed => inl ErrSendRequest
  | ReadFailed => inl ErrReadResponse
  | Replied status body =>
      if negb (status =? 200) then inl (ErrAPIStatus status body)
      else
        match unmarshalChoices body with
        | None => inl ErrUnmarshalResponse
        | Some [] => inl ErrEmptyResponse
        | Some (content :: _) => inr content
        end
  end.

(** Lines 366-422: from the text of the first choice to the result. *)
Definition decodeReply (content : bytes) : (Error + AnalysisResponse) * list Mismatch :=
  match extractJSON content with
  | inl e => (inl e, [])
  | inr jsonContent =>
      match unmarshalAnalysis jsonContent with
      | None => (inl ErrParseAnalysis, [])
      | Some analysis =>
          let '(analysis, logged) := recompute analysis in
          (inr analysis, logged)
      end
  end.

Definition callGPTAPI (sessionMessages : list GPTMessage)
    (category question answer : string)
  : (Error + AnalysisResponse) * list Mismatch :=
  let sessionMessages :=
    sessionMessages ++
      [ {| Role := "user"; Content := userContent category question answer |} ] in
  match firstChoice (service sessionMessages) with
  | inl e => (inl e, [])
  | inr content => decodeReply content
  end.

End CallGPTAPI.

(** ** Properties of the extraction step *)

Section Extraction.

(** Neither brace. *)
Definition nb (c : ascii) : Prop := c ≠ lbrace ∧ c ≠ rbrace.

Lemma space1_nb c : space1 c = true → nb c.
Proof. intros H. split; intros ->; vm_compute in H; discriminate. Qed.

Lemma space2_nb c d : space2 c d = true → nb c ∧ nb d.
Proof.
  unfold space2, byte_is. rewrite andb_true_iff, orb_true_iff, !N.eqb_eq.
  intros [Hc Hd]. repeat split; intros ->; vm_compute in Hc, Hd;
    try discriminate; destruct Hd; discriminate.
Qed.

Lemma space3_nb c d e : space3 c d e = true → nb c ∧ nb d ∧ nb e.
Proof.
  intros H.
  assert (Hc : c ≠ lbrace ∧ c ≠ rbrace).
  { split; intros ->; vm_compute in H; discriminate. }
  assert (Hd : d ≠ lbrace ∧ d ≠ rbrace).
  { split; intros ->; unfold space3 in H; cbn in H;
      rewrite !andb_false_r in H; discriminate. }
  assert (He : e ≠ lbrace ∧ e ≠ rbrace).
  { split; intros ->; unfold space3 in H; cbn in H;
      rewrite !andb_false_r, ?orb_false_r in H; discriminate. }
  done.
Qed.

Lemma trimLeftSpace_split s :
  ∃ p, s = p ++ trimLeftSpace s ∧ Forall nb p.
Proof.
  remember (length s) as n eqn:Hn.
  revert s Hn. induction n as [n IH] using lt_wf_ind. intros s Hn.
  destruct s as [|c r1]; [by exists []|]. simpl.
  destruct (space1 c) eqn:H1.
  { destruct (IH (length r1) ltac:(simpl in Hn; lia) r1 eq_refl) as (p & Hp & Hnb).
    exists (c :: p). split; [simpl; congruence|].
    constructor; [by apply space1_nb|done]. }
  destruct r1 as [|d r2]; [by exists []|].
  destruct (space2 c d) eqn:H2.
  { destruct (IH (length r2) ltac:(simpl in Hn; lia) r2 eq_refl) as (p & Hp & Hnb).
    apply space2_nb in H2 as [? ?].
    exists (c :: d :: p). split; [simpl; congruence|].
    by repeat (constructor; [done|]). }
  destruct r2 as [|e r3]; [by exists []|].
  destruct (space3 c d e) eqn:H3; [|by exists []].
  destruct (IH (length r3) ltac:(simpl in Hn; lia) r3 eq_refl) as (p & Hp & Hnb).
  apply space3_nb in H3 as (? & ? & ?).
  exists (c :: d :: e :: p). split; [simpl; congruence|].
  by repeat (constructor; [done|]).
Qed.

Lemma trimLeftSpaceRev_split s :
  ∃ p, s = p ++ trimLeftSpaceRev s ∧ Forall nb p.
Proof.
  remember (length s) as n eqn:Hn.
  revert s Hn. induction n as [n IH] using lt_wf_ind. intros s Hn.
  destruct s as [|c r1]; [by exists []|]. simpl.
  destruct (space1 c) eqn:H1.
  { destruct (IH (length r1) ltac:(simpl in Hn; lia) r1 eq_refl) as (p & Hp & Hnb).
    exists (c :: p). split; [simpl; congruence|].
    constructor; [by apply space1_nb|done]. }
  destruct r1 as [|d r2]; [by exists []|].
  destruct (space2 d c) eqn:H2.
  { destruct (IH (length r2) ltac:(simpl in Hn; lia) r2 eq_refl) as (p & Hp & Hnb).
    apply space2_nb in H2 as [? ?].
    exists (c :: d :: p). split; [simpl; congruence|].
    by repeat (constructor; [done|]). }
  destruct r2 as [|e r3]; [by exists []|].
  destruct (space3 e d c) eqn:H3; [|by exists []].
  destruct (IH (length r3) ltac:(simpl in Hn; lia) r3 eq_refl) as (p & Hp & Hnb).
  apply space3_nb in H3 as (? & ? & ?).
  exists (c :: d :: e :: p). split; [simpl; congruence|].
  by repeat (constructor; [done|]).
Qed.

Lemma trimRightSpace_split s :
  ∃ q, s = trimRightSpace s ++ q ∧ Forall nb q.
Proof.
  destruct (trimLeftSpaceRev_split (rev s)) as (p & Hp & Hnb).
  exists (rev p). split.
  - unfold trimRightSpace. rewrite <- rev_app_distr, <- Hp.
    by rewrite rev_involutive.
  - by apply Forall_rev.
Qed.

(** What a trimming step removes: a prefix and a suffix free of braces. *)
Definition trims (s t : bytes) : Prop :=
  ∃ p q, s = p ++ t ++ q ∧ Forall nb p ∧ Forall nb q.

Lemma trims_refl s : trims s s.
Proof. exists [], []. by rewrite app_nil_r. Qed.

Lemma trims_trans s t u : trims s t → trims t u → trims s u.
Proof.
  intros (p & q & -> & Hp & Hq) (p' & q' & -> & Hp' & Hq').
  exists (p ++ p'), (q' ++ q). split; [by rewrite <- !app_assoc|].
  split; by apply Forall_app.
Qed.

Lemma TrimSpace_trims s : trims s (TrimSpace s).
Proof.
  unfold TrimSpace.
  destruct (trimLeftSpace_split s) as (p & Hp & Hnb).
  destruct (trimRightSpace_split (trimLeftSpace s)) as (q & Hq & Hnq).
  exists p, q. by rewrite <- Hq.
Qed.

Lemma TrimPrefix_trims s p : Forall nb p → trims s (TrimPrefix s p).
Proof.
  intros Hp. unfold TrimPrefix, HasPrefix, bytes_eqb.
  case_bool_decide as Heq; [|apply trims_refl].
  exists p, []. rewrite app_nil_r. split; [|done].
  by rewrite <- Heq at 1; rewrite take_drop.
Qed.

Lemma TrimSuffix_trims s p : Forall nb p → trims s (TrimSuffix s p).
Proof.
  intros Hp. unfold TrimSuffix, HasSuffix, bytes_eqb.
  destruct (length p <=? length s)%nat; simpl; [|apply trims_refl].
  case_bool_decide as Heq; [|apply trims_refl].
  exists [], p. split; [|done]. simpl.
  by rewrite <- Heq at 2; rewrite take_drop.
Qed.

Lemma fence_nb : Forall nb fence.
Proof. repeat constructor; discriminate. Qed.

Lemma fence_json_nb : Forall nb fence_json.
Proof. repeat constructor; discriminate. Qed.

Lemma stripFences_trims content : trims content (stripFences content).
Proof.
  unfold stripFences.
  eapply trims_trans; [apply TrimSpace_trims|].
  eapply trims_trans; [apply TrimPrefix_trims, fence_json_nb|].
  eapply trims_trans; [apply TrimPrefix_trims, fence_nb|].
  eapply trims_trans; [apply TrimSuffix_trims, fence_nb|].
  apply TrimSpace_trims.
Qed.

Lemma IndexByte_notin (s : bytes) c : c ∉ s → IndexByte s c = None.
Proof.
  induction s as [|x r IH]; [done|]. intros Hn. simpl.
  apply not_elem_of_cons in Hn as [Hx Hr].
  destruct (Ascii.eqb_spec x c); [congruence|]. by rewrite IH.
Qed.

Lemma IndexByte_first (pre rest : bytes) c :
  c ∉ pre → IndexByte (pre ++ c :: rest) c = Some (length pre).
Proof.
  induction pre as [|x pre IH]; simpl; intros Hn.
  - by rewrite Ascii.eqb_refl.
  - apply not_elem_of_cons in Hn as [Hx Hr].
    destruct (Ascii.eqb_spec x c); [congruence|]. by rewrite IH.
Qed.

Lemma IndexByte_app_nb (p c : bytes) :
  Forall nb p →
  IndexByte (p ++ c) lbrace = (λ i, length p + i)%nat <$> IndexByte c lbrace.
Proof.
  induction 1 as [|x p [Hx _] Hp IH]; simpl.
  - by destruct (IndexByte c lbrace).
  - destruct (Ascii.eqb_spec x lbrace); [done|].
    rewrite IH. by destruct (IndexByte c lbrace).
Qed.

Lemma IndexByte_app_Some (c q : bytes) x i :
  IndexByte c x = Some i → IndexByte (c ++ q) x = Some i ∧ (i < length c)%nat.
Proof.
  revert i. induction c as [|y c IH]; [done|]. simpl. intros i.
  destruct (Ascii.eqb y x); [intros [= <-]; split; [done|lia]|].
  destruct (IndexByte c x) as [j|]; [|done].
  intros [= <-]. destruct (IH j eq_refl) as [-> ?]. split; [done|lia].
Qed.

Lemma IndexByte_app_None (c q : bytes) x :
  IndexByte c x = None →
  IndexByte (c ++ q) x = (λ i, length c + i)%nat <$> IndexByte q x.
Proof.
  induction c as [|y c IH]; simpl.
  - intros _. by destruct (IndexByte q x).
  - destruct (Ascii.eqb y x); [done|].
    destruct (IndexByte c x); [done|]. intros _. rewrite IH by done.
    by destruct (IndexByte q x).
Qed.

Lemma findJSONEnd_shift rest i bc :
  findJSONEnd rest i bc = (λ n, i + n)%nat <$> findJSONEnd rest 0 bc.
Proof.
  revert i bc. induction rest as [|c rest IH]; [done|]. intros i bc. simpl.
  destruct (Ascii.eqb c lbrace).
  { rewrite (IH (S i)), (IH 1%nat).
    destruct (findJSONEnd rest 0 (bc + 1)); simpl; f_equal; lia. }
  destruct (Ascii.eqb c rbrace).
  { destruct (bc - 1 =? 0); [simpl; f_equal; lia|].
    rewrite (IH (S i)), (IH 1%nat).
    destruct (findJSONEnd rest 0 (bc - 1)); simpl; f_equal; lia. }
  rewrite (IH (S i)), (IH 1%nat).
  destruct (findJSONEnd rest 0 bc); simpl; f_equal; lia.
Qed.

Lemma findJSONEnd_nb q i bc : Forall nb q → findJSONEnd q i bc = None.
Proof.
  intros Hq. revert i. induction Hq as [|x q [Hl Hr] Hq IH]; [done|].
  intros i. simpl.
  destruct (Ascii.eqb_spec x lbrace); [done|].
  destruct (Ascii.eqb_spec x rbrace); [done|]. apply IH.
Qed.

Lemma findJSONEnd_app_nb r q i bc :
  Forall nb q → findJSONEnd (r ++ q) i bc = findJSONEnd r i bc.
Proof.
  intros Hq. revert i bc. induction r as [|c r IH]; intros i bc; simpl.
  - by apply findJSONEnd_nb.
  - destruct (Ascii.eqb c lbrace); [apply IH|].
    destruct (Ascii.eqb c rbrace); [|apply IH].
    destruct (bc - 1 =? 0); [done|apply IH].
Qed.

Lemma findJSONEnd_bound r i bc j :
  findJSONEnd r i bc = Some j → (i < j ≤ i + length r)%nat.
Proof.
  revert i bc. induction r as [|c r IH]; [done|]. intros i bc. simpl.
  destruct (Ascii.eqb c lbrace); [intros H%IH; lia|].
  destruct (Ascii.eqb c rbrace); [|intros H%IH; lia].
  destruct (bc - 1 =? 0); [intros [= <-]; lia|intros H%IH; lia].
Qed.

(** Trimming does not change what the scan finds. *)
Lemma locateObject_frame p c q :
  Forall nb p → Forall nb q → locateObject (p ++ c ++ q) = locateObject c.
Proof.
  intros Hp Hq. unfold locateObject.
  rewrite IndexByte_app_nb by done.
  destruct (IndexByte c lbrace) as [i|] eqn:Hi; simpl.
  - destruct (IndexByte_app_Some c q _ _ Hi) as [-> Hic]. simpl.
    rewrite drop_app_add, drop_app_le by lia.
    rewrite findJSONEnd_app_nb by done.
    rewrite (findJSONEnd_shift _ (length p + i)).
    rewrite (findJSONEnd_shift _ i).
    destruct (findJSONEnd (drop i c) 0 0) as [n|] eqn:Hn; simpl; [|done].
    apply findJSONEnd_bound in Hn. f_equal. unfold slice.
    rewrite drop_app_add, drop_app_le by lia.
    replace (length p + i + n - (length p + i))%nat with n by lia.
    replace (i + n - i)%nat with n by lia.
    rewrite length_drop in Hn. by rewrite take_app_le by (rewrite length_drop; lia).
  - rewrite IndexByte_app_None by done.
    rewrite (IndexByte_notin q); [done|].
    intros Hin. apply (proj1 (Forall_forall _ _) Hq) in Hin. by destruct Hin.
Qed.

Lemma extractJSON_locate content : extractJSON content = locateObject content.
Proof.
  unfold extractJSON.
  destruct (stripFences_trims content) as (p & q & Heq & Hp & Hq).
  rewrite Heq at 2. by rewrite locateObject_frame.
Qed.

End Extraction.

(** *** Balanced braces *)

(** The nesting depth after [s], starting from depth [d]; [None] when a
    closing brace closes nothing. *)
Fixpoint braceDepth (s : bytes) (d : nat) : option nat :=
  match s with
  | [] => Some d
  | c :: r =>
      if Ascii.eqb c lbrace then braceDepth r (S d)
      else if Ascii.eqb c rbrace then
        match d with
        | O => None
        | S d' => braceDepth r d'
        end
      else braceDepth r d
  end.

(** Every closing brace closes an earlier opening one, and none stays
    open. *)
Definition balanced (s : bytes) : Prop := braceDepth s 0 = Some 0%nat.

(** Opening braces minus closing braces. *)
Fixpoint excess (s : bytes) : Z :=
  match s with
  | [] => 0
  | c :: r =>
      (if Ascii.eqb c lbrace then 1 else if Ascii.eqb c rbrace then -1 else 0)
      + excess r
  end.

(** [s] starts with an opening brace that nothing closes: no prefix of [s]
    has as many closing braces as opening ones. *)
Definition unmatched (s : bytes) : Prop :=
  ∀ k, (1 ≤ k ≤ length s)%nat → excess (take k s) ≠ 0.

(** Failures of the round trip itself. *)
Definition transport_error (e : Error) : Prop :=
  e = ErrSendRequest ∨ e = ErrReadResponse ∨ ∃ status body, e = ErrAPIStatus status body.

(** Failures to find or decode the JSON object of the reply. *)
Definition decode_error (e : Error) : Prop :=
  e = ErrNoJSONObject ∨ e = ErrUnmatchedBraces ∨ e = ErrParseAnalysis.

Section Scan.

Lemma findJSONEnd_through s : ∀ d d' rest i bc,
  braceDepth s d = Some d' → 1 ≤ bc →
  findJSONEnd (s ++ rest) i (bc + Z.of_nat d)
  = findJSONEnd rest (i + length s) (bc + Z.of_nat d').
Proof.
  induction s as [|c s IH]; intros d d' rest i bc Hd Hbc; simpl in *.
  - injection Hd as ->. f_equal. lia.
  - destruct (Ascii.eqb c lbrace).
    { replace (bc + Z.of_nat d + 1) with (bc + Z.of_nat (S d)) by lia.
      rewrite (IH _ _ _ _ _ Hd Hbc). f_equal. lia. }
    destruct (Ascii.eqb c rbrace).
    { destruct d as [|d0]; [done|].
      replace (bc + Z.of_nat (S d0) - 1) with (bc + Z.of_nat d0) by lia.
      destruct (Z.eqb_spec (bc + Z.of_nat d0) 0); [lia|].
      rewrite (IH _ _ _ _ _ Hd Hbc). f_equal. lia. }
    rewrite (IH _ _ _ _ _ Hd Hbc). f_equal. lia.
Qed.

Lemma locateObject_balanced pre inner post :
  lbrace ∉ pre → balanced inner →
  locateObject (pre ++ lbrace :: inner ++ rbrace :: post)
  = inr (lbrace :: inner ++ [rbrace]).
Proof.
  intros Hpre Hbal. unfold locateObject.
  rewrite IndexByte_first by done.
  rewrite drop_app_length. cbn [findJSONEnd]. rewrite Ascii.eqb_refl.
  change (0 + 1) with (1 + Z.of_nat 0).
  rewrite (findJSONEnd_through inner 0 0 _ _ 1 Hbal) by lia.
  cbn [findJSONEnd].
  change (Ascii.eqb rbrace lbrace) with false.
  change (Ascii.eqb rbrace rbrace) with true.
  change (1 + Z.of_nat 0 - 1 =? 0) with true. cbv iota.
  unfold slice. rewrite drop_app_length.
  match goal with
  | |- context [take ?n _] =>
      replace n with (S (length (inner ++ [rbrace])))
        by (rewrite length_app; simpl; lia)
  end.
  cbn [take]. f_equal.
  change (rbrace :: post) with ([rbrace] ++ post). rewrite app_assoc.
  by rewrite take_app_length.
Qed.

Lemma findJSONEnd_excess r : ∀ i bc j,
  findJSONEnd r i bc = Some j →
  ∃ k, (1 ≤ k ≤ length r)%nat ∧ j = (i + k)%nat ∧ bc + excess (take k r) = 0.
Proof.
  induction r as [|c r IH]; [done|]. intros i bc j. simpl.
  destruct (Ascii.eqb c lbrace) eqn:Hl.
  { intros (k & Hk & -> & He)%IH. exists (S k). simpl. rewrite Hl.
    repeat split; lia. }
  destruct (Ascii.eqb c rbrace) eqn:Hr.
  { destruct (Z.eqb_spec (bc - 1) 0).
    - intros [= <-]. exists 1%nat. simpl. rewrite Hl, Hr.
      repeat split; simpl; lia.
    - intros (k & Hk & -> & He)%IH. exists (S k). simpl. rewrite Hl, Hr.
      repeat split; lia. }
  intros (k & Hk & -> & He)%IH. exists (S k). simpl. rewrite Hl, Hr.
  repeat split; lia.
Qed.

Lemma locateObject_unmatched pre rest :
  lbrace ∉ pre → unmatched (lbrace :: rest) →
  locateObject (pre ++ lbrace :: rest) = inl ErrUnmatchedBraces.
Proof.
  intros Hpre Hun. unfold locateObject.
  rewrite IndexByte_first by done. rewrite drop_app_length.
  destruct (findJSONEnd (lbrace :: rest) (length pre) 0) as [j|] eqn:Hj; [|done].
  apply findJSONEnd_excess in Hj as (k & Hk & _ & He).
  exfalso. apply (Hun k Hk). lia.
Qed.

Lemma locateObject_no_brace content :
  lbrace ∉ content → locateObject content = inl ErrNoJSONObject.
Proof. intros H. unfold locateObject. by rewrite IndexByte_notin. Qed.

End Scan.

(** ** The recomputed total *)

Definition criterionScores (s : AnalysisScores) : list (option Z) :=
  [ MigrationIntent s; FinancialUnderstanding s; AcademicCredibility s;
    SpecificityResearch s; Consistency s; CommunicationQuality s; RedFlags s ].

(** The scores that are not null. *)
Definition presentScores (s : AnalysisScores) : list Z :=
  omap id (criterionScores s).

Definition sum_scores (l : list Z) : Z := foldr Z.add 0 l.

(** The reply with another [total_score]. *)
Definition with_total (a : AnalysisResponse) (t : Z) : AnalysisResponse :=
  {| Scores := set_TotalScore (Scores a) t;
     Classification := Classification a;
     Feedback := Feedback a |}.

(** The reply with another [classification]. *)
Definition with_classification (a : AnalysisResponse) (c : string) : AnalysisResponse :=
  {| Scores := Scores a; Classification := c; Feedback := Feedback a |}.

Section Totals.

Lemma calculateTotalScore_fold s :
  calculateTotalScore s = fold_left add_score (criterionScores s) 0.
Proof. reflexivity. Qed.

Lemma countRelevantCriteria_fold s :
  countRelevantCriteria s = fold_left count_score (criterionScores s) 0.
Proof. reflexivity. Qed.

Lemma add_score_fold l : ∀ a,
  GoInt.in_range a →
  GoInt.in_range (fold_left add_score l a)
  ∧ fold_left add_score l a = GoInt.wrap (a + sum_scores (omap id l)).
Proof.
  induction l as [|[v|] l IH]; intros a Ha; simpl.
  - split; [done|]. rewrite Z.add_0_r. symmetry. by apply GoInt.wrap_in_range.
  - destruct (IH (GoInt.add a v) (GoInt.wrap_range _)) as [Hr ->].
    split; [by apply GoInt.wrap_range|].
    unfold GoInt.add. rewrite GoInt.wrap_add_l. f_equal.
    unfold sum_scores. simpl. by rewrite Z.add_assoc.
  - by apply IH.
Qed.

Lemma calculateTotalScore_wrap s :
  calculateTotalScore s = GoInt.wrap (sum_scores (presentScores s)).
Proof.
  rewrite calculateTotalScore_fold.
  destruct (add_score_fold (criterionScores s) 0) as [_ ->]; [|done].
  unfold GoInt.in_range, GoInt.int_min, GoInt.int_max. lia.
Qed.

Lemma sum_scores_bounds l lo hi :
  Forall (λ v, lo ≤ v ≤ hi) l →
  lo * Z.of_nat (length l) ≤ sum_scores l ≤ hi * Z.of_nat (length l).
Proof.
  induction 1 as [|v l Hv Hl IH]; [simpl; lia|].
  cbn [length sum_scores foldr]. fold (sum_scores l).
  rewrite Nat2Z.inj_succ. lia.
Qed.

Lemma presentScores_length s : (length (presentScores s) ≤ 7)%nat.
Proof.
  unfold presentScores, criterionScores.
  destruct (MigrationIntent s), (FinancialUnderstanding s),
    (AcademicCredibility s), (SpecificityResearch s), (Consistency s),
    (CommunicationQuality s), (RedFlags s); simpl; lia.
Qed.

Lemma countRelevantCriteria_length s :
  countRelevantCriteria s = Z.of_nat (length (presentScores s)).
Proof.
  unfold presentScores, criterionScores, countRelevantCriteria.
  destruct (MigrationIntent s), (FinancialUnderstanding s),
    (AcademicCredibility s), (SpecificityResearch s), (Consistency s),
    (CommunicationQuality s), (RedFlags s); reflexivity.
Qed.

Lemma recompute_scores a :
  criterionScores (Scores (recompute a).1) = criterionScores (Scores a)
  ∧ TotalScore (Scores (recompute a).1) = calculateTotalScore (Scores a)
  ∧ Feedback (recompute a).1 = Feedback a.
Proof. unfold recompute. by case_bool_decide. Qed.

Lemma recompute_classification a :
  Classification (recompute a).1
  = getClassificationFromScore (TotalScore (Scores (recompute a).1))
      (countRelevantCriteria (Scores (recompute a).1)).
Proof. unfold recompute. by case_bool_decide. Qed.

End Totals.

Section Decoding.

Variable unmarshalAnalysis : bytes → option AnalysisResponse.

(** A result comes from a decoded object, through [recompute]. *)
Lemma decodeReply_inr content result logged :
  decodeReply unmarshalAnalysis content = (inr result, logged) →
  ∃ jsonContent analysis,
    extractJSON content = inr jsonContent
    ∧ unmarshalAnalysis jsonContent = Some analysis
    ∧ recompute analysis = (result, logged).
Proof.
  unfold decodeReply.
  destruct (extractJSON content) as [e|jsonContent] eqn:He; [done|].
  destruct (unmarshalAnalysis jsonContent) as [analysis|] eqn:Hd; [|done].
  destruct (recompute analysis) as [r l] eqn:Hr. intros [= <- <-].
  by exists jsonContent, analysis.
Qed.

Lemma decodeReply_object pre inner post analysis :
  lbrace ∉ pre → balanced inner →
  unmarshalAnalysis (lbrace :: inner ++ [rbrace]) = Some analysis →
  decodeReply unmarshalAnalysis (pre ++ (lbrace :: inner ++ [rbrace]) ++ post)
  = (inr (recompute analysis).1, (recompute analysis).2).
Proof.
  intros Hpre Hbal Hdec. unfold decodeReply.
  rewrite extractJSON_locate.
  replace (pre ++ (lbrace :: inner ++ [rbrace]) ++ post)
    with (pre ++ lbrace :: inner ++ rbrace :: post)
    by (simpl; by rewrite <- app_assoc).
  rewrite locateObject_balanced, Hdec by done.
  by destruct (recompute analysis).
Qed.

End Decoding.

(** C4, amended: a reply that holds one JSON object, after prose without
    an opening brace and before any trailing text, fence markers included
    on either side, is cut down to exactly that object, which is handed to
    the decoder and, once decoded, returned (with total and tier
    recomputed), provided the braces between the first and the last brace
    of the object are balanced when counted byte by byte, those inside
    strings too; a reply without an opening brace, and a reply whose first
    opening brace is never closed, end in the errors "no JSON object found
    in response" and "unmatched braces in JSON response", which no failure
    of the round trip produces. *)
Theorem reply_object_extraction
    (unmarshalChoices : bytes → option (list bytes))
    (unmarshalAnalysis : bytes → option AnalysisResponse) :
  (∀ pre inner post,
      lbrace ∉ pre → balanced inner →
      extractJSON (pre ++ (lbrace :: inner ++ [rbrace]) ++ post)
      = inr (lbrace :: inner ++ [rbrace])
      ∧ ∀ analysis,
          unmarshalAnalysis (lbrace :: inner ++ [rbrace]) = Some analysis →
          decodeReply unmarshalAnalysis
            (pre ++ (lbrace :: inner ++ [rbrace]) ++ post)
          = (inr (recompute analysis).1, (recompute analysis).2))
  ∧ (∀ content,
      lbrace ∉ content →
      decodeReply unmarshalAnalysis content = (inl ErrNoJSONObject, []))
  ∧ (∀ pre rest,
      lbrace ∉ pre → unmatched (lbrace :: rest) →
      decodeReply unmarshalAnalysis (pre ++ lbrace :: rest)
      = (inl ErrUnmatchedBraces, []))
  ∧ (∀ rt e,
      firstChoice unmarshalChoices rt = inl e →
      e ≠ ErrNoJSONObject ∧ e ≠ ErrUnmatchedBraces ∧ e ≠ ErrParseAnalysis).
Proof.
  repeat split.
  - rewrite extractJSON_locate.
    replace (pre ++ (lbrace :: inner ++ [rbrace]) ++ post)
      with (pre ++ lbrace :: inner ++ rbrace :: post)
      by (simpl; by rewrite <- app_assoc).
    by apply locateObject_balanced.
  - intros analysis Hdec. by apply decodeReply_object.
  - intros content Hno. unfold decodeReply.
    by rewrite extractJSON_locate, locateObject_no_brace.
  - intros pre rest Hpre Hun. unfold decodeReply.
    by rewrite extractJSON_locate, locateObject_unmatched.
  - destruct rt as [| |status body]; simpl in H; try congruence.
    destruct (negb (status =? 200)); [congruence|].
    destruct (unmarshalChoices body) as [[|? ?]|]; congruence.
  - destruct rt as [| |status body]; simpl in H; try congruence.
    destruct (negb (status =? 200)); [congruence|].
    destruct (unmarshalChoices body) as [[|? ?]|]; congruence.
  - destruct rt as [| |status body]; simpl in H; try congruence.
    destruct (negb (status =? 200)); [congruence|].
    destruct (unmarshalChoices body) as [[|? ?]|]; congruence.
Qed.

(** C1, amended: whatever [total_score] the reply carried, the total of a
    returned result is the sum of its non-null criterion scores as Go's
    [int] computes it, wrapping around at 64 bits; this is the exact sum
    whenever that fits an [int], in particular whenever the scores lie in
    1..5. *)
Theorem total_score_recomputed
    (unmarshalAnalysis : bytes → option AnalysisResponse)
    (content : bytes) (result : AnalysisResponse) (logged : list Mismatch) :
  decodeReply unmarshalAnalysis content = (inr result, logged) →
  TotalScore (Scores result)
  = GoInt.wrap (sum_scores (presentScores (Scores result)))
  ∧ (GoInt.in_range (sum_scores (presentScores (Scores result))) →
     TotalScore (Scores result) = sum_scores (presentScores (Scores result)))
  ∧ (Forall (λ v, 1 ≤ v ≤ 5) (presentScores (Scores result)) →
     TotalScore (Scores result) = sum_scores (presentScores (Scores result)))
  ∧ ∃ jsonContent analysis,
      extractJSON content = inr jsonContent
      ∧ unmarshalAnalysis jsonContent = Some analysis
      ∧ criterionScores (Scores result) = criterionScores (Scores analysis)
      ∧ ∀ t, (recompute (with_total analysis t)).1 = result.
Proof.
  intros (jsonContent & analysis & Hex & Hdec & Hre)%decodeReply_inr.
  destruct (recompute_scores analysis) as (Hc & Ht & _).
  rewrite Hre in Hc, Ht. simpl in Hc, Ht.
  assert (Hp : presentScores (Scores result) = presentScores (Scores analysis)).
  { unfold presentScores. by rewrite Hc. }
  assert (Hw : TotalScore (Scores result)
               = GoInt.wrap (sum_scores (presentScores (Scores result)))).
  { by rewrite Ht, Hp, calculateTotalScore_wrap. }
  split; [done|]. split; [|split].
  - intros Hr. rewrite Hw. by apply GoInt.wrap_in_range.
  - intros Hall. rewrite Hw. apply GoInt.wrap_in_range.
    pose proof (sum_scores_bounds _ _ _ Hall) as Hb.
    pose proof (presentScores_length (Scores result)) as Hl.
    unfold GoInt.in_range, GoInt.int_min, GoInt.int_max. lia.
  - exists jsonContent, analysis. repeat split; try done.
    intros t. replace result with (recompute analysis).1 by by rewrite Hre.
    destruct analysis as [[]]. reflexivity.
Qed.

(** ** [questions.go] *)

(** [QuestionSelectionRules] *)
Definition QuestionSelectionRules : gmap string Z :=
  list_to_map
    [ ("Purpose of Study", 1); ("Academic Background", 1);
      ("University Choice", 1); ("Financial Capability", 1);
      ("Post-Graduation Plans", 1); ("Immigration Intent", 1) ].

(** [CategoryOrder] *)
Definition CategoryOrder : list string :=
  [ "Purpose of Study"; "Academic Background"; "University Choice";
    "Financial Capability"; "Post-Graduation Plans"; "Immigration Intent" ].

(** The [easyCategories] and [allCategories] of [SelectQuestionsForSession]. *)
Definition easyCategories : list string :=
  [ "Purpose of Study"; "Academic Background"; "University Choice";
    "Post-Graduation Plans" ].

Definition allCategories : list string :=
  [ "Purpose of Study"; "Academic Background"; "University Choice";
    "Financial Capability"; "Post-Graduation Plans"; "Immigration Intent" ].

(** *** [LoadQuestions] *)

Section LoadQuestions.

(** The file system and the JSON decoder. *)
Variable ReadFile : string → option bytes.
Variable unmarshalCategories : bytes → option (gmap string (list string)).

(** The order in which [range QuestionSelectionRules] visits the keys: Go
    leaves it open and draws it anew at each range, so it is a parameter
    of each call. *)
Variable rulesOrder : list string.

(** The validation loop: the first required category that is missing. *)
Fixpoint firstMissing (categories : list string)
    (QuestionsByCategory : gmap string (list string)) : option string :=
  match categories with
  | [] => None
  | category :: rest =>
      match QuestionsByCategory !! category with
      | None => Some category
      | Some _ => firstMissing rest QuestionsByCategory
      end
  end.

(** [LoadQuestions path], run with the package variable
    [QuestionsByCategory] holding [bank]: the new value of the variable and
    the error returned ([None] for [nil]). *)
Definition LoadQuestions (path : string) (bank : gmap string (list string))
  : gmap string (list string) * option Error :=
  match ReadFile path with
  | None => (bank, Some ErrReadQuestionsFile)
  | Some data =>
      match unmarshalCategories data with
      | None => (bank, Some ErrUnmarshalQuestions)
      | Some categories =>
          let QuestionsByCategory :=
            map_fold (λ category questions m, <[category := questions]> m)
              ∅ categories in
          match firstMissing rulesOrder QuestionsByCategory with
          | Some category => (QuestionsByCategory, Some (ErrMissingCategory category))
          | None => (QuestionsByCategory, None)
          end
      end
  end.

End LoadQuestions.

(** *** [sanitizeCategory] *)

Definition between (lo hi : N) (c : ascii) : bool :=
  ((lo <=? N_of_ascii c) && (N_of_ascii c <=? hi))%N.

(** What one character of the category contributes.  The loop runs over
    runes; a rune outside ASCII is dropped whole, which is what dropping
    each of its bytes does. *)
Definition sanitizeChar (char : ascii) : list ascii :=
  if between 97 122 char || between 65 90 char || between 48 57 char then [char]
  else if byte_is char 32 || byte_is char 47 then ["_"%char]
  else [].

Definition sanitizeCategory (category : string) : string :=
  string_of_list_ascii (concat (map sanitizeChar (list_ascii_of_string category))).

(** *** [SelectQuestionsForSession] *)

(** [Question{ID: fmt.Sprintf("q%d_%s", len(selectedQuestions)+1,
    sanitizeCategory(category)), Category: category, Text: text}] *)
Definition newQuestion (selectedQuestions : list Question)
    (category text : string) : Question :=
  {| ID := "q" +:+ pretty (length selectedQuestions + 1)%nat +:+ "_"
           +:+ sanitizeCategory category;
     Category := category;
     Text := text |}.

(** A loop over categories whose body may panic ([None]). *)
Definition forEach {S : Type} (body : S → string → option S)
    (categories : list string) (s : S) : option S :=
  fold_left (λ acc category, acc ≫= λ s, body s category) categories (Some s).

Lemma gset_union_nil (X : gset string) : list_to_set [] ∪ X = X.
Proof. simpl. by rewrite union_empty_l_L. Qed.

Lemma gset_union_cons (t : string) (l : list string) (X : gset string) :
  list_to_set (t :: l) ∪ X = list_to_set l ∪ ({[t]} ∪ X).
Proof.
  simpl. rewrite (comm_L (∪) {[t]} (list_to_set l)).
  by rewrite <- (assoc_L (∪)).
Qed.

(** [count := 2; if len(available) < count { count = len(available) }] *)
Lemma count_min n : (if (n <? 2)%nat then n else 2%nat) = (2 `min` n)%nat.
Proof. destruct (Nat.ltb_spec n 2); lia. Qed.

Section Selection.

(** The package-level random source of [math/rand]. *)
Variable RNG : Type.
Variable Seed : Z → RNG → RNG.
Variable Shuffle : list string → RNG → list string * RNG.
Variable Intn : nat → RNG → nat * RNG.

(** [QuestionsByCategory], which [SelectQuestionsForSession] only reads. *)
Variable QuestionsByCategory : gmap string (list string).

(** The state of the easy loop: the questions selected so far and the
    random source. *)
Definition easyBody (st : list Question * RNG) (category : string)
  : option (list Question * RNG) :=
  let '(selectedQuestions, g) := st in
  match QuestionsByCategory !! category with
  | None => Some st
  | Some [] => Some st
  | Some questions =>
      let '(available, g) := Shuffle questions g in
      text ← available !! 0%nat;
      Some (selectedQuestions ++ [newQuestion selectedQuestions category text], g)
  end.

(** The state of the other two loops also has [selectedTexts]. *)
Definition mediumBody (st : list Question * gset string * RNG) (category : string)
  : option (list Question * gset string * RNG) :=
  let '(selectedQuestions, selectedTexts, g) := st in
  match QuestionsByCategory !! category with
  | None => Some st
  | Some [] => Some st
  | Some questions =>
      let '(available, g) := Shuffle questions g in
      selectedText ← available !! 0%nat;
      Some (selectedQuestions ++ [newQuestion selectedQuestions category selectedText],
            {[selectedText]} ∪ selectedTexts, g)
  end.

(** [for _, q := range questions { if !selectedTexts[q] { available =
    append(available, q) } }] *)
Definition unselected (selectedTexts : gset string) (questions : list string)
  : list string :=
  filter (λ q, q ∉ selectedTexts) questions.

(** The extra question of the medium tier. *)
Definition mediumExtra (st : list Question * gset string * RNG)
  : option (list Question * RNG) :=
  let '(selectedQuestions, selectedTexts, g) := st in
  if bool_decide (0 < length allCategories)%nat then
    let '(i, g) := Intn (length allCategories) g in
    randomCategory ← allCategories !! i;
    match QuestionsByCategory !! randomCategory with
    | None => Some (selectedQuestions, g)
    | Some [] => Some (selectedQuestions, g)
    | Some questions =>
        match unselected selectedTexts questions with
        | [] => Some (selectedQuestions, g)
        | available =>
            let '(available, g) := Shuffle available g in
            text ← available !! 0%nat;
            Some (selectedQuestions
                    ++ [newQuestion selectedQuestions randomCategory text], g)
        end
    end
  else Some (selectedQuestions, g).

(** [for i := 0; i < count; i++ { ... available[i] ... }] *)
Fixpoint takeSelected (available : list string) (category : string)
    (i : nat) (n : nat) (selectedQuestions : list Question)
    (selectedTexts : gset string)
  : option (list Question * gset string) :=
  match n with
  | O => Some (selectedQuestions, selectedTexts)
  | S n' =>
      selectedText ← available !! i;
      takeSelected available category (S i) n'
        (selectedQuestions ++ [newQuestion selectedQuestions category selectedText])
        ({[selectedText]} ∪ selectedTexts)
  end.

Definition hardBody (st : list Question * gset string * RNG) (category : string)
  : option (list Question * gset string * RNG) :=
  let '(selectedQuestions, selectedTexts, g) := st in
  match QuestionsByCategory !! category with
  | None => Some st
  | Some [] => Some st
  | Some questions =>
      match unselected selectedTexts questions with
      | [] => Some st
      | available =>
          let count := 2%nat in
          let count := if (length available <? count)%nat
                       then length available else count in
          let '(available, g) := Shuffle available g in
          '(selectedQuestions, selectedTexts) ←
            takeSelected available category 0 count selectedQuestions selectedTexts;
          Some (selectedQuestions, selectedTexts, g)
      end
  end.

(** The questions returned and the random source left behind; [None] is a
    run-time panic (an index out of range). *)
Definition SelectQuestionsForSession (now : Z) (level : string) (g : RNG)
  : option (list Question * RNG) :=
  let selectedQuestions : list Question := [] in
  let g := Seed now g in
  if bool_decide (level = "easy") then
    forEach easyBody easyCategories (selectedQuestions, g)
  else if bool_decide (level = "medium") then
    st ← forEach mediumBody allCategories (selectedQuestions, ∅, g);
    mediumExtra st
  else if bool_decide (level = "hard") || bool_decide (level = EmptyString) then
    '(selectedQuestions, _, g) ←
      forEach hardBody allCategories (selectedQuestions, ∅, g);
    Some (selectedQuestions, g)
  else Some (selectedQuestions, g).

(** *** What the random source guarantees *)

Hypothesis Shuffle_perm : ∀ l g, (Shuffle l g).1 ≡ₚ l.
Hypothesis Intn_lt : ∀ n g, (0 < n)%nat → ((Intn n g).1 < n)%nat.

(** The questions of a category, none when the bank lacks it. *)
Definition texts_of (category : string) : list string :=
  default [] (QuestionsByCategory !! category).

(** No text is listed under two of the categories. *)
Definition disjoint_categories (categories : list string) : Prop :=
  ∀ c c' q, c ∈ categories → c' ∈ categories → c ≠ c' →
    q ∈ texts_of c → q ∉ texts_of c'.

(** No category lists a text twice. *)
Definition duplicate_free (categories : list string) : Prop :=
  ∀ c, c ∈ categories → NoDup (texts_of c).

(** [texts] appended one by one, as questions of [category]. *)
Definition appendAll (selectedQuestions : list Question) (category : string)
    (texts : list string) : list Question :=
  fold_left (λ sel text, sel ++ [newQuestion sel category text])
    texts selectedQuestions.

Lemma forEach_nil {S} (body : S → string → option S) s :
  forEach body [] s = Some s.
Proof. reflexivity. Qed.

Lemma forEach_cons {S} (body : S → string → option S) c cs s :
  forEach body (c :: cs) s = body s c ≫= forEach body cs.
Proof.
  unfold forEach. simpl. destruct (body s c) as [s'|]; [done|]. simpl.
  induction cs as [|c' cs IH]; [done|]. by simpl.
Qed.

Lemma appendAll_Text sel category texts :
  Text <$> appendAll sel category texts = (Text <$> sel) ++ texts.
Proof.
  revert sel. induction texts as [|t ts IH]; intros sel; simpl.
  - by rewrite app_nil_r.
  - unfold appendAll in *. simpl. rewrite IH, fmap_app. simpl.
    by rewrite <- app_assoc.
Qed.

Lemma appendAll_Category sel category texts :
  Category <$> appendAll sel category texts
  = (Category <$> sel) ++ replicate (length texts) category.
Proof.
  revert sel. induction texts as [|t ts IH]; intros sel; simpl.
  - by rewrite app_nil_r.
  - unfold appendAll in *. simpl. rewrite IH, fmap_app. simpl.
    by rewrite <- app_assoc.
Qed.

Lemma takeSelected_spec available category n : ∀ i sel txts,
  (i + n ≤ length available)%nat →
  takeSelected available category i n sel txts
  = Some (appendAll sel category (take n (drop i available)),
          list_to_set (take n (drop i available)) ∪ txts).
Proof.
  induction n as [|n IH]; intros i sel txts Hlen; simpl.
  - do 2 f_equal. by rewrite gset_union_nil.
  - destruct (lookup_lt_is_Some_2 available i ltac:(lia)) as [t Ht].
    rewrite Ht. simpl. rewrite IH by lia.
    rewrite (drop_S _ _ _ Ht). cbn [take]. do 2 f_equal.
    by rewrite gset_union_cons.
Qed.

Lemma Shuffle_length l g : length (Shuffle l g).1 = length l.
Proof. by rewrite (Shuffle_perm l g). Qed.

Lemma Shuffle_elem l g t : t ∈ (Shuffle l g).1 ↔ t ∈ l.
Proof. by rewrite (Shuffle_perm l g). Qed.

(** One round of the easy loop appends at most one question, drawn from
    the category. *)
Lemma easyBody_spec sel g c :
  ∃ new g',
    easyBody (sel, g) c = Some (appendAll sel c new, g')
    ∧ (length new ≤ 1)%nat
    ∧ (texts_of c ≠ [] → length new = 1%nat)
    ∧ ∀ t, t ∈ new → t ∈ texts_of c.
Proof.
  unfold easyBody, texts_of.
  destruct (QuestionsByCategory !! c) as [[|q questions]|] eqn:Hc; simpl.
  - exists [], g. repeat split; [simpl; lia|done|by intros ? ?%elem_of_nil].
  - pose proof (Shuffle_length (q :: questions) g) as Hlen.
    pose proof (Shuffle_elem (q :: questions) g) as Hel.
    destruct (Shuffle (q :: questions) g) as [[|t available] g']; [done|].
    simpl in *. exists [t], g'. repeat split; [simpl; lia|].
    intros t' ->%list_elem_of_singleton. apply Hel. by left.
  - exists [], g. repeat split; [simpl; lia|done|by intros ? ?%elem_of_nil].
Qed.

Lemma mediumBody_spec sel txts g c :
  ∃ new g',
    mediumBody (sel, txts, g) c
    = Some (appendAll sel c new, list_to_set new ∪ txts, g')
    ∧ (length new ≤ 1)%nat
    ∧ (texts_of c ≠ [] → length new = 1%nat)
    ∧ ∀ t, t ∈ new → t ∈ texts_of c.
Proof.
  unfold mediumBody, texts_of.
  destruct (QuestionsByCategory !! c) as [[|q questions]|] eqn:Hc; simpl.
  - exists [], g. rewrite gset_union_nil. repeat split; [simpl; lia|done|by intros ? ?%elem_of_nil].
  - pose proof (Shuffle_length (q :: questions) g) as Hlen.
    pose proof (Shuffle_elem (q :: questions) g) as Hel.
    destruct (Shuffle (q :: questions) g) as [[|t available] g']; [done|].
    simpl in *. exists [t], g'. simpl. rewrite union_empty_r_L.
    repeat split; [simpl; lia|].
    intros t' ->%list_elem_of_singleton. apply Hel. by left.
  - exists [], g. rewrite gset_union_nil. repeat split; [simpl; lia|done|by intros ? ?%elem_of_nil].
Qed.

(** One round of the hard loop appends the first two of the shuffled
    unselected questions of the category, or the only one, or none. *)
Lemma hardBody_spec sel txts g c :
  ∃ new rest g',
    hardBody (sel, txts, g) c
    = Some (appendAll sel c new, list_to_set new ∪ txts, g')
    ∧ length new = (2 `min` length (unselected txts (texts_of c)))%nat
    ∧ new ++ rest ≡ₚ unselected txts (texts_of c).
Proof.
  unfold hardBody, texts_of.
  destruct (QuestionsByCategory !! c) as [[|q questions]|] eqn:Hc;
    cbv [default from_option id]; cbv beta iota.
  - exists [], [], g. by rewrite gset_union_nil.
  - destruct (unselected txts (q :: questions)) as [|a available] eqn:Hav.
    { exists [], [], g. by rewrite gset_union_nil. }
    pose proof (Shuffle_length (a :: available) g) as Hlen.
    pose proof (Shuffle_perm (a :: available) g) as Hperm.
    destruct (Shuffle (a :: available) g) as [shuffled g']. simpl in Hlen, Hperm.
    change (length (a :: available)) with (S (length available)).
    rewrite count_min.
    rewrite takeSelected_spec by (rewrite Hlen; lia).
    cbn [mbind option_bind]. rewrite drop_0.
    exists (take (2 `min` S (length available)) shuffled),
           (drop (2 `min` S (length available)) shuffled), g'.
    split; [done|]. split.
    + rewrite length_take, Hlen. cbn [length]. lia.
    + by rewrite take_drop.
  - exists [], [], g. by rewrite gset_union_nil.
Qed.

(** *** No text twice *)





Lemma unselected_elem txts questions t :
  t ∈ unselected txts questions ↔ (t ∉ txts) ∧ (t ∈ questions).
Proof. unfold unselected. by rewrite list_elem_of_filter. Qed.



(** *** How many questions a category contributes *)

(** [q] is listed under no category of [categories] other than [c]. *)
Definition fresh (categories : list string) (c q : string) : Prop :=
  ∀ c', c' ∈ categories → c' ≠ c → q ∉ texts_of c'.

(** [c] lists two questions that no other category lists. *)
Definition two_fresh (categories : list string) (c : string) : Prop :=
  ∃ l1 q1 l2 q2 l3,
    texts_of c = l1 ++ q1 :: l2 ++ q2 :: l3
    ∧ fresh categories c q1 ∧ fresh categories c q2.



Lemma two_fresh_disjoint categories c :
  disjoint_categories categories → c ∈ categories →
  (2 ≤ length (texts_of c))%nat → two_fresh categories c.
Proof.
  intros Hdis Hc Hlen.
  destruct (texts_of c) as [|q1 [|q2 l3]] eqn:Hq; simpl in Hlen; try lia.
  exists [], q1, [], q2, l3. split; [done|].
  split; intros c' Hc' Hne Hin.
  - apply (Hdis c c' q1); [done|done|done| |done]. rewrite Hq. by left.
  - apply (Hdis c c' q2); [done|done|done| |done]. rewrite Hq. right. by left.
Qed.





Lemma allCategories_NoDup : NoDup allCategories.
Proof. apply (bool_decide_unpack (NoDup allCategories)). by vm_compute. Qed.




(** C10: a tier token other than ["easy"], ["medium"], ["hard"] and the
    empty one selects nothing, whatever the bank holds. *)
Theorem unknown_tier_selects_nothing (now : Z) (level : string) (g : RNG) :
  level ≠ "easy" → level ≠ "medium" → level ≠ "hard" → level ≠ EmptyString →
  SelectQuestionsForSession now level g = Some ([], Seed now g).
Proof.
  intros Heasy Hmedium Hhard Hempty. unfold SelectQuestionsForSession.
  rewrite !bool_decide_eq_false_2 by done. reflexivity.
Qed.

End Selection.

(** ** A concrete random source and concrete banks, for the examples *)

Module Demo.

(** The state is a counter; a shuffle reverses the slice on every odd
    count, a draw takes the count modulo the bound. *)
Definition Seed (now : Z) (_ : Z) : Z := now.

Definition Shuffle (l : list string) (g : Z) : list string * Z :=
  (if Z.even g then l else reverse l, g + 1).

Definition Intn (n : nat) (g : Z) : nat * Z :=
  (Z.to_nat (g mod Z.of_nat n), g + 1).

Lemma Shuffle_perm l g : (Shuffle l g).1 ≡ₚ l.
Proof.
  unfold Shuffle. simpl. destruct (Z.even g); [done|]. apply reverse_Permutation.
Qed.

Lemma Intn_lt n g : (0 < n)%nat → ((Intn n g).1 < n)%nat.
Proof.
  intros Hn. unfold Intn. simpl.
  pose proof (Z.mod_pos_bound g (Z.of_nat n) ltac:(lia)). lia.
Qed.

Definition select (bank : gmap string (list string)) :=
  SelectQuestionsForSession Z Seed Shuffle Intn bank.

(** The texts, and the number, of the questions a run returns. *)
Definition texts (run : option (list Question * Z)) : option (list string) :=
  match run with
  | Some (qs, _) => Some (Text <$> qs)
  | None => None
  end.


(** Three questions in each category, all different. *)
Definition bank : gmap string (list string) :=
  list_to_map
    [ ("Purpose of Study",
       [ "Why do you want to study in the United States?";
         "Why did you choose this field?";
         "What will you study?" ]);
      ("Academic Background",
       [ "What is your undergraduate degree?";
         "What was your GPA?";
         "Which entrance tests did you take?" ]);
      ("University Choice",
       [ "Why this university?";
         "How many universities did you apply to?";
         "Who will be your advisor?" ]);
      ("Financial Capability",
       [ "Who is paying for your studies?";
         "What does one year cost?";
         "What does your sponsor do?" ]);
      ("Post-Graduation Plans",
       [ "What will you do after graduation?";
         "Do you have a job offer at home?";
         "Where do you see yourself in five years?" ]);
      ("Immigration Intent",
       [ "Do you have relatives in the United States?";
         "Do you plan to return home?";
         "What ties do you have to your country?" ]) ].



End Demo.

(** Decision procedures for the conditions on a bank. *)
Definition disjointb (bank : gmap string (list string)) (categories : list string) : bool :=
  forallb (λ c,
    forallb (λ c',
      bool_decide (c = c')
      || forallb (λ q, bool_decide (q ∉ texts_of bank c')) (texts_of bank c))
      categories)
    categories.

Definition duplicate_freeb (bank : gmap string (list string)) (categories : list string) : bool :=
  forallb (λ c, bool_decide (NoDup (texts_of bank c))) categories.

Lemma disjointb_correct bank categories :
  disjointb bank categories = true → disjoint_categories bank categories.
Proof.
  unfold disjointb. rewrite forallb_forall. intros H c c' q Hc Hc' Hne Hq.
  apply list_elem_of_In in Hc, Hc', Hq.
  specialize (H c Hc). rewrite forallb_forall in H. specialize (H c' Hc').
  apply orb_true_iff in H as [H|H].
  - by apply bool_decide_eq_true in H.
  - rewrite forallb_forall in H. specialize (H q Hq).
    by apply bool_decide_eq_true in H.
Qed.

Lemma duplicate_freeb_correct bank categories :
  duplicate_freeb bank categories = true → duplicate_free bank categories.
Proof.
  unfold duplicate_freeb. rewrite forallb_forall. intros H c Hc.
  apply list_elem_of_In in Hc. specialize (H c Hc).
  by apply bool_decide_eq_true in H.
Qed.





Lemma unknown_tier_selects_nothing_witness :
  Demo.select Demo.bank 1 "EASY" 0 = Some ([], 1)
  ∧ Demo.select Demo.bank 1 "extreme" 0 = Some ([], 1).
Proof.
  split;
    apply (unknown_tier_selects_nothing Z Demo.Seed Demo.Shuffle Demo.Intn);
    discriminate.
Defined.

(** ** [analyzer.go]: the session summary *)

Definition formatCriterionName (criterion : string) : string :=
  if bool_decide (criterion = "migration_intent") then "Strong return intent"
  else if bool_decide (criterion = "financial_understanding") then "Financial understanding"
  else if bool_decide (criterion = "academic_credibility") then "Academic credibility"
  else if bool_decide (criterion = "specificity_research") then "Specificity & research"
  else if bool_decide (criterion = "consistency") then "Consistency"
  else if bool_decide (criterion = "communication_quality") then "Communication quality"
  else if bool_decide (criterion = "red_flags") then "No red flags"
  else criterion.

(** The criteria by their JSON names. *)
Definition namedScores (s : AnalysisScores) : list (string * option Z) :=
  [ ("migration_intent", MigrationIntent s);
    ("financial_understanding", FinancialUnderstanding s);
    ("academic_credibility", AcademicCredibility s);
    ("specificity_research", SpecificityResearch s);
    ("consistency", Consistency s);
    ("communication_quality", CommunicationQuality s);
    ("red_flags", RedFlags s) ].

(** [counts[name]++] for each criterion of each record whose score is not
    null and passes [test]. *)
Definition countWhere (test : Z → bool) (analyses : list AnalysisRecord)
  : gmap string Z :=
  fold_left
    (λ counts record,
       fold_left
         (λ counts '(name, p),
            match p with
            | Some v =>
                if test v
                then <[name := GoInt.add (default 0 (counts !! name)) 1]> counts
                else counts
            | None => counts
            end)
         (namedScores (Scores (Analysis record))) counts)
    analyses ∅.

(** [for criterion, count := range counts { if count >= len(analyses)/2
    { ... } }]; Go leaves the order of the range open, this is one order. *)
Definition frequent (counts : gmap string Z) (analyses : list AnalysisRecord)
  : list string :=
  omap (λ '(criterion, count),
          if Z.of_nat (length analyses) `quot` 2 <=? count
          then Some (formatCriterionName criterion) else None)
    (map_to_list counts).

Definition extractCommonStrengths (analyses : list AnalysisRecord) : list string :=
  frequent (countWhere (λ v, 4 <=? v) analyses) analyses.

Definition extractCommonWeaknesses (analyses : list AnalysisRecord) : list string :=
  frequent (countWhere (λ v, v <=? 3) analyses) analyses.

Definition flagNames : list string :=
  [ "Shows potential immigration intent";
    "Poor financial understanding or planning";
    "Weak academic fit or credibility";
    "Lacks specific knowledge or research";
    "Inconsistent answers or contradictions";
    "Poor communication or clarity";
    "Major red flags detected" ].

Definition extractCommonRedFlags (analyses : list AnalysisRecord) : list string :=
  elements
    (fold_left
       (λ (flagMap : gset string) record,
          fold_left
            (λ flagMap '(flag, p),
               match p with
               | Some v => if v <=? 2 then {[flag]} ∪ flagMap else flagMap
               | None => flagMap
               end)
            (zip flagNames (criterionScores (Scores (Analysis record)))) flagMap)
       analyses ∅).

Definition generateRecommendation (avgScore : spec_float)
    (analyses : list AnalysisRecord) : string :=
  if F64.ge avgScore (F64.of_int 32) then
    "Excellent performance! You're well-prepared. Focus on maintaining confidence and natural delivery during the actual interview."
  else if F64.ge avgScore (F64.of_int 25) then
    "Good foundation. Review the specific feedback for each answer and practice the improved versions. Focus on being more specific and confident in your responses."
  else if F64.ge avgScore (F64.of_int 18) then
    "You need more practice. Focus on providing specific examples, showing strong ties to your home country, and demonstrating clear post-graduation plans."
  else
    "Significant improvement needed. Consider working with an advisor to strengthen your answers. Focus on clarity, specificity, and addressing visa officer concerns about immigrant intent.".

(** The loop of [GenerateSessionSummary]: [totalScore] and
    [totalCriteriaCount]. *)
Definition sumTotals (analyses : list AnalysisRecord) : Z * Z :=
  fold_left
    (λ '(totalScore, totalCriteriaCount) record,
       (GoInt.add totalScore (TotalScore (Scores (Analysis record))),
        GoInt.add totalCriteriaCount
          (countRelevantCriteria (Scores (Analysis record)))))
    analyses (0, 0).

(** [now] is the clock read for [CompletedAt]. *)
Definition GenerateSessionSummary (now : Z) (analyses : list AnalysisRecord)
  : Error + SessionSummary :=
  if (length analyses =? 0)%nat then inl ErrNoAnalyses
  else
    let '(totalScore, totalCriteriaCount) := sumTotals analyses in
    let avgScore :=
      F64.div (F64.of_int totalScore) (F64.of_int (Z.of_nat (length analyses))) in
    let avgCriteriaCount :=
      GoInt.quot totalCriteriaCount (Z.of_nat (length analyses)) in
    let avgCriteriaCount := if avgCriteriaCount =? 0 then 1 else avgCriteriaCount in
    inr {| TotalQuestions := Z.of_nat (length analyses);
           AverageScore := avgScore;
           OverallGrade := getGradeFromScore (F64.to_int avgScore) avgCriteriaCount;
           StrongAreas := extractCommonStrengths analyses;
           WeakAreas := extractCommonWeaknesses analyses;
           CommonRedFlags := extractCommonRedFlags analyses;
           Recommendation := generateRecommendation avgScore analyses;
           CompletedAt := now |}.

(** C7: summarising no analyses returns the error "no analyses provided"
    and no summary; any other list is given a summary. *)
Theorem summary_of_nothing_is_an_error (now : Z) :
  GenerateSessionSummary now [] = inl ErrNoAnalyses
  ∧ Error_text ErrNoAnalyses = "no analyses provided"
  ∧ (∀ summary, GenerateSessionSummary now [] ≠ inr summary)
  ∧ (∀ analyses, GenerateSessionSummary now analyses = inl ErrNoAnalyses
                 ↔ analyses = []).
Proof.
  split; [reflexivity|]. split; [reflexivity|]. split.
  - intros summary. discriminate.
  - intros analyses. split.
    + unfold GenerateSessionSummary.
      destruct analyses as [|record analyses]; [done|]. simpl.
      by destruct (sumTotals (record :: analyses)).
    + by intros ->.
Qed.

(** ** Loading the bank *)

(** A category that [QuestionSelectionRules] names. *)
Definition required (category : string) : Prop :=
  is_Some (QuestionSelectionRules !! category).

Lemma required_iff category : required category ↔ category ∈ allCategories.
Proof.
  unfold required, QuestionSelectionRules, allCategories. split.
  - intros [n Hn]. apply elem_of_list_to_map_2 in Hn.
    apply (list_elem_of_fmap_2 fst) in Hn. exact Hn.
  - intros Hin.
    repeat (apply elem_of_cons in Hin as [->|Hin]; [by eexists|]).
    by apply elem_of_nil in Hin.
Qed.

Section LoadQuestionsProperties.

Variable ReadFile : string → option bytes.
Variable unmarshalCategories : bytes → option (gmap string (list string)).
Variable rulesOrder : list string.

(** The range visits exactly the keys of [QuestionSelectionRules]. *)
Hypothesis rulesOrder_keys : ∀ category, category ∈ rulesOrder ↔ required category.

Lemma copy_categories (categories : gmap string (list string)) :
  map_fold (λ category questions m, <[category := questions]> m) ∅ categories
  = categories.
Proof.
  apply (map_fold_weak_ind (λ r m, r = m)); [done|].
  intros category questions m r Hm ->. done.
Qed.

Lemma firstMissing_None categories (bank : gmap string (list string)) :
  firstMissing categories bank = None
  ↔ ∀ category, category ∈ categories → is_Some (bank !! category).
Proof.
  induction categories as [|c categories IH]; simpl.
  - split; [by intros _ ? ?%elem_of_nil|done].
  - destruct (bank !! c) as [questions|] eqn:Hc.
    + rewrite IH. split.
      * intros H category [->|Hin]%elem_of_cons; [by rewrite Hc|by apply H].
      * intros H category Hin. apply H. by right.
    + split; [done|]. intros H. specialize (H c ltac:(by left)).
      rewrite Hc in H. by destruct H.
Qed.

Lemma firstMissing_Some categories (bank : gmap string (list string)) category :
  firstMissing categories bank = Some category →
  category ∈ categories ∧ bank !! category = None.
Proof.
  induction categories as [|c categories IH]; simpl; [done|].
  destruct (bank !! c) as [questions|] eqn:Hc.
  - intros [Hin Hnone]%IH. split; [by right|done].
  - intros [= <-]. split; [by left|done].
Qed.

(** The package variable is assigned before the check: after a failed
    check it holds the mapping that was just rejected. *)
Lemma LoadQuestions_assigns path bank data categories :
  ReadFile path = Some data → unmarshalCategories data = Some categories →
  (LoadQuestions ReadFile unmarshalCategories rulesOrder path bank).1 = categories.
Proof.
  intros Hread Hdecode. unfold LoadQuestions.
  rewrite Hread, Hdecode, copy_categories.
  by destruct (firstMissing rulesOrder categories).
Qed.

(** C9, amended: a file that cannot be read or decoded is an error and
    leaves [QuestionsByCategory] as it was.  Once the file is read and
    decoded, the variable holds the decoded mapping, whether the check then
    succeeds or fails; [LoadQuestions] fails exactly when a category named
    by the selection rules is absent from that mapping, and the error
    names such a category; a category that is present is accepted whatever
    it holds, an empty list included. *)
Theorem LoadQuestions_requires_presence (path : string)
    (bank : gmap string (list string)) :
  (ReadFile path = None →
   LoadQuestions ReadFile unmarshalCategories rulesOrder path bank
   = (bank, Some ErrReadQuestionsFile))
  ∧ (∀ data, ReadFile path = Some data → unmarshalCategories data = None →
     LoadQuestions ReadFile unmarshalCategories rulesOrder path bank
     = (bank, Some ErrUnmarshalQuestions))
  ∧ (∀ data categories,
     ReadFile path = Some data → unmarshalCategories data = Some categories →
     let outcome :=
       (LoadQuestions ReadFile unmarshalCategories rulesOrder path bank).2 in
     (LoadQuestions ReadFile unmarshalCategories rulesOrder path bank).1
     = categories
     ∧ (outcome = None
        ↔ ∀ category, required category → is_Some (categories !! category))
     ∧ (outcome ≠ None →
        ∃ category, outcome = Some (ErrMissingCategory category)
                    ∧ required category ∧ categories !! category = None)).
Proof.
  split; [|split].
  - intros Hread. unfold LoadQuestions. by rewrite Hread.
  - intros data Hread Hdecode. unfold LoadQuestions. by rewrite Hread, Hdecode.
  - intros data categories Hread Hdecode.
    split; [by eapply LoadQuestions_assigns|]. unfold LoadQuestions.
    rewrite Hread, Hdecode, copy_categories.
    destruct (firstMissing rulesOrder categories) as [missing|] eqn:Hm; simpl.
    + apply firstMissing_Some in Hm as [Hin Hnone]. split.
      * split; [done|]. intros Hall.
        destruct (Hall missing) as [questions Hq]; [by apply rulesOrder_keys|].
        congruence.
      * intros _. exists missing. split; [done|]. split; [|done].
        by apply rulesOrder_keys.
    + split; [|done]. split; [|done]. intros _ category Hreq.
      apply (proj1 (firstMissing_None _ _) Hm). by apply rulesOrder_keys.
Qed.

End LoadQuestionsProperties.

Module DemoFile.

(** A questions file in which every required category is present and the
    first one is empty. *)
Definition categories : gmap string (list string) :=
  <["Purpose of Study" := []]> Demo.bank.

Definition ReadFile (path : string) : option bytes :=
  if bool_decide (path = "questions.json")
  then Some (list_ascii_of_string "{...}") else None.

Definition unmarshalCategories (data : bytes) : option (gmap string (list string)) :=
  Some categories.

Definition load :=
  LoadQuestions ReadFile unmarshalCategories CategoryOrder.

Lemma CategoryOrder_keys category : category ∈ CategoryOrder ↔ required category.
Proof. by rewrite required_iff. Qed.

End DemoFile.

(** A questions file that lacks the category "Immigration Intent". *)
Module DemoPartial.

Definition categories : gmap string (list string) :=
  delete "Immigration Intent" Demo.bank.

Definition ReadFile (path : string) : option bytes :=
  if bool_decide (path = "questions.json")
  then Some (list_ascii_of_string "{...}") else None.

Definition unmarshalCategories (data : bytes) : option (gmap string (list string)) :=
  Some categories.

Definition load :=
  LoadQuestions ReadFile unmarshalCategories CategoryOrder.

End DemoPartial.

Lemma LoadQuestions_requires_presence_witness :
  (DemoFile.load "questions.json" ∅).2 = None
  ∧ DemoFile.load "missing.json" ∅ = (∅, Some ErrReadQuestionsFile)
  ∧ (DemoPartial.load "questions.json" ∅).1 = DemoPartial.categories
  ∧ ∃ category,
      (DemoPartial.load "questions.json" ∅).2
      = Some (ErrMissingCategory category)
      ∧ required category ∧ DemoPartial.categories !! category = None.
Proof.
  split; [|split].
  - destruct (LoadQuestions_requires_presence DemoFile.ReadFile
                DemoFile.unmarshalCategories CategoryOrder
                DemoFile.CategoryOrder_keys "questions.json" ∅)
      as (_ & _ & Hpresent).
    destruct (Hpresent (list_ascii_of_string "{...}") DemoFile.categories
                eq_refl eq_refl) as (_ & Hiff & _).
    apply Hiff. intros category Hin%required_iff.
    repeat (apply elem_of_cons in Hin as [->|Hin]; [by eexists|]).
    by apply elem_of_nil in Hin.
  - destruct (LoadQuestions_requires_presence DemoFile.ReadFile
                DemoFile.unmarshalCategories CategoryOrder
                DemoFile.CategoryOrder_keys "missing.json" ∅)
      as (Hmissing & _ & _).
    by apply Hmissing.
  - destruct (LoadQuestions_requires_presence DemoPartial.ReadFile
                DemoPartial.unmarshalCategories CategoryOrder
                DemoFile.CategoryOrder_keys "questions.json" ∅)
      as (_ & _ & Hpartial).
    destruct (Hpartial (list_ascii_of_string "{...}") DemoPartial.categories
                eq_refl eq_refl) as (Hbank & _ & Herror).
    split; [exact Hbank|]. apply Herror.
    intros Hnone. vm_compute in Hnone. discriminate.
Defined.

(** C9 as stated fails twice.  The first required category is present and
    empty, and the load succeeds.  And a load that fails for a missing
    category has already replaced the bank: after the error
    [QuestionsByCategory], empty before, holds the five categories of the
    rejected file. *)
Lemma LoadQuestions_accepts_empty_exposes_rejected :
  (DemoFile.categories !! "Purpose of Study" = Some []
   ∧ required "Purpose of Study"
   ∧ (DemoFile.load "questions.json" ∅).2 = None)
  ∧ ((DemoPartial.load "questions.json" ∅).2
     = Some (ErrMissingCategory "Immigration Intent")
     ∧ (DemoPartial.load "questions.json" ∅).1 = DemoPartial.categories
     ∧ DemoPartial.categories !! "Immigration Intent" = None
     ∧ DemoPartial.categories !! "Purpose of Study"
       = Demo.bank !! "Purpose of Study"
     ∧ (∅ : gmap string (list string)) !! "Purpose of Study" = None).
Proof.
  split.
  - split; [by vm_compute|]. split; [|by vm_compute].
    apply required_iff. by left.
  - split; [by vm_compute|]. split.
    + by apply (LoadQuestions_assigns DemoPartial.ReadFile
                  DemoPartial.unmarshalCategories CategoryOrder
                  "questions.json" ∅ (list_ascii_of_string "{...}")).
    + split; [by vm_compute|]. split; by vm_compute.
Qed.

(** ** Facts about the floating-point computations, by evaluation *)

Module F64Facts.


(** [x <= y] *)
Definition le (x y : spec_float) : bool := SFleb x y.

(** A property checked on every integer of an interval. *)
Lemma forall_range (P : Z → bool) (lo len : Z) :
  forallb P (seqZ lo len) = true → ∀ z, lo ≤ z < lo + len → P z = true.
Proof.
  rewrite forallb_forall. intros H z Hz. apply H, list_elem_of_In, elem_of_seqZ. lia.
Qed.

End F64Facts.

(** ** The overall grade *)

(** The whole part of [percent]% of [criteriaCount * 5]. *)
Definition gradeThreshold (percent criteriaCount : Z) : Z :=
  percent * (criteriaCount * 5) / 100.

Section Grades.

(** The three thresholds that [getGradeFromScore] computes in floating
    point are those whole parts, for every count that seven criteria
    allow. *)
Definition floatThresholds (criteriaCount : Z) : Z * Z * Z :=
  let maxScore := GoInt.mul criteriaCount 5 in
  (F64.to_int (F64.mul (F64.of_int maxScore) F64.c0_85),
   F64.to_int (F64.mul (F64.of_int maxScore) F64.c0_70),
   F64.to_int (F64.mul (F64.of_int maxScore) F64.c0_50)).

Lemma floatThresholds_exact criteriaCount :
  1 ≤ criteriaCount ≤ 7 →
  floatThresholds criteriaCount
  = (gradeThreshold 85 criteriaCount, gradeThreshold 70 criteriaCount,
     gradeThreshold 50 criteriaCount).
Proof.
  intros H.
  assert (Hc : criteriaCount = 1 ∨ criteriaCount = 2 ∨ criteriaCount = 3
               ∨ criteriaCount = 4 ∨ criteriaCount = 5 ∨ criteriaCount = 6
               ∨ criteriaCount = 7) by lia.
  destruct Hc as [->|[->|[->|[->|[->|[->| ->]]]]]]; by vm_compute.
Qed.

Lemma getGradeFromScore_table score criteriaCount :
  1 ≤ criteriaCount ≤ 7 →
  getGradeFromScore score criteriaCount
  = ladder (gradeThreshold 85 criteriaCount <=? score)
           (gradeThreshold 70 criteriaCount <=? score)
           (gradeThreshold 50 criteriaCount <=? score)
      "A" "B" "C" "D".
Proof.
  intros H. pose proof (floatThresholds_exact criteriaCount H) as Ht.
  unfold getGradeFromScore, floatThresholds in *.
  destruct (Z.eqb_spec criteriaCount 0); [lia|].
  by injection Ht as -> -> ->.
Qed.

(** The exact sums of the totals and of the criterion counts. *)
Definition sumOfTotals (analyses : list AnalysisRecord) : Z :=
  sum_scores ((λ r, TotalScore (Scores (Analysis r))) <$> analyses).

Definition sumOfCounts (analyses : list AnalysisRecord) : Z :=
  sum_scores ((λ r, countRelevantCriteria (Scores (Analysis r))) <$> analyses).

(** [avgCriteriaCount]: the whole part of the mean count, 1 when that is 0. *)
Definition averageCriteria (analyses : list AnalysisRecord) : Z :=
  let avg := sumOfCounts analyses `quot` Z.of_nat (length analyses) in
  if avg =? 0 then 1 else avg.

Lemma countRelevantCriteria_range s : 0 ≤ countRelevantCriteria s ≤ 7.
Proof.
  rewrite countRelevantCriteria_length.
  pose proof (presentScores_length s). lia.
Qed.

Lemma sumOfCounts_range analyses :
  0 ≤ sumOfCounts analyses ≤ 7 * Z.of_nat (length analyses).
Proof.
  unfold sumOfCounts.
  pose proof (sum_scores_bounds
    ((λ r, countRelevantCriteria (Scores (Analysis r))) <$> analyses) 0 7) as H.
  rewrite length_fmap in H. rewrite Z.mul_0_l in H. apply H.
  apply Forall_fmap, Forall_forall. intros r _. apply countRelevantCriteria_range.
Qed.

Lemma sumTotals_fold analyses : ∀ t k,
  fold_left
    (λ '(totalScore, totalCriteriaCount) record,
       (GoInt.add totalScore (TotalScore (Scores (Analysis record))),
        GoInt.add totalCriteriaCount
          (countRelevantCriteria (Scores (Analysis record)))))
    analyses (t, k)
  = (GoInt.wrap (t + sumOfTotals analyses), GoInt.wrap (k + sumOfCounts analyses))
  ∨ analyses = [].
Proof.
  induction analyses as [|r analyses IH]; intros t k; [by right|]. left.
  cbn [fold_left]. destruct (IH (GoInt.add t (TotalScore (Scores (Analysis r))))
    (GoInt.add k (countRelevantCriteria (Scores (Analysis r))))) as [-> | ->].
  - unfold GoInt.add, sumOfTotals, sumOfCounts. rewrite !GoInt.wrap_add_l.
    rewrite !fmap_cons. unfold sum_scores. cbn [foldr].
    by rewrite !Z.add_assoc.
  - unfold GoInt.add, sumOfTotals, sumOfCounts. simpl.
    by rewrite !Z.add_0_r.
Qed.

Lemma sumTotals_exact analyses :
  analyses ≠ [] →
  sumTotals analyses
  = (GoInt.wrap (sumOfTotals analyses), GoInt.wrap (sumOfCounts analyses)).
Proof.
  intros Hne. unfold sumTotals.
  destruct (sumTotals_fold analyses 0 0) as [-> | ->]; [|done].
  by rewrite !Z.add_0_l.
Qed.


End Grades.

(** The records of the repository's summary test: totals 32 and 29, seven
    criteria each. *)
Module DemoSession.

Definition noFeedback : StructuredFeedback :=
  {| Overall := EmptyString;
     ByCriterion :=
       {| FbMigrationIntent := EmptyString; FbFinancialUnderstanding := EmptyString;
          FbAcademicCredibility := EmptyString; FbSpecificityResearch := EmptyString;
          FbConsistency := EmptyString; FbCommunicationQuality := EmptyString;
          FbRedFlags := EmptyString |};
     Improvements := [] |}.

Definition record (id : string) (mi fu ac sr co cq rf total : Z)
    (classification : string) : AnalysisRecord :=
  {| RecordID := id; SessionID := "s1"; RecordQuestion := "Question";
     RecordAnswer := "Answer";
     Analysis :=
       {| Scores :=
            {| MigrationIntent := Some mi; FinancialUnderstanding := Some fu;
               AcademicCredibility := Some ac; SpecificityResearch := Some sr;
               Consistency := Some co; CommunicationQuality := Some cq;
               RedFlags := Some rf; TotalScore := total |};
          Classification := classification;
          Feedback := noFeedback |};
     CreatedAt := 0 |}.

Definition first : AnalysisRecord := record "q1" 5 4 4 4 5 5 5 32 "Excellent".
Definition second : AnalysisRecord := record "q2" 4 4 4 4 4 4 5 29 "Good".

(** The grade of a summary, when there is one. *)
Definition grade (outcome : Error + SessionSummary) : option string :=
  match outcome with
  | inr summary => Some (OverallGrade summary)
  | inl _ => None
  end.

End DemoSession.




(** ** Rounding to [float64] keeps the order

    [SpecFloat] gives the operations of [float64] as functions on mantissas
    and exponents.  This module describes the float that
    [binary_round_aux] returns as a function of the number it rounds, and
    derives that the conversion from [int] and the products and quotients
    by a positive float keep the order of their arguments, whatever the
    rounding does. *)

Module Rounding.

Definition emin : Z := -1074.
Definition fexp (e : Z) : Z := Z.max (e - 53) emin.

Lemma fexp_spec e : SpecFloat.fexp F64.prec F64.emax e = fexp e.
Proof. reflexivity. Qed.

Lemma fexp_mono a b : a ≤ b → fexp a ≤ fexp b.
Proof. unfold fexp. lia. Qed.

(** *** The number of binary digits *)

Definition digits (m : Z) : Z := Zdigits2 m.

Lemma digits2_pos_bounds p :
  2 ^ (Z.pos (digits2_pos p) - 1) ≤ Z.pos p < 2 ^ Z.pos (digits2_pos p).
Proof.
  induction p as [p IH|p IH|]; cbn [digits2_pos].
  - rewrite Pos2Z.inj_succ, (Pos2Z.inj_xI p).
    replace (Z.succ (Z.pos (digits2_pos p)) - 1)
      with (Z.succ (Z.pos (digits2_pos p) - 1)) by lia.
    rewrite !Z.pow_succ_r by lia.
    generalize dependent (2 ^ (Z.pos (digits2_pos p) - 1)).
    generalize dependent (2 ^ Z.pos (digits2_pos p)). intros; lia.
  - rewrite Pos2Z.inj_succ, (Pos2Z.inj_xO p).
    replace (Z.succ (Z.pos (digits2_pos p)) - 1)
      with (Z.succ (Z.pos (digits2_pos p) - 1)) by lia.
    rewrite !Z.pow_succ_r by lia.
    generalize dependent (2 ^ (Z.pos (digits2_pos p) - 1)).
    generalize dependent (2 ^ Z.pos (digits2_pos p)). intros; lia.
  - simpl. lia.
Qed.

Lemma digits_bounds m : 0 < m → 2 ^ (digits m - 1) ≤ m < 2 ^ digits m ∧ 1 ≤ digits m.
Proof.
  destruct m as [|p|p]; try lia. intros _. unfold digits. cbn [Zdigits2].
  split; [apply digits2_pos_bounds|lia].
Qed.

Lemma digits_0 : digits 0 = 0.
Proof. reflexivity. Qed.

Lemma digits_nonneg m : 0 ≤ digits m.
Proof. destruct m; unfold digits; simpl; lia. Qed.

Lemma digits_unique m d : 1 ≤ d → 2 ^ (d - 1) ≤ m < 2 ^ d → digits m = d.
Proof.
  intros Hd Hm.
  assert (0 < m) by (pose proof (Z.pow_pos_nonneg 2 (d - 1)); lia).
  destruct (digits_bounds m) as [Hb Hd']; [done|].
  destruct (Z.lt_trichotomy (digits m) d) as [Hlt|[Heq|Hgt]]; [|done|].
  - assert (2 ^ digits m ≤ 2 ^ (d - 1)) by (apply Z.pow_le_mono_r; lia). lia.
  - assert (2 ^ d ≤ 2 ^ (digits m - 1)) by (apply Z.pow_le_mono_r; lia). lia.
Qed.

Lemma digits_mono a b : 0 ≤ a → a ≤ b → digits a ≤ digits b.
Proof.
  intros Ha Hab. destruct (Z.eq_dec a 0) as [->|Hne]; [apply digits_nonneg|].
  destruct (digits_bounds a) as [Hba Hda]; [lia|].
  destruct (digits_bounds b) as [Hbb Hdb]; [lia|].
  destruct (Z.le_gt_cases (digits a) (digits b)) as [|Hgt]; [done|].
  assert (2 ^ digits b ≤ 2 ^ (digits a - 1)) by (apply Z.pow_le_mono_r; lia). lia.
Qed.

Lemma digits_lt_pow m d : 0 ≤ d → 0 ≤ m < 2 ^ d → digits m ≤ d.
Proof.
  intros Hd Hm. destruct (Z.eq_dec m 0) as [->|Hne]; [done|].
  destruct (digits_bounds m) as [Hb Hd']; [lia|].
  destruct (Z.le_gt_cases (digits m) d) as [|Hgt]; [done|].
  assert (2 ^ d ≤ 2 ^ (digits m - 1)) by (apply Z.pow_le_mono_r; lia). lia.
Qed.

Lemma digits_ge_pow m d : 1 ≤ d → 2 ^ (d - 1) ≤ m → d ≤ digits m.
Proof.
  intros Hd Hm.
  assert (0 < m) by (pose proof (Z.pow_pos_nonneg 2 (d - 1)); lia).
  destruct (digits_bounds m) as [Hb Hd']; [lia|].
  destruct (Z.le_gt_cases d (digits m)) as [|Hgt]; [done|].
  assert (2 ^ digits m ≤ 2 ^ (d - 1)) by (apply Z.pow_le_mono_r; lia). lia.
Qed.

(** Dropping [n] low bits drops [n] digits. *)
Lemma digits_shift m n :
  0 ≤ m → 0 ≤ n → digits (m / 2 ^ n) = Z.max 0 (digits m - n).
Proof.
  intros Hm Hn.
  assert (Hp : 0 < 2 ^ n) by (apply Z.pow_pos_nonneg; lia).
  destruct (Z.eq_dec m 0) as [->|Hne].
  { rewrite Z.div_0_l by lia. rewrite digits_0. lia. }
  destruct (digits_bounds m) as [Hb Hd]; [lia|].
  destruct (Z.le_gt_cases (digits m) n) as [Hle|Hgt].
  - assert (2 ^ digits m ≤ 2 ^ n) by (apply Z.pow_le_mono_r; lia).
    rewrite Z.div_small by lia. rewrite digits_0. lia.
  - replace (Z.max 0 (digits m - n)) with (digits m - n) by lia.
    apply digits_unique; [lia|].
    assert (He : 2 ^ digits m = 2 ^ (digits m - n) * 2 ^ n).
    { rewrite <- Z.pow_add_r by lia. f_equal. lia. }
    assert (He' : 2 ^ (digits m - 1) = 2 ^ (digits m - n - 1) * 2 ^ n).
    { rewrite <- Z.pow_add_r by lia. f_equal. lia. }
    split.
    + apply Z.div_le_lower_bound; [lia|]. lia.
    + apply Z.div_lt_upper_bound; [lia|]. lia.
Qed.

(** *** Positions between two integers

    [cell p q] tells where the rational [p / q] lies: twice the whole part
    of [2 p / q], plus one when [2 p / q] is not whole.  Its quarter is the
    whole part of [p / q], its value modulo 4 says whether [p / q] is that
    whole number (0), below the middle of the next unit (1), at the middle
    (2) or above (3). *)

Definition cell (p q : Z) : Z :=
  2 * (2 * p / q) + (if (2 * p) mod q =? 0 then 0 else 1).

Lemma cell_nonneg p q : 0 ≤ p → 0 < q → 0 ≤ cell p q.
Proof.
  intros Hp Hq. unfold cell.
  assert (0 ≤ 2 * p / q) by (apply Z.div_pos; lia).
  destruct (2 * p mod q =? 0); lia.
Qed.

Lemma cell_mono p1 q1 p2 q2 :
  0 ≤ p1 → 0 < q1 → 0 ≤ p2 → 0 < q2 →
  p1 * q2 ≤ p2 * q1 → cell p1 q1 ≤ cell p2 q2.
Proof.
  intros Hp1 Hq1 Hp2 Hq2 Hle. unfold cell.
  pose proof (Z.div_mod (2 * p1) q1 ltac:(lia)) as E1.
  pose proof (Z.mod_pos_bound (2 * p1) q1 Hq1) as B1.
  pose proof (Z.div_mod (2 * p2) q2 ltac:(lia)) as E2.
  pose proof (Z.mod_pos_bound (2 * p2) q2 Hq2) as B2.
  set (a := 2 * p1 / q1) in *. set (r := (2 * p1) mod q1) in *.
  set (b := 2 * p2 / q2) in *. set (t := (2 * p2) mod q2) in *.
  assert (Hab : a ≤ b).
  { destruct (Z.le_gt_cases a b) as [|Hgt]; [done|]. exfalso.
    assert (b + 1 ≤ a) by lia.
    assert (q1 * q2 * (b + 1) ≤ q1 * q2 * a) by (apply Z.mul_le_mono_nonneg_l; nia).
    nia. }
  destruct (Z.eqb_spec r 0) as [Hr|Hr]; destruct (Z.eqb_spec t 0) as [Ht|Ht]; try lia.
  assert (a < b); [|lia].
  destruct (Z.eq_dec a b) as [Heq|]; [|lia]. exfalso. subst b. rewrite Ht in *.
  nia.
Qed.

Lemma cell_quarter p q : 0 ≤ p → 0 < q → cell p q / 4 = p / q.
Proof.
  intros Hp Hq. unfold cell.
  pose proof (Z.div_mod p q ltac:(lia)) as E.
  pose proof (Z.mod_pos_bound p q Hq) as B.
  set (b := p / q) in *. set (s := p mod q) in *.
  assert (Ha : 2 * p / q = 2 * b + 2 * s / q).
  { replace (2 * p) with (2 * b * q + 2 * s) by lia.
    rewrite Z.div_add_l by lia. reflexivity. }
  assert (Ht : 0 ≤ 2 * s / q ≤ 1).
  { split; [apply Z.div_pos; lia|]. apply Z.lt_succ_r, Z.div_lt_upper_bound; lia. }
  rewrite Ha. symmetry.
  apply (Z.div_unique _ 4 b
    (2 * (2 * s / q) + (if 2 * p mod q =? 0 then 0 else 1))); [|lia].
  left. destruct (2 * p mod q =? 0); lia.
Qed.

(** One bit less: [sh1 (cell p q) = cell p (2 q)]. *)
Definition sh1 (v : Z) : Z := 2 * (v / 4) + (if v mod 4 =? 0 then 0 else 1).

Lemma sh1_cell p q : 0 ≤ p → 0 < q → sh1 (cell p q) = cell p (2 * q).
Proof.
  intros Hp Hq. unfold sh1. rewrite cell_quarter by done.
  unfold cell at 2.
  replace (2 * p / (2 * q)) with (p / q) by (rewrite Z.div_mul_cancel_l; lia).
  f_equal. rewrite Zmult_mod_distr_l.
  pose proof (Z.div_mod p q ltac:(lia)) as E.
  pose proof (Z.mod_pos_bound p q Hq) as B.
  pose proof (cell_quarter p q Hp Hq) as Hc.
  pose proof (Z.div_mod (cell p q) 4 ltac:(lia)) as E4.
  pose proof (Z.mod_pos_bound (cell p q) 4 ltac:(lia)) as B4.
  rewrite Hc in E4.
  set (b := p / q) in *. set (s := p mod q) in *. set (c := cell p q mod 4) in *.
  assert (Hcell : cell p q = 2 * (2 * b + 2 * s / q)
                             + (if (2 * s) mod q =? 0 then 0 else 1)).
  { unfold cell. replace (2 * p) with (2 * s + 2 * b * q) by lia.
    rewrite Z.div_add, Z.mod_add by lia. lia. }
  assert (Ht : 0 ≤ 2 * s / q ≤ 1).
  { split; [apply Z.div_pos; lia|]. apply Z.lt_succ_r, Z.div_lt_upper_bound; lia. }
  pose proof (Z.div_mod (2 * s) q ltac:(lia)) as Es.
  pose proof (Z.mod_pos_bound (2 * s) q Hq) as Bs.
  destruct (Z.eqb_spec c 0) as [Hc0|Hc0]; destruct (Z.eqb_spec (2 * s) 0) as [Hs|Hs];
    try reflexivity; exfalso.
  - destruct (Z.eqb_spec ((2 * s) mod q) 0); nia.
  - rewrite Hs, Z.div_0_l, Z.mod_0_l in Hcell by lia. simpl in Hcell. lia.
Qed.

(** *** The shift records of [SpecFloat] *)

Definition rec_of (v : Z) : shr_record :=
  {| shr_m := v / 4; shr_r := Z.odd (v / 2); shr_s := Z.odd v |}.

Lemma shr_1_nonneg m r s :
  0 ≤ m →
  shr_1 {| shr_m := m; shr_r := r; shr_s := s |}
  = {| shr_m := m / 2; shr_r := Z.odd m; shr_s := r || s |}.
Proof.
  intros Hm. destruct m as [|[p|p|]|p]; try lia; cbn [shr_1].
  - reflexivity.
  - f_equal. rewrite (Pos2Z.inj_xI p).
    apply (Z.div_unique _ 2 (Z.pos p) 1); lia.
  - f_equal. rewrite (Pos2Z.inj_xO p).
    apply (Z.div_unique _ 2 (Z.pos p) 0); lia.
  - reflexivity.
Qed.

Lemma odd_mod2 z : Z.odd z = negb (z mod 2 =? 0).
Proof.
  rewrite Zmod_odd. by destruct (Z.odd z).
Qed.

Lemma shr_1_rec_of v : 0 ≤ v → shr_1 (rec_of v) = rec_of (sh1 v).
Proof.
  intros Hv. unfold rec_of. rewrite shr_1_nonneg by (apply Z.div_pos; lia).
  unfold sh1.
  pose proof (Z.div_mod v 4 ltac:(lia)) as E4.
  pose proof (Z.mod_pos_bound v 4 ltac:(lia)) as B4.
  set (a := v / 4) in *. set (c := v mod 4) in *.
  assert (H2 : v / 2 = 2 * a + c / 2).
  { replace v with (c + 2 * a * 2) by lia. rewrite Z.div_add by lia. lia. }
  assert (Hc2 : c = 0 ∨ c = 1 ∨ c = 2 ∨ c = 3) by lia.
  f_equal.
  - apply (Z.div_unique _ 4 (a / 2)
      (2 * (a mod 2) + (if c =? 0 then 0 else 1))).
    + left. pose proof (Z.mod_pos_bound a 2 ltac:(lia)). destruct (c =? 0); lia.
    + pose proof (Z.div_mod a 2 ltac:(lia)). lia.
  - rewrite !odd_mod2. f_equal.
    replace ((2 * a + (if c =? 0 then 0 else 1)) / 2) with a.
    + reflexivity.
    + apply (Z.div_unique _ 2 a (if c =? 0 then 0 else 1)); [|lia].
      left. destruct (c =? 0); lia.
  - rewrite H2. rewrite !odd_mod2.
    replace ((2 * a + (if c =? 0 then 0 else 1)) mod 2)
      with (if c =? 0 then 0 else 1).
    2:{ symmetry. rewrite Z.add_comm, Z.mul_comm, Z.mod_add by lia.
        destruct (c =? 0); reflexivity. }
    replace ((2 * a + c / 2) mod 2) with (c / 2).
    2:{ symmetry. rewrite Z.add_comm, Z.mul_comm, Z.mod_add by lia.
        destruct Hc2 as [->|[->|[->| ->]]]; reflexivity. }
    replace (v mod 2) with (c mod 2).
    2:{ replace v with (c + 2 * a * 2) by lia. by rewrite Z.mod_add by lia. }
    destruct Hc2 as [->|[->|[->| ->]]]; reflexivity.
Qed.

Lemma rec_of_cell_shift n : ∀ p q,
  0 ≤ p → 0 < q →
  SpecFloat.iter_pos shr_1 n (rec_of (cell p q)) = rec_of (cell p (2 ^ Z.pos n * q)).
Proof.
  induction n as [n IH|n IH|]; intros p q Hp Hq; cbn [SpecFloat.iter_pos].
  - rewrite shr_1_rec_of, sh1_cell by (try apply cell_nonneg; lia).
    rewrite !IH by lia. f_equal. f_equal.
    rewrite Pos2Z.inj_xI, Z.pow_add_r, Z.pow_twice_r by lia.
    change (2 ^ 1) with 2. lia.
  - rewrite !IH by (try apply Z.mul_pos_pos; lia). f_equal. f_equal.
    rewrite (Pos2Z.inj_xO n), Z.pow_twice_r by lia. lia.
  - rewrite shr_1_rec_of, sh1_cell by (try apply cell_nonneg; lia).
    reflexivity.
Qed.

Lemma shr_cell p q e k :
  0 ≤ p → 0 < q →
  shr (rec_of (cell p q)) e k
  = (rec_of (cell p (2 ^ Z.max 0 k * q)), e + Z.max 0 k).
Proof.
  intros Hp Hq. destruct k as [|n|n]; cbn [shr].
  - change (Z.max 0 0) with 0. by rewrite Z.pow_0_r, Z.mul_1_l, Z.add_0_r.
  - rewrite rec_of_cell_shift by done.
    by replace (Z.max 0 (Z.pos n)) with (Z.pos n) by lia.
  - replace (Z.max 0 (Z.neg n)) with 0 by lia.
    by rewrite Z.pow_0_r, Z.mul_1_l, Z.add_0_r.
Qed.

(** *** Rounding to nearest, ties to even *)

Definition rne (v : Z) : Z :=
  v / 4 + (if (v mod 4 =? 3) || ((v mod 4 =? 2) && Z.odd (v / 4)) then 1 else 0).

Lemma rne_bounds v : v / 4 ≤ rne v ≤ v / 4 + 1.
Proof.
  unfold rne. destruct ((v mod 4 =? 3) || ((v mod 4 =? 2) && Z.odd (v / 4))); lia.
Qed.

Lemma rne_mono v w : v ≤ w → rne v ≤ rne w.
Proof.
  intros Hvw. unfold rne.
  pose proof (Z.div_mod v 4 ltac:(lia)) as Ev.
  pose proof (Z.mod_pos_bound v 4 ltac:(lia)) as Bv.
  pose proof (Z.div_mod w 4 ltac:(lia)) as Ew.
  pose proof (Z.mod_pos_bound w 4 ltac:(lia)) as Bw.
  set (a := v / 4) in *. set (c := v mod 4) in *.
  set (b := w / 4) in *. set (d := w mod 4) in *.
  assert (Hab : a ≤ b) by lia.
  destruct (Z.eq_dec a b) as [<-|Hne].
  - destruct (Z.eqb_spec c 3), (Z.eqb_spec c 2), (Z.eqb_spec d 3), (Z.eqb_spec d 2),
      (Z.odd a); simpl; lia.
  - destruct ((c =? 3) || ((c =? 2) && Z.odd a)),
      ((d =? 3) || ((d =? 2) && Z.odd b)); lia.
Qed.

Lemma round_rec_of v :
  0 ≤ v →
  round_nearest_even (shr_m (rec_of v)) (loc_of_shr_record (rec_of v)) = rne v.
Proof.
  intros Hv. unfold rne, rec_of. cbn [shr_m loc_of_shr_record].
  pose proof (Z.div_mod v 4 ltac:(lia)) as E4.
  pose proof (Z.mod_pos_bound v 4 ltac:(lia)) as B4.
  set (a := v / 4) in *. set (c := v mod 4) in *.
  assert (H2 : v / 2 = 2 * a + c / 2).
  { replace v with (c + 2 * a * 2) by lia. rewrite Z.div_add by lia. lia. }
  assert (Ho2 : Z.odd (v / 2) = Z.odd (c / 2)).
  { rewrite H2, Z.add_comm, Z.odd_add_mul_2. reflexivity. }
  assert (Ho : Z.odd v = Z.odd c).
  { rewrite E4. replace (4 * a + c) with (c + 2 * (2 * a)) by lia.
    by rewrite Z.odd_add_mul_2. }
  rewrite Ho2, Ho.
  assert (Hc : c = 0 ∨ c = 1 ∨ c = 2 ∨ c = 3) by lia.
  destruct Hc as [->|[->|[->| ->]]].
  - change (Z.odd (0 / 2)) with false. cbn. lia.
  - change (Z.odd (1 / 2)) with false. cbn. lia.
  - change (Z.odd (2 / 2)) with true. cbn.
    rewrite <- Z.negb_odd. destruct (Z.odd a); simpl; lia.
  - change (Z.odd (3 / 2)) with true. cbn. reflexivity.
Qed.

(** *** [binary_round_aux], as a function of the value rounded

    [rnd s p q e] is the [float64] that [binary_round_aux] returns for the
    number [p / q * 2 ^ e] with sign [s]. *)

Definition rnd (s : bool) (p q e : Z) : spec_float :=
  let n := Z.max 0 (fexp (digits (p / q) + e) - e) in
  let M := rne (cell p (2 ^ n * q)) in
  let e1 := e + n in
  let n2 := Z.max 0 (fexp (digits M + e1) - e1) in
  match M / 2 ^ n2 with
  | Z0 => S754_zero s
  | Z.pos m => if e1 + n2 <=? 971 then S754_finite s m (e1 + n2) else S754_infinity s
  | Z.neg _ => S754_nan
  end.

Lemma shr_record_of_loc_m m l : shr_m (shr_record_of_loc m l) = m.
Proof. by destruct l as [|[]]. Qed.

Lemma exact_rec_of M : shr_record_of_loc M loc_Exact = rec_of (cell M 1).
Proof.
  unfold cell. rewrite Z.div_1_r, Z.mod_1_r. cbn [Z.eqb].
  unfold rec_of. cbn [shr_record_of_loc]. f_equal.
  - replace (2 * (2 * M) + 0) with (M * 4) by lia. by rewrite Z.div_mul.
  - replace (2 * (2 * M) + 0) with (2 * M * 2) by lia.
    rewrite Z.div_mul by lia. by rewrite Z.odd_mul.
  - replace (2 * (2 * M) + 0) with (2 * (2 * M)) by lia. by rewrite Z.odd_mul.
Qed.

Lemma binary_round_aux_rnd s m e l p q :
  0 ≤ p → 0 < q →
  shr_record_of_loc m l = rec_of (cell p q) →
  binary_round_aux F64.prec F64.emax s m e l = rnd s p q e.
Proof.
  intros Hp Hq Hrec.
  assert (Hm : m = p / q).
  { rewrite <- (shr_record_of_loc_m m l), Hrec. cbn [rec_of shr_m].
    by apply cell_quarter. }
  unfold binary_round_aux, shr_fexp, rnd. rewrite !fexp_spec.
  rewrite Hrec, shr_cell by done. fold (digits m). rewrite <- Hm.
  set (n := Z.max 0 (fexp (digits m + e) - e)).
  assert (Hn : 0 < 2 ^ n * q).
  { apply Z.mul_pos_pos; [|done]. apply Z.pow_pos_nonneg; lia. }
  rewrite round_rec_of by (by apply cell_nonneg).
  set (M := rne (cell p (2 ^ n * q))).
  assert (HM : 0 ≤ M).
  { pose proof (rne_bounds (cell p (2 ^ n * q))).
    pose proof (cell_quarter p (2 ^ n * q) Hp Hn).
    assert (0 ≤ p / (2 ^ n * q)) by (apply Z.div_pos; lia).
    unfold M. lia. }
  rewrite !fexp_spec, exact_rec_of, shr_cell by lia. fold (digits M).
  cbn [rec_of shr_m]. rewrite cell_quarter, Z.mul_1_r; [reflexivity|done|].
  rewrite Z.mul_1_r. apply Z.pow_pos_nonneg; lia.
Qed.

(** The two shifts, the mantissa between them, and the mantissa and the
    exponent of the result. *)
Definition shift1 (p q e : Z) : Z := Z.max 0 (fexp (digits (p / q) + e) - e).
Definition mant1 (p q e : Z) : Z := rne (cell p (2 ^ shift1 p q e * q)).
Definition shift2 (p q e : Z) : Z :=
  Z.max 0 (fexp (digits (mant1 p q e) + (e + shift1 p q e)) - (e + shift1 p q e)).
Definition rman (p q e : Z) : Z := mant1 p q e / 2 ^ shift2 p q e.
Definition rexp (p q e : Z) : Z := e + shift1 p q e + shift2 p q e.

Lemma rnd_eq s p q e :
  rnd s p q e
  = match rman p q e with
    | Z0 => S754_zero s
    | Z.pos m =>
        if rexp p q e <=? 971 then S754_finite s m (rexp p q e) else S754_infinity s
    | Z.neg _ => S754_nan
    end.
Proof. unfold rnd, rman, rexp, shift2, mant1, shift1. reflexivity. Qed.

(** The number handed to the rounding has all the digits the format can
    hold: the first shift does not go left. *)
Definition enough (p q e : Z) : Prop := e ≤ fexp (digits (p / q) + e).

Section Stages.

Variables p q e : Z.
Hypothesis Hp : 0 ≤ p.
Hypothesis Hq : 0 < q.
Hypothesis Hen : enough p q e.

Lemma shift1_eq : shift1 p q e = fexp (digits (p / q) + e) - e.
Proof. unfold shift1, enough in *. lia. Qed.

Lemma shift1_nonneg : 0 ≤ shift1 p q e.
Proof. unfold shift1. lia. Qed.

Lemma exp1_ge_emin : emin ≤ e + shift1 p q e.
Proof. rewrite shift1_eq. unfold fexp. lia. Qed.

Lemma pow_shift1_pos : 0 < 2 ^ shift1 p q e * q.
Proof.
  apply Z.mul_pos_pos; [|done]. apply Z.pow_pos_nonneg; [lia|apply shift1_nonneg].
Qed.

(** The mantissa after the first shift. *)
Definition trunc1 : Z := p / q / 2 ^ shift1 p q e.

Lemma trunc1_eq : p / (2 ^ shift1 p q e * q) = trunc1.
Proof.
  unfold trunc1. rewrite Z.div_div; [by rewrite Z.mul_comm|lia|].
  apply Z.pow_pos_nonneg; [lia|apply shift1_nonneg].
Qed.

Lemma trunc1_nonneg : 0 ≤ trunc1.
Proof.
  unfold trunc1. apply Z.div_pos; [apply Z.div_pos; lia|].
  apply Z.pow_pos_nonneg; [lia|apply shift1_nonneg].
Qed.

Lemma trunc1_digits : digits trunc1 = Z.max 0 (digits (p / q) - shift1 p q e).
Proof.
  unfold trunc1. apply digits_shift; [apply Z.div_pos; lia|apply shift1_nonneg].
Qed.

Lemma trunc1_digits_le : digits trunc1 ≤ 53.
Proof. rewrite trunc1_digits, shift1_eq. unfold fexp. lia. Qed.

Lemma trunc1_lt : trunc1 < 2 ^ 53.
Proof.
  pose proof trunc1_nonneg. pose proof trunc1_digits_le.
  destruct (Z.eq_dec trunc1 0) as [->|Hne]; [done|].
  destruct (digits_bounds trunc1) as [Hb _]; [lia|].
  assert (2 ^ digits trunc1 ≤ 2 ^ 53) by (apply Z.pow_le_mono_r; lia). lia.
Qed.

(** Above the smallest exponent the mantissa is normal. *)
Lemma trunc1_normal : emin < e + shift1 p q e → 2 ^ 52 ≤ trunc1.
Proof.
  intros Hgt.
  assert (Hd : digits trunc1 = 53).
  { rewrite trunc1_digits. rewrite shift1_eq in *. unfold fexp in *. lia. }
  destruct (Z.eq_dec trunc1 0) as [H0|Hne]; [by rewrite H0 in Hd|].
  destruct (digits_bounds trunc1) as [Hb _]; [pose proof trunc1_nonneg; lia|].
  rewrite Hd in Hb. exact (proj1 Hb).
Qed.

Lemma mant1_bounds : trunc1 ≤ mant1 p q e ≤ trunc1 + 1.
Proof.
  unfold mant1.
  pose proof (rne_bounds (cell p (2 ^ shift1 p q e * q))) as H.
  by rewrite cell_quarter, trunc1_eq in H by (try apply pow_shift1_pos; lia).
Qed.

Lemma mant1_range : 0 ≤ mant1 p q e ≤ 2 ^ 53.
Proof. pose proof mant1_bounds. pose proof trunc1_nonneg. pose proof trunc1_lt. lia. Qed.

Lemma mant1_digits : digits (mant1 p q e) ≤ 54.
Proof.
  apply digits_lt_pow; [lia|]. pose proof mant1_range.
  assert (2 ^ 53 < 2 ^ 54) by (apply Z.pow_lt_mono_r; lia). lia.
Qed.

Lemma shift2_eq : shift2 p q e = Z.max 0 (digits (mant1 p q e) - 53).
Proof. unfold shift2. pose proof exp1_ge_emin. unfold fexp. lia. Qed.

Lemma shift2_cases :
  (shift2 p q e = 0 ∧ digits (mant1 p q e) ≤ 53 ∧ rman p q e = mant1 p q e)
  ∨ (shift2 p q e = 1 ∧ mant1 p q e = 2 ^ 53 ∧ rman p q e = 2 ^ 52).
Proof.
  pose proof mant1_digits as Hd. pose proof mant1_range as Hr.
  unfold rman. rewrite shift2_eq.
  destruct (Z.le_gt_cases (digits (mant1 p q e)) 53) as [Hle|Hgt].
  - left. replace (Z.max 0 (digits (mant1 p q e) - 53)) with 0 by lia.
    by rewrite Z.pow_0_r, Z.div_1_r.
  - right. replace (Z.max 0 (digits (mant1 p q e) - 53)) with 1 by lia.
    assert (HM : mant1 p q e = 2 ^ 53).
    { destruct (Z.eq_dec (mant1 p q e) (2 ^ 53)) as [|Hne]; [done|].
      assert (digits (mant1 p q e) ≤ 53); [|lia].
      apply digits_lt_pow; lia. }
    rewrite HM. done.
Qed.

Lemma rman_nonneg : 0 ≤ rman p q e.
Proof.
  pose proof mant1_range. destruct shift2_cases as [(_ & _ & ->)|(_ & _ & ->)]; lia.
Qed.

Lemma rman_lt : rman p q e < 2 ^ 53.
Proof.
  destruct shift2_cases as [(_ & Hd & ->)|(_ & _ & ->)]; [|lia].
  pose proof mant1_range.
  destruct (Z.eq_dec (mant1 p q e) 0) as [->|Hne]; [done|].
  destruct (digits_bounds (mant1 p q e)) as [Hb _]; [lia|].
  assert (2 ^ digits (mant1 p q e) ≤ 2 ^ 53) by (apply Z.pow_le_mono_r; lia). lia.
Qed.

Lemma rman_normal : emin < e + shift1 p q e → 2 ^ 52 ≤ rman p q e.
Proof.
  intros H%trunc1_normal. pose proof mant1_bounds.
  destruct shift2_cases as [(_ & _ & ->)|(_ & _ & ->)]; lia.
Qed.

Lemma rexp_ge_emin : emin ≤ rexp p q e.
Proof.
  unfold rexp. pose proof exp1_ge_emin.
  destruct shift2_cases as [(-> & _)|(-> & _)]; lia.
Qed.

End Stages.

(** *** The order of two results *)

Definition below (m1 e1 m2 e2 : Z) : Prop :=
  m1 = 0 ∨ (0 < m1 ∧ 0 < m2 ∧ (e1 < e2 ∨ (e1 = e2 ∧ m1 ≤ m2))).

Lemma below_SFleb p1 q1 e1 p2 q2 e2 :
  0 ≤ rman p2 q2 e2 →
  below (rman p1 q1 e1) (rexp p1 q1 e1) (rman p2 q2 e2) (rexp p2 q2 e2) →
  SFleb (rnd false p1 q1 e1) (rnd false p2 q2 e2) = true.
Proof.
  intros H2 Hb. rewrite !rnd_eq. unfold below in Hb.
  destruct (rman p1 q1 e1) as [|m1|m1], (rman p2 q2 e2) as [|m2|m2]; try lia.
  - done.
  - by destruct (_ <=? _).
  - destruct Hb as [|(_ & _ & Hb)]; [done|].
    destruct (Z.leb_spec (rexp p1 q1 e1) 971), (Z.leb_spec (rexp p2 q2 e2) 971);
      try lia; try done.
    unfold SFleb, SFcompare.
    destruct Hb as [Hlt|[-> Hle]].
    + by rewrite (proj2 (Z.compare_lt_iff _ _) Hlt).
    + rewrite Z.compare_refl.
      destruct (Pos.compare_cont Eq m1 m2) eqn:Hc; done.
Qed.

Lemma cell_scale p q c : 0 < q → 0 < c → cell (p * c) (q * c) = cell p q.
Proof.
  intros Hq Hc. unfold cell.
  replace (2 * (p * c)) with (2 * p * c) by lia.
  rewrite Z.div_mul_cancel_r, Z.mul_mod_distr_r by lia.
  destruct (Z.eqb_spec ((2 * p) mod q) 0) as [->|Hne]; [done|].
  destruct (Z.eqb_spec ((2 * p) mod q * c) 0) as [H0|]; [|done].
  apply Z.mul_eq_0 in H0. lia.
Qed.

Lemma quot_le p1 q1 p2 q2 :
  0 ≤ p1 → 0 < q1 → 0 < q2 → p1 * q2 ≤ p2 * q1 → p1 / q1 ≤ p2 / q2.
Proof.
  intros Hp1 Hq1 Hq2 Hle. apply Z.div_le_lower_bound; [done|].
  pose proof (Z.mul_div_le p1 q1 Hq1) as Hd.
  apply (Z.mul_le_mono_pos_r _ _ q1); [done|].
  etrans; [|exact Hle].
  replace (q2 * (p1 / q1) * q1) with (q1 * (p1 / q1) * q2) by lia.
  apply Z.mul_le_mono_nonneg_r; lia.
Qed.

Lemma digits_pow n : 0 ≤ n → digits (2 ^ n) = n + 1.
Proof.
  intros Hn. apply digits_unique; [lia|].
  replace (n + 1 - 1) with n by lia. split; [lia|].
  apply Z.pow_lt_mono_r; lia.
Qed.

(** *** Two numbers with the same exponent *)

Section Monotone.

Variables p1 q1 p2 q2 e : Z.
Hypothesis Hp1 : 0 ≤ p1.
Hypothesis Hq1 : 0 < q1.
Hypothesis Hp2 : 0 ≤ p2.
Hypothesis Hq2 : 0 < q2.
Hypothesis Hen1 : enough p1 q1 e.
Hypothesis Hen2 : enough p2 q2 e.
Hypothesis Hle : p1 * q2 ≤ p2 * q1.

Lemma shift1_mono : shift1 p1 q1 e ≤ shift1 p2 q2 e.
Proof.
  rewrite !shift1_eq by done.
  assert (fexp (digits (p1 / q1) + e) ≤ fexp (digits (p2 / q2) + e)); [|lia].
  apply fexp_mono.
  assert (digits (p1 / q1) ≤ digits (p2 / q2)); [|lia].
  apply digits_mono; [apply Z.div_pos; lia|by apply quot_le].
Qed.

Lemma mant1_mono :
  shift1 p1 q1 e = shift1 p2 q2 e → mant1 p1 q1 e ≤ mant1 p2 q2 e.
Proof.
  intros Hs. unfold mant1. rewrite Hs.
  assert (Hpow : 0 < 2 ^ shift1 p2 q2 e).
  { apply Z.pow_pos_nonneg; [lia|by apply shift1_nonneg]. }
  apply rne_mono, cell_mono; try done; try (apply Z.mul_pos_pos; lia).
  replace (p1 * (2 ^ shift1 p2 q2 e * q2))
    with (p1 * q2 * 2 ^ shift1 p2 q2 e) by lia.
  replace (p2 * (2 ^ shift1 p2 q2 e * q1))
    with (p2 * q1 * 2 ^ shift1 p2 q2 e) by lia.
  apply Z.mul_le_mono_nonneg_r; lia.
Qed.

(** The results are in the order of the numbers. *)
Lemma rnd_mono_same :
  below (rman p1 q1 e) (rexp p1 q1 e) (rman p2 q2 e) (rexp p2 q2 e).
Proof.
  pose proof shift1_mono as Hs.
  pose proof (mant1_range p1 q1 e Hp1 Hq1 Hen1) as Hr1.
  pose proof (mant1_range p2 q2 e Hp2 Hq2 Hen2) as Hr2.
  pose proof (exp1_ge_emin p1 q1 e Hen1) as He1.
  assert (H54 : ∀ m, m = 2 ^ 53 → digits m ≤ 53 → False).
  { intros m -> Hd. rewrite (digits_pow 53) in Hd; lia. }
  unfold below, rexp.
  destruct (Z.eq_dec (shift1 p1 q1 e) (shift1 p2 q2 e)) as [Heq|Hne].
  - pose proof (mant1_mono Heq) as Hm. rewrite Heq.
    destruct (shift2_cases p1 q1 e Hp1 Hq1 Hen1) as [(-> & Hd1 & ->)|(-> & HM1 & ->)],
      (shift2_cases p2 q2 e Hp2 Hq2 Hen2) as [(-> & Hd2 & ->)|(-> & HM2 & ->)].
    + lia.
    + lia.
    + exfalso. apply (H54 (mant1 p2 q2 e)); [lia|done].
    + lia.
  - assert (Hlt : shift1 p1 q1 e < shift1 p2 q2 e) by lia.
    pose proof (trunc1_normal p2 q2 e Hp2 Hq2 Hen2 ltac:(lia)) as Hn2.
    pose proof (mant1_bounds p2 q2 e Hp2 Hq2) as Hb2.
    destruct (shift2_cases p1 q1 e Hp1 Hq1 Hen1) as [(-> & Hd1 & ->)|(-> & HM1 & ->)],
      (shift2_cases p2 q2 e Hp2 Hq2 Hen2) as [(-> & Hd2 & ->)|(-> & HM2 & ->)]; lia.
Qed.

End Monotone.

(** *** The same number with two exponents *)

Section Align.

Variables p q e k : Z.
Hypothesis Hp : 0 ≤ p.
Hypothesis Hq : 0 < q.
Hypothesis Hen : enough p q e.
Hypothesis Hk : 0 ≤ k.

Lemma fexp_shift :
  fexp (digits (p * 2 ^ k / q) + (e - k)) = fexp (digits (p / q) + e).
Proof.
  assert (Hpow : 0 < 2 ^ k) by (apply Z.pow_pos_nonneg; lia).
  destruct (Z.eq_dec (p / q) 0) as [H0|Hne].
  - unfold enough in Hen. rewrite H0, digits_0 in *.
    assert (He : e ≤ emin) by (unfold fexp in Hen; lia).
    assert (Hlt : p < q).
    { apply Z.div_small_iff in H0; lia. }
    assert (Hd : digits (p * 2 ^ k / q) ≤ k).
    { apply digits_lt_pow; [done|]. split; [apply Z.div_pos; lia|].
      apply Z.div_lt_upper_bound; [done|]. nia. }
    unfold fexp. lia.
  - assert (Hpos : 0 < p / q).
    { assert (0 ≤ p / q) by (apply Z.div_pos; lia). lia. }
    destruct (digits_bounds (p / q) Hpos) as [[Hlo Hhi] Hd].
    assert (digits (p * 2 ^ k / q) = digits (p / q) + k) as ->.
    { apply digits_unique; [lia|].
      replace (digits (p / q) + k - 1) with (digits (p / q) - 1 + k) by lia.
      rewrite !Z.pow_add_r by lia. split.
      - apply Z.div_le_lower_bound; [done|].
        pose proof (Z.mul_div_le p q Hq).
        assert (q * 2 ^ (digits (p / q) - 1) ≤ p) by nia.
        replace (q * (2 ^ (digits (p / q) - 1) * 2 ^ k))
          with (q * 2 ^ (digits (p / q) - 1) * 2 ^ k) by lia.
        apply Z.mul_le_mono_nonneg_r; lia.
      - apply Z.div_lt_upper_bound; [done|].
        assert (p < q * 2 ^ digits (p / q)).
        { pose proof (Z.mul_succ_div_gt p q Hq). nia. }
        replace (q * (2 ^ digits (p / q) * 2 ^ k))
          with (q * 2 ^ digits (p / q) * 2 ^ k) by lia.
        apply Z.mul_lt_mono_pos_r; lia. }
    f_equal. lia.
Qed.

Lemma enough_shift : enough (p * 2 ^ k) q (e - k).
Proof. unfold enough in *. rewrite fexp_shift. lia. Qed.

Lemma shift1_shift : shift1 (p * 2 ^ k) q (e - k) = shift1 p q e + k.
Proof.
  rewrite shift1_eq by apply enough_shift. rewrite shift1_eq by done.
  rewrite fexp_shift. lia.
Qed.

Lemma mant1_shift : mant1 (p * 2 ^ k) q (e - k) = mant1 p q e.
Proof.
  unfold mant1. rewrite shift1_shift.
  rewrite Z.pow_add_r by (by try apply shift1_nonneg).
  replace (2 ^ shift1 p q e * 2 ^ k * q) with (2 ^ shift1 p q e * q * 2 ^ k) by lia.
  rewrite cell_scale; [done|by apply pow_shift1_pos|].
  apply Z.pow_pos_nonneg; lia.
Qed.

(** The result does not depend on how the number is written. *)
Lemma rnd_shift s : rnd s (p * 2 ^ k) q (e - k) = rnd s p q e.
Proof.
  rewrite !rnd_eq. unfold rman, rexp, shift2.
  rewrite mant1_shift, shift1_shift.
  by replace (e - k + (shift1 p q e + k)) with (e + shift1 p q e) by lia.
Qed.

End Align.

(** *** Rounding is monotone *)

(** Of two numbers [p1 / q1 * 2 ^ e1 <= p2 / q2 * 2 ^ e2], compared
    after scaling by [2 ^ (- e0)], the first is rounded to the smaller
    float. *)
Lemma rnd_mono p1 q1 e1 p2 q2 e2 e0 :
  0 ≤ p1 → 0 < q1 → 0 ≤ p2 → 0 < q2 →
  enough p1 q1 e1 → enough p2 q2 e2 →
  e0 ≤ e1 → e0 ≤ e2 →
  p1 * 2 ^ (e1 - e0) * q2 ≤ p2 * 2 ^ (e2 - e0) * q1 →
  SFleb (rnd false p1 q1 e1) (rnd false p2 q2 e2) = true.
Proof.
  intros Hp1 Hq1 Hp2 Hq2 Hen1 Hen2 H1 H2 Hle.
  assert (Hpow : ∀ k, 0 ≤ k → 0 < 2 ^ k) by (intros; apply Z.pow_pos_nonneg; lia).
  rewrite <- (rnd_shift p1 q1 e1 (e1 - e0)), <- (rnd_shift p2 q2 e2 (e2 - e0))
    by (done || lia).
  replace (e1 - (e1 - e0)) with e0 by lia.
  replace (e2 - (e2 - e0)) with e0 by lia.
  pose proof (enough_shift p1 q1 e1 (e1 - e0) Hp1 Hq1 Hen1 ltac:(lia)) as Ha.
  pose proof (enough_shift p2 q2 e2 (e2 - e0) Hp2 Hq2 Hen2 ltac:(lia)) as Hb.
  replace (e1 - (e1 - e0)) with e0 in Ha by lia.
  replace (e2 - (e2 - e0)) with e0 in Hb by lia.
  pose proof (Hpow (e1 - e0) ltac:(lia)). pose proof (Hpow (e2 - e0) ltac:(lia)).
  apply below_SFleb.
  - apply rman_nonneg; [nia|done|done].
  - apply rnd_mono_same; try done; nia.
Qed.

(** *** Canonical floats *)

Definition canonical (m e : Z) : Prop :=
  0 < m < 2 ^ 53 ∧ emin ≤ e ∧ (e = emin ∨ 2 ^ 52 ≤ m).

Definition nonneg (f : spec_float) : Prop :=
  match f with
  | S754_zero false | S754_infinity false => True
  | S754_finite false m e => canonical (Z.pos m) e
  | _ => False
  end.

Definition negative (f : spec_float) : Prop :=
  match f with
  | S754_zero true | S754_infinity true | S754_finite true _ _ => True
  | _ => False
  end.

Lemma canonical_enough m e : canonical m e → enough m 1 e.
Proof.
  unfold enough. rewrite Z.div_1_r. intros ([Hm Hlt] & He & [->|Hn]).
  - unfold fexp. lia.
  - assert (53 ≤ digits m) by (apply digits_ge_pow; lia). unfold fexp. lia.
Qed.

Lemma mant1_nonneg p q e : 0 ≤ p → 0 < q → 0 ≤ mant1 p q e.
Proof.
  intros Hp Hq. unfold mant1.
  assert (Hn : 0 < 2 ^ shift1 p q e * q).
  { apply Z.mul_pos_pos; [|done]. apply Z.pow_pos_nonneg; unfold shift1; lia. }
  pose proof (rne_bounds (cell p (2 ^ shift1 p q e * q))) as H.
  rewrite cell_quarter in H by done.
  assert (0 ≤ p / (2 ^ shift1 p q e * q)) by (apply Z.div_pos; lia). lia.
Qed.

Lemma rman_pos p q e : 0 ≤ p → 0 < q → 0 ≤ rman p q e.
Proof.
  intros Hp Hq. unfold rman. apply Z.div_pos; [by apply mant1_nonneg|].
  apply Z.pow_pos_nonneg; unfold shift2; lia.
Qed.

Lemma rexp_le p q e :
  0 ≤ p → 0 < q → enough p q e → rexp p q e ≤ fexp (digits (p / q) + e) + 1.
Proof.
  intros Hp Hq Hen. unfold rexp. rewrite (shift1_eq p q e Hen).
  destruct (shift2_cases p q e Hp Hq Hen) as [(-> & _)|(-> & _)]; lia.
Qed.

Lemma rnd_canonical p q e :
  0 ≤ p → 0 < q → enough p q e → 0 < rman p q e →
  canonical (rman p q e) (rexp p q e).
Proof.
  intros Hp Hq Hen Hpos. split; [|split].
  - split; [done|by apply rman_lt].
  - by apply rexp_ge_emin.
  - destruct (Z.eq_dec (e + shift1 p q e) emin) as [Heq|Hne].
    + unfold rexp.
      destruct (shift2_cases p q e Hp Hq Hen) as [(-> & _)|(_ & _ & ->)]; lia.
    + right. apply rman_normal; try done.
      pose proof (exp1_ge_emin p q e Hen). lia.
Qed.

Lemma rnd_nonneg p q e : 0 ≤ p → 0 < q → enough p q e → nonneg (rnd false p q e).
Proof.
  intros Hp Hq Hen. rewrite rnd_eq.
  pose proof (rman_pos p q e Hp Hq) as H0.
  pose proof (rnd_canonical p q e Hp Hq Hen) as Hc.
  destruct (rman p q e) as [|m|m]; [done| |lia].
  destruct (_ <=? _); [|done]. apply Hc. lia.
Qed.

Lemma rnd_negative p q e : 0 ≤ p → 0 < q → negative (rnd true p q e).
Proof.
  intros Hp Hq. rewrite rnd_eq. pose proof (rman_pos p q e Hp Hq) as H0.
  destruct (rman p q e) as [|m|m]; [done| |lia]. by destruct (_ <=? _).
Qed.

Lemma rnd_finite p q e :
  0 ≤ p → 0 < q → enough p q e → digits (p / q) + e ≤ 1023 →
  rnd false p q e ≠ S754_infinity false.
Proof.
  intros Hp Hq Hen Hd. rewrite rnd_eq.
  pose proof (rexp_le p q e Hp Hq Hen) as Hr.
  destruct (rman p q e); try done.
  destruct (Z.leb_spec (rexp p q e) 971); [done|]. unfold fexp, emin in Hr. lia.
Qed.

Lemma zero_le f : nonneg f → SFleb (S754_zero false) f = true.
Proof. by destruct f as [[]|[]| |[] ? ?]. Qed.

Lemma le_infinity f : nonneg f → SFleb f (S754_infinity false) = true.
Proof. by destruct f as [[]|[]| |[] ? ?]. Qed.

(** The order of two canonical floats is the order of the numbers they
    stand for. *)
Lemma SFleb_finite m1 e1 m2 e2 e0 :
  canonical (Z.pos m1) e1 → canonical (Z.pos m2) e2 → e0 ≤ e1 → e0 ≤ e2 →
  SFleb (S754_finite false m1 e1) (S754_finite false m2 e2) = true →
  Z.pos m1 * 2 ^ (e1 - e0) ≤ Z.pos m2 * 2 ^ (e2 - e0).
Proof.
  intros (Hm1 & He1 & Hn1) (Hm2 & He2 & Hn2) H1 H2. unfold SFleb, SFcompare.
  assert (HA : 0 < 2 ^ (e1 - e0)) by (apply Z.pow_pos_nonneg; lia).
  destruct (Z.compare_spec e1 e2) as [->|Hlt|Hgt]; [| |done].
  - intros Hc. apply Z.mul_le_mono_nonneg_r; [lia|].
    change (Pos.compare_cont Eq m1 m2) with (Z.pos m1 ?= Z.pos m2) in Hc.
    destruct (Z.compare_spec (Z.pos m1) (Z.pos m2)); try done; lia.
  - intros _.
    replace (e2 - e0) with (e1 - e0 + (e2 - e1)) by lia.
    rewrite Z.pow_add_r by lia.
    assert (2 ^ 1 ≤ 2 ^ (e2 - e1)) by (apply Z.pow_le_mono_r; lia).
    assert (2 ^ 52 ≤ Z.pos m2) by lia.
    change (2 ^ 1) with 2 in *.
    assert (Hx : Z.pos m1 ≤ Z.pos m2 * 2 ^ (e2 - e1)).
    { assert (2 ^ 52 * 2 ≤ Z.pos m2 * 2 ^ (e2 - e1))
        by (apply Z.mul_le_mono_nonneg; lia).
      lia. }
    rewrite (Z.mul_comm (2 ^ (e1 - e0))), Z.mul_assoc.
    apply Z.mul_le_mono_nonneg_r; lia.
Qed.

(** The order on floats is transitive. *)
Lemma SFleb_trans a b c :
  SFleb a b = true → SFleb b c = true → SFleb a c = true.
Proof.
  unfold SFleb, SFcompare.
  destruct a as [[]|[]| |[] ma ea], b as [[]|[]| |[] mb eb],
    c as [[]|[]| |[] mc ec]; try done.
  - destruct (Z.compare_spec ea eb), (Z.compare_spec eb ec),
      (Z.compare_spec ea ec); try done; try lia; subst.
    change (Pos.compare_cont Eq ?x ?y) with (Pos.compare x y).
    destruct (Pos.compare_spec ma mb), (Pos.compare_spec mb mc),
      (Pos.compare_spec ma mc); simpl; try done; lia.
  - destruct (Z.compare_spec ea eb), (Z.compare_spec eb ec),
      (Z.compare_spec ea ec); try done; try lia; subst.
    change (Pos.compare_cont Eq ?x ?y) with (Pos.compare x y).
    destruct (Pos.compare_spec ma mb), (Pos.compare_spec mb mc),
      (Pos.compare_spec ma mc); simpl; try done; lia.
Qed.

(** *** The operations of the program, as roundings *)

Lemma cell_half p q : 0 < q → cell p q / 2 = 2 * p / q.
Proof.
  intros Hq. unfold cell. symmetry.
  apply (Z.div_unique _ 2 _ (if (2 * p) mod q =? 0 then 0 else 1));
    [destruct (_ =? _); lia|lia].
Qed.

Lemma cell_odd p q : Z.odd (cell p q) = negb ((2 * p) mod q =? 0).
Proof.
  unfold cell. rewrite Z.add_comm, Z.odd_add_mul_2. by destruct (_ =? _).
Qed.

(** The location of a quotient, from its remainder. *)
Lemma new_location_cell p q :
  0 ≤ p → 0 < q →
  shr_record_of_loc (p / q) (new_location q (p mod q)) = rec_of (cell p q).
Proof.
  intros Hp Hq. unfold rec_of.
  rewrite cell_quarter, cell_half, cell_odd by done.
  pose proof (Z.div_mod p q ltac:(lia)) as E.
  pose proof (Z.mod_pos_bound p q Hq) as B.
  set (b := p / q) in *. set (r := p mod q) in *.
  assert (Hlo : 2 * r < q → 2 * p / q = 2 * b ∧ (2 * p) mod q = 2 * r).
  { intros Hlt. split; [symmetry; apply (Z.div_unique _ _ _ (2 * r))
                       |symmetry; apply (Z.mod_unique _ _ (2 * b))]; lia. }
  assert (Hhi : q ≤ 2 * r → 2 * p / q = 2 * b + 1 ∧ (2 * p) mod q = 2 * r - q).
  { intros Hge. split; [symmetry; apply (Z.div_unique _ _ _ (2 * r - q))
                       |symmetry; apply (Z.mod_unique _ _ (2 * b + 1))]; lia. }
  assert (Hev : Z.odd (2 * b) = false) by (rewrite Z.odd_mul; done).
  assert (Hod : Z.odd (2 * b + 1) = true).
  { rewrite Z.add_comm, Z.odd_add_mul_2. done. }
  assert (Hz : r = 0 → ∀ l,
    shr_record_of_loc b (if r =? 0 then loc_Exact else l)
    = {| shr_m := b; shr_r := Z.odd (2 * p / q);
         shr_s := negb ((2 * p) mod q =? 0) |}).
  { intros Hr l. destruct (Hlo ltac:(lia)) as [-> ->]. by rewrite Hev, Hr. }
  unfold new_location, new_location_even, new_location_odd.
  destruct (Z.even q) eqn:Hq2; cbv beta;
    (destruct (Z.eq_dec r 0) as [Hr|Hr]; [by apply Hz|]);
    destruct (Z.eqb_spec r 0) as [|_]; try done.
  - destruct (Z.compare_spec (2 * r) q) as [Heq|Hlt|Hgt].
    + destruct (Hhi ltac:(lia)) as [-> ->]. rewrite Hod.
      by replace (2 * r - q) with 0 by lia.
    + destruct (Hlo Hlt) as [-> ->]. rewrite Hev.
      by destruct (Z.eqb_spec (2 * r) 0); [lia|].
    + destruct (Hhi ltac:(lia)) as [-> ->]. rewrite Hod.
      by destruct (Z.eqb_spec (2 * r - q) 0); [lia|].
  - assert (Hne : 2 * r ≠ q).
    { intros Hq'. rewrite <- Hq' in Hq2. by rewrite Z.even_mul in Hq2. }
    destruct (Z.compare_spec (2 * r + 1) q) as [Heq|Hlt|Hgt].
    + destruct (Hlo ltac:(lia)) as [-> ->]. rewrite Hev.
      by destruct (Z.eqb_spec (2 * r) 0); [lia|].
    + destruct (Hlo ltac:(lia)) as [-> ->]. rewrite Hev.
      by destruct (Z.eqb_spec (2 * r) 0); [lia|].
    + destruct (Hhi ltac:(lia)) as [-> ->]. rewrite Hod.
      by destruct (Z.eqb_spec (2 * r - q) 0); [lia|].
Qed.

Lemma mul_rnd s1 m1 e1 s2 m2 e2 :
  F64.mul (S754_finite s1 m1 e1) (S754_finite s2 m2 e2)
  = rnd (xorb s1 s2) (Z.pos m1 * Z.pos m2) 1 (e1 + e2).
Proof.
  unfold F64.mul, SFmul. apply binary_round_aux_rnd; [lia|lia|].
  rewrite Pos2Z.inj_mul. apply exact_rec_of.
Qed.

Lemma mul_enough m1 e1 m2 e2 :
  canonical m1 e1 → canonical m2 e2 → enough (m1 * m2) 1 (e1 + e2).
Proof.
  intros (Hm1 & He1 & Hn1) (Hm2 & He2 & Hn2). unfold enough.
  rewrite Z.div_1_r.
  destruct (Z.le_gt_cases (e1 + e2) emin) as [|Hgt]; [unfold fexp; lia|].
  assert (2 ^ 52 ≤ m1 * m2).
  { destruct Hn1 as [->|Hn1]; [destruct Hn2 as [->|Hn2]; [unfold emin in *; lia|]|];
      nia. }
  assert (53 ≤ digits (m1 * m2)) by (apply digits_ge_pow; lia).
  unfold fexp. lia.
Qed.

(** The exponent [SFdiv] chooses for a quotient. *)
Definition dexp (m1 e1 m2 e2 : Z) : Z :=
  Z.min (fexp (digits m1 + e1 - (digits m2 + e2))) (e1 - e2).

Lemma div_rnd s1 m1 e1 s2 m2 e2 :
  F64.div (S754_finite s1 m1 e1) (S754_finite s2 m2 e2)
  = rnd (xorb s1 s2)
      (Z.pos m1 * 2 ^ (e1 - e2 - dexp (Z.pos m1) e1 (Z.pos m2) e2)) (Z.pos m2)
      (dexp (Z.pos m1) e1 (Z.pos m2) e2).
Proof.
  unfold F64.div, SFdiv, SFdiv_core_binary. rewrite fexp_spec.
  fold (digits (Z.pos m1)) (digits (Z.pos m2)).
  fold (dexp (Z.pos m1) e1 (Z.pos m2) e2).
  set (e' := dexp (Z.pos m1) e1 (Z.pos m2) e2).
  assert (Hs : 0 ≤ e1 - e2 - e') by (unfold e', dexp; lia).
  assert (Hm : match e1 - e2 - e' with
               | 0 => Z.pos m1
               | Z.pos _ => Z.shiftl (Z.pos m1) (e1 - e2 - e')
               | Z.neg _ => 0
               end = Z.pos m1 * 2 ^ (e1 - e2 - e')).
  { destruct (e1 - e2 - e') eqn:E; [by rewrite Z.mul_1_r| |lia].
    by rewrite Z.shiftl_mul_pow2. }
  rewrite Hm. set (a := Z.pos m1 * 2 ^ (e1 - e2 - e')).
  assert (Ha : 0 ≤ a).
  { unfold a. assert (0 < 2 ^ (e1 - e2 - e')) by (by apply Z.pow_pos_nonneg). lia. }
  pose proof (new_location_cell a (Z.pos m2) Ha ltac:(lia)) as Hl.
  unfold Z.div, Z.modulo in Hl.
  destruct (Z.div_eucl a (Z.pos m2)) as [qq rr].
  apply binary_round_aux_rnd; [done|lia|done].
Qed.

Lemma digits_mul_pow m n : 0 < m → 0 ≤ n → digits (m * 2 ^ n) = digits m + n.
Proof.
  intros Hm Hn. destruct (digits_bounds m Hm) as [[Hlo Hhi] Hd].
  assert (0 < 2 ^ n) by (by apply Z.pow_pos_nonneg).
  apply digits_unique; [lia|].
  replace (digits m + n - 1) with (digits m - 1 + n) by lia.
  rewrite !Z.pow_add_r by lia. split.
  - apply Z.mul_le_mono_nonneg_r; lia.
  - apply Z.mul_lt_mono_pos_r; lia.
Qed.

Lemma digits_div a b : 0 ≤ a → 0 < b → digits a - digits b ≤ digits (a / b).
Proof.
  intros Ha Hb.
  assert (0 ≤ a / b) by (apply Z.div_pos; lia).
  pose proof (digits_nonneg (a / b)) as Hn.
  destruct (Z.le_gt_cases (digits a - digits b) 0) as [|Hgt]; [lia|].
  assert (Hapos : 0 < a).
  { destruct (Z.eq_dec a 0) as [->|]; [|lia].
    rewrite digits_0 in Hgt. pose proof (digits_nonneg b). lia. }
  destruct (digits_bounds a Hapos) as [[Hlo _] Hda].
  destruct (digits_bounds b Hb) as [[_ Hhi] Hdb].
  apply digits_ge_pow; [lia|].
  apply Z.div_le_lower_bound; [done|].
  etrans; [|exact Hlo].
  replace (digits a - 1) with (digits b + (digits a - digits b - 1)) by lia.
  rewrite Z.pow_add_r by lia.
  apply Z.mul_le_mono_nonneg_r; [|lia].
  apply Z.pow_nonneg; lia.
Qed.

Lemma div_enough m1 e1 m2 e2 :
  0 < m1 → 0 < m2 →
  enough (m1 * 2 ^ (e1 - e2 - dexp m1 e1 m2 e2)) m2 (dexp m1 e1 m2 e2).
Proof.
  intros H1 H2. unfold enough. set (e' := dexp m1 e1 m2 e2).
  assert (Hs : 0 ≤ e1 - e2 - e') by (unfold e', dexp; lia).
  assert (0 < 2 ^ (e1 - e2 - e')) by (by apply Z.pow_pos_nonneg).
  pose proof (digits_div (m1 * 2 ^ (e1 - e2 - e')) m2 ltac:(lia) H2) as Hd.
  rewrite digits_mul_pow in Hd by done.
  etrans; [apply Z.le_min_l|]. apply fexp_mono. lia.
Qed.

(** [float64(z)]. *)
Definition lift (m : Z) : Z := Z.max 0 (- fexp (digits m)).

Lemma iter_xO m d : Z.pos (Pos.iter xO m d) = Z.pos m * 2 ^ Z.pos d.
Proof.
  induction d as [|d IH] using Pos.peano_ind.
  - cbn [Pos.iter]. rewrite (Pos2Z.inj_xO m). lia.
  - rewrite Pos.iter_succ, (Pos2Z.inj_xO (Pos.iter xO m d)), IH, Pos2Z.inj_succ.
    rewrite Z.pow_succ_r by lia. lia.
Qed.

Lemma binary_round_rnd s m :
  binary_round F64.prec F64.emax s m 0
  = rnd s (Z.pos m * 2 ^ lift (Z.pos m)) 1 (- lift (Z.pos m)).
Proof.
  unfold binary_round, shl_align, lift. rewrite fexp_spec, Z.add_0_r, Z.sub_0_r.
  change (Z.pos (digits2_pos m)) with (digits (Z.pos m)).
  destruct (fexp (digits (Z.pos m))) as [|k|k] eqn:Hf.
  - change (Z.max 0 (- 0)) with 0. rewrite Z.pow_0_r, Z.mul_1_r.
    apply binary_round_aux_rnd; [lia|lia|apply exact_rec_of].
  - replace (Z.max 0 (- Z.pos k)) with 0 by lia. rewrite Z.pow_0_r, Z.mul_1_r.
    apply binary_round_aux_rnd; [lia|lia|apply exact_rec_of].
  - replace (Z.max 0 (- Z.neg k)) with (Z.pos k) by lia. rewrite <- iter_xO.
    change (- Z.pos k) with (Z.neg k).
    apply binary_round_aux_rnd; [lia|lia|apply exact_rec_of].
Qed.

Lemma of_int_pos m :
  F64.of_int (Z.pos m) = rnd false (Z.pos m * 2 ^ lift (Z.pos m)) 1 (- lift (Z.pos m)).
Proof. apply binary_round_rnd. Qed.

Lemma of_int_neg m :
  F64.of_int (Z.neg m) = rnd true (Z.pos m * 2 ^ lift (Z.pos m)) 1 (- lift (Z.pos m)).
Proof. apply binary_round_rnd. Qed.

Lemma lift_nonneg m : 0 ≤ lift m.
Proof. unfold lift. lia. Qed.

Lemma lift_pos m : 0 < m → 0 < m * 2 ^ lift m.
Proof.
  intros Hm. apply Z.mul_pos_pos; [done|].
  apply Z.pow_pos_nonneg; [lia|apply lift_nonneg].
Qed.

Lemma lift_enough m : 0 < m → enough (m * 2 ^ lift m) 1 (- lift m).
Proof.
  intros Hm. unfold enough. rewrite Z.div_1_r.
  rewrite digits_mul_pow by (done || apply lift_nonneg).
  replace (digits m + lift m + - lift m) with (digits m) by lia.
  unfold lift. lia.
Qed.

Lemma of_int_nonneg z : 0 ≤ z → nonneg (F64.of_int z).
Proof.
  intros Hz. destruct z as [|m|m]; [done| |lia].
  rewrite of_int_pos.
  apply rnd_nonneg; [pose proof (lift_pos (Z.pos m)); lia|lia|by apply lift_enough].
Qed.

Lemma of_int_negative z : z < 0 → negative (F64.of_int z).
Proof.
  intros Hz. destruct z as [|m|m]; [lia|lia|].
  rewrite of_int_neg.
  apply rnd_negative; [pose proof (lift_pos (Z.pos m)); lia|lia].
Qed.

Lemma of_int_finite z : 0 ≤ z < 2 ^ 64 → F64.of_int z ≠ S754_infinity false.
Proof.
  intros Hz. destruct z as [|m|m]; [done| |lia].
  rewrite of_int_pos.
  apply rnd_finite; [pose proof (lift_pos (Z.pos m)); lia|lia|by apply lift_enough|].
  rewrite Z.div_1_r, digits_mul_pow by (done || apply lift_nonneg).
  assert (digits (Z.pos m) ≤ 64) by (apply digits_lt_pow; lia). lia.
Qed.

Lemma of_int_mono z1 z2 :
  0 ≤ z1 → z1 ≤ z2 → SFleb (F64.of_int z1) (F64.of_int z2) = true.
Proof.
  intros H1 H12. destruct z1 as [|m1|m1]; [| |lia].
  { apply zero_le, of_int_nonneg. lia. }
  destruct z2 as [|m2|m2]; [lia| |lia].
  rewrite !of_int_pos.
  set (l1 := lift (Z.pos m1)). set (l2 := lift (Z.pos m2)).
  pose proof (lift_nonneg (Z.pos m1)) as Hl1. pose proof (lift_nonneg (Z.pos m2)) as Hl2.
  pose proof (lift_pos (Z.pos m1) ltac:(lia)) as Hp1.
  pose proof (lift_pos (Z.pos m2) ltac:(lia)) as Hp2.
  fold l1 in Hl1, Hp1. fold l2 in Hl2, Hp2.
  apply (rnd_mono _ _ _ _ _ _ (- (l1 + l2)));
    try lia; try (by apply lift_enough).
  replace (- l1 - - (l1 + l2)) with l2 by lia.
  replace (- l2 - - (l1 + l2)) with l1 by lia.
  rewrite !Z.mul_1_r.
  replace (Z.pos m2 * 2 ^ l2 * 2 ^ l1) with (Z.pos m2 * 2 ^ l1 * 2 ^ l2) by lia.
  apply Z.mul_le_mono_nonneg_r; [apply Z.pow_nonneg; lia|].
  apply Z.mul_le_mono_nonneg_r; [apply Z.pow_nonneg; lia|lia].
Qed.

(** *** Products and quotients by a positive float *)

(** [x <= y] gives [x * k <= y * k] and [x / k <= y / k] for a positive
    float [k]. *)
Lemma mul_mono x y mk ek :
  nonneg x → nonneg y → canonical (Z.pos mk) ek →
  SFleb x y = true →
  SFleb (F64.mul x (S754_finite false mk ek)) (F64.mul y (S754_finite false mk ek))
  = true.
Proof.
  intros Hx Hy Hk Hle.
  assert (Hr : ∀ m e, canonical (Z.pos m) e →
    nonneg (rnd false (Z.pos m * Z.pos mk) 1 (e + ek))).
  { intros m e Hc. apply rnd_nonneg; [lia|lia|by apply mul_enough]. }
  destruct x as [[]|[]| |[] m1 e1], y as [[]|[]| |[] m2 e2];
    cbn in Hx, Hy, Hle; try done; rewrite ?mul_rnd; cbn [xorb].
  - by apply zero_le, Hr.
  - by apply le_infinity, Hr.
  - apply (rnd_mono _ _ _ _ _ _ (emin + ek)); try lia;
      try (by apply mul_enough);
      try (destruct Hx as (_ & ? & _), Hy as (_ & ? & _); lia).
    replace (e1 + ek - (emin + ek)) with (e1 - emin) by lia.
    replace (e2 + ek - (emin + ek)) with (e2 - emin) by lia.
    rewrite !Z.mul_1_r.
    pose proof (SFleb_finite m1 e1 m2 e2 emin Hx Hy) as Hv.
    destruct Hx as (_ & ? & _), Hy as (_ & ? & _).
    specialize (Hv ltac:(lia) ltac:(lia) Hle).
    replace (Z.pos m1 * Z.pos mk * 2 ^ (e1 - emin))
      with (Z.pos m1 * 2 ^ (e1 - emin) * Z.pos mk) by lia.
    replace (Z.pos m2 * Z.pos mk * 2 ^ (e2 - emin))
      with (Z.pos m2 * 2 ^ (e2 - emin) * Z.pos mk) by lia.
    apply Z.mul_le_mono_nonneg_r; lia.
Qed.

Lemma div_mono x y mk ek :
  nonneg x → nonneg y →
  SFleb x y = true →
  SFleb (F64.div x (S754_finite false mk ek)) (F64.div y (S754_finite false mk ek))
  = true.
Proof.
  intros Hx Hy Hle.
  assert (Hr : ∀ m e,
    nonneg (rnd false (Z.pos m * 2 ^ (e - ek - dexp (Z.pos m) e (Z.pos mk) ek))
              (Z.pos mk) (dexp (Z.pos m) e (Z.pos mk) ek))).
  { intros m e.
    assert (0 ≤ e - ek - dexp (Z.pos m) e (Z.pos mk) ek) by (unfold dexp; lia).
    assert (0 < 2 ^ (e - ek - dexp (Z.pos m) e (Z.pos mk) ek))
      by (by apply Z.pow_pos_nonneg).
    apply rnd_nonneg; [lia|lia|by apply div_enough]. }
  destruct x as [[]|[]| |[] m1 e1], y as [[]|[]| |[] m2 e2];
    cbn in Hx, Hy, Hle; try done; rewrite ?div_rnd; cbn [xorb].
  - by apply zero_le, Hr.
  - by apply le_infinity, Hr.
  - set (d1 := dexp (Z.pos m1) e1 (Z.pos mk) ek).
    set (d2 := dexp (Z.pos m2) e2 (Z.pos mk) ek).
    assert (Hs1 : 0 ≤ e1 - ek - d1) by (unfold d1, dexp; lia).
    assert (Hs2 : 0 ≤ e2 - ek - d2) by (unfold d2, dexp; lia).
    set (e0 := Z.min (Z.min d1 d2) (emin - ek)).
    assert (0 < 2 ^ (e1 - ek - d1)) by (by apply Z.pow_pos_nonneg).
    assert (0 < 2 ^ (e2 - ek - d2)) by (by apply Z.pow_pos_nonneg).
    apply (rnd_mono _ _ _ _ _ _ e0); try lia; try (by apply div_enough).
    apply Z.mul_le_mono_nonneg_r; [lia|].
    rewrite <- !Z.mul_assoc, <- !Z.pow_add_r by lia.
    replace (e1 - ek - d1 + (d1 - e0)) with (e1 - (e0 + ek)) by lia.
    replace (e2 - ek - d2 + (d2 - e0)) with (e2 - (e0 + ek)) by lia.
    apply SFleb_finite; try done; lia.
Qed.

Lemma mul_nonneg x mk ek :
  nonneg x → canonical (Z.pos mk) ek →
  nonneg (F64.mul x (S754_finite false mk ek)).
Proof.
  intros Hx Hk. destruct x as [[]|[]| |[] m e]; try done.
  rewrite mul_rnd. apply rnd_nonneg; [lia|lia|by apply mul_enough].
Qed.

Lemma div_nonneg x mk ek :
  nonneg x → nonneg (F64.div x (S754_finite false mk ek)).
Proof.
  intros Hx. destruct x as [[]|[]| |[] m e]; try done.
  rewrite div_rnd.
  assert (0 < 2 ^ (e - ek - dexp (Z.pos m) e (Z.pos mk) ek)).
  { apply Z.pow_pos_nonneg; [lia|unfold dexp; lia]. }
  apply rnd_nonneg; [lia|lia|by apply div_enough].
Qed.

Lemma mul_negative x mk ek :
  negative x → negative (F64.mul x (S754_finite false mk ek)).
Proof.
  intros Hx. destruct x as [[]|[]| |[] m e]; try done.
  rewrite mul_rnd. apply rnd_negative; lia.
Qed.

Lemma div_negative x mk ek :
  negative x → negative (F64.div x (S754_finite false mk ek)).
Proof.
  intros Hx. destruct x as [[]|[]| |[] m e]; try done.
  rewrite div_rnd. apply rnd_negative; [|lia].
  assert (0 ≤ 2 ^ (e - ek - dexp (Z.pos m) e (Z.pos mk) ek))
    by (apply Z.pow_nonneg; lia).
  lia.
Qed.

Lemma negative_below mc ec f :
  negative f → SFleb (S754_finite false mc ec) f = false.
Proof. by destruct f as [[]|[]| |[] ? ?]. Qed.

(** *** Floats that are finite *)

Definition proper (f : spec_float) : Prop := nonneg f ∧ f ≠ S754_infinity false.

Lemma mul_mono_proper x y k :
  proper x → proper y → proper k →
  SFleb x y = true → SFleb (F64.mul x k) (F64.mul y k) = true.
Proof.
  intros [Hx Hxf] [Hy Hyf] [Hk Hkf] Hle.
  destruct k as [[]|[]| |[] mk ek]; try done.
  - by destruct x as [[]|[]| |[] ? ?], y as [[]|[]| |[] ? ?].
  - by apply mul_mono.
Qed.

Lemma mul_zero_proper k : proper k → F64.mul (S754_zero false) k = S754_zero false.
Proof. intros [Hk Hkf]. by destruct k as [[]|[]| |[] mk ek]. Qed.

Lemma digits_div_le a b :
  0 ≤ a → 0 < b → digits (a / b) ≤ Z.max 0 (digits a - digits b + 1).
Proof.
  intros Ha Hb.
  destruct (Z.eq_dec (a / b) 0) as [->|Hne]; [rewrite digits_0; lia|].
  assert (Hq : 0 < a / b).
  { assert (0 ≤ a / b) by (apply Z.div_pos; lia). lia. }
  assert (Hapos : 0 < a).
  { destruct (Z.eq_dec a 0) as [->|]; [by rewrite Z.div_0_l in Hne by lia|lia]. }
  destruct (digits_bounds a Hapos) as [[_ Hhi] Hda].
  destruct (digits_bounds b Hb) as [[Hlo _] Hdb].
  destruct (digits_bounds (a / b) Hq) as [[Hql _] Hdq].
  pose proof (Z.mul_div_le a b Hb) as Hm.
  destruct (Z.le_gt_cases (digits (a / b)) (digits a - digits b + 1)) as [|Hgt];
    [lia|exfalso].
  assert (Hpow : 2 ^ (digits a - digits b + 1) ≤ 2 ^ (digits (a / b) - 1)).
  { destruct (Z.le_gt_cases 0 (digits a - digits b + 1)).
    - apply Z.pow_le_mono_r; lia.
    - rewrite Z.pow_neg_r by lia. apply Z.pow_nonneg. lia. }
  destruct (Z.le_gt_cases 0 (digits a - digits b + 1)) as [Hnn|Hneg].
  - assert (2 ^ digits a = 2 ^ (digits b - 1) * 2 ^ (digits a - digits b + 1)) as Hsplit.
    { rewrite <- Z.pow_add_r by lia. f_equal. lia. }
    assert (2 ^ (digits b - 1) * 2 ^ (digits a - digits b + 1) ≤ b * (a / b)).
    { apply Z.mul_le_mono_nonneg; try lia; apply Z.pow_nonneg; lia. }
    lia.
  - assert (2 ^ digits a ≤ 2 ^ (digits b - 1)) by (apply Z.pow_le_mono_r; lia).
    assert (a < b) by lia.
    rewrite Z.div_small in Hne by lia. done.
Qed.

Lemma div_proper m1 e1 m2 e2 :
  digits (Z.pos m1) + e1 - (digits (Z.pos m2) + e2) ≤ 1022 →
  proper (F64.div (S754_finite false m1 e1) (S754_finite false m2 e2)).
Proof.
  intros Hd. unfold proper. rewrite div_rnd. cbn [xorb].
  set (e' := dexp (Z.pos m1) e1 (Z.pos m2) e2).
  assert (Hs : 0 ≤ e1 - e2 - e') by (unfold e', dexp; lia).
  assert (0 < 2 ^ (e1 - e2 - e')) by (by apply Z.pow_pos_nonneg).
  split; [apply rnd_nonneg; [lia|lia|by apply div_enough]|].
  apply rnd_finite; [lia|lia|by apply div_enough|].
  pose proof (digits_div_le (Z.pos m1 * 2 ^ (e1 - e2 - e')) (Z.pos m2)
                ltac:(lia) ltac:(lia)) as Hq.
  rewrite digits_mul_pow in Hq by lia.
  assert (e' ≤ 969) by (unfold e', dexp, fexp, emin; lia).
  lia.
Qed.

(** [float64(z)] for [z] at least 1. *)
Lemma of_int_ge_one z :
  1 ≤ z < 2 ^ 64 →
  ∃ m e, F64.of_int z = S754_finite false m e
         ∧ canonical (Z.pos m) e ∧ 1 ≤ digits (Z.pos m) + e.
Proof.
  intros Hz.
  pose proof (of_int_nonneg z ltac:(lia)) as Hn.
  pose proof (of_int_finite z ltac:(lia)) as Hf.
  pose proof (of_int_mono 1 z ltac:(lia) ltac:(lia)) as Hle.
  destruct (F64.of_int z) as [[]|[]| |[] m e]; try done.
  exists m, e. split; [done|]. split; [done|].
  destruct Hn as (Hm & He & Hc).
  change (F64.of_int 1) with (S754_finite false 4503599627370496 (-52)) in Hle.
  unfold SFleb, SFcompare in Hle.
  assert (2 ^ 52 ≤ Z.pos m ∧ -52 ≤ e) as [H52 He52].
  { destruct (Z.compare_spec (-52) e) as [<-|Hlt|Hgt]; [| |done].
    - split; [|lia]. destruct Hc as [Hc|Hc]; [unfold emin in Hc; lia|done].
    - split; [|lia]. destruct Hc as [Hc|Hc]; [unfold emin in Hc; lia|done]. }
  assert (53 ≤ digits (Z.pos m)) by (apply digits_ge_pow; lia). lia.
Qed.

Lemma of_int_proper z : 0 ≤ z < 2 ^ 64 → proper (F64.of_int z).
Proof. intros Hz. split; [apply of_int_nonneg; lia|by apply of_int_finite]. Qed.

End Rounding.

(** ** The percentage of a score *)

Section Percentage.

(** The value interpolated for a score [k] above the minimum, with [n]
    criteria: [float64(k) * (100.0 / float64(4 * n))]. *)
Definition interpolate (n k : Z) : spec_float :=
  F64.mul (F64.of_int k) (F64.div F64.c100 (F64.of_int (4 * n))).

(** [score] brought into [n .. 5 * n]. *)
Definition clampScore (score n : Z) : Z := Z.max n (Z.min score (5 * n)).

Lemma ScoreToPercentage_interpolate score n :
  1 ≤ n → 5 * n ≤ GoInt.int_max →
  ScoreToPercentage score n = interpolate n (clampScore score n - n).
Proof.
  intros Hn Hmax. unfold ScoreToPercentage, interpolate, clampScore.
  destruct (Z.eqb_spec n 0); [lia|].
  assert (H5 : GoInt.mul n 5 = 5 * n).
  { unfold GoInt.mul. rewrite GoInt.wrap_in_range; [lia|].
    unfold GoInt.in_range, GoInt.int_min, GoInt.int_max in *. lia. }
  assert (H1 : GoInt.mul n 1 = n).
  { unfold GoInt.mul. rewrite GoInt.wrap_in_range; [lia|].
    unfold GoInt.in_range, GoInt.int_min, GoInt.int_max in *. lia. }
  rewrite H5, H1.
  assert (Hsub : ∀ s, n ≤ s ≤ 5 * n → GoInt.sub s n = s - n).
  { intros s Hs. unfold GoInt.sub. apply GoInt.wrap_in_range.
    unfold GoInt.in_range, GoInt.int_min, GoInt.int_max in *. lia. }
  rewrite (Hsub (5 * n)) by lia.
  destruct (Z.eqb_spec (5 * n - n) 0); [lia|].
  replace (5 * n - n) with (4 * n) by lia.
  destruct (Z.ltb_spec score n).
  - destruct (Z.ltb_spec (5 * n) n); [lia|].
    rewrite Hsub by lia. do 2 f_equal. lia.
  - destruct (Z.ltb_spec (5 * n) score).
    + rewrite Hsub by lia. do 2 f_equal. lia.
    + rewrite Hsub by lia. do 2 f_equal. lia.
Qed.

(** The factor [100.0 / float64(4 * n)] is a finite float, zero or
    positive. *)
Lemma slope_proper n :
  1 ≤ n → 4 * n < 2 ^ 64 →
  Rounding.proper (F64.div F64.c100 (F64.of_int (4 * n))).
Proof.
  intros Hn Hmax.
  destruct (Rounding.of_int_ge_one (4 * n) ltac:(lia)) as (m & e & -> & Hc & Hd).
  change F64.c100 with (S754_finite false 7036874417766400 (-46)).
  apply Rounding.div_proper.
  change (Rounding.digits (Z.pos 7036874417766400)) with 53. lia.
Qed.

(** The lowest score of the range is given 0. *)
Lemma interpolate_zero n : 1 ≤ n → 4 * n < 2 ^ 64 → interpolate n 0 = F64.zero.
Proof.
  intros Hn Hmax. unfold interpolate.
  change (F64.of_int 0) with (S754_zero false).
  by apply Rounding.mul_zero_proper, slope_proper.
Qed.

(** A higher score is never given less. *)
Lemma interpolate_mono n k1 k2 :
  1 ≤ n → 4 * n < 2 ^ 64 → 0 ≤ k1 → k1 ≤ k2 → k2 < 2 ^ 64 →
  F64Facts.le (interpolate n k1) (interpolate n k2) = true.
Proof.
  intros Hn Hmax H1 H12 H2. unfold interpolate, F64Facts.le.
  apply Rounding.mul_mono_proper.
  - apply Rounding.of_int_proper. lia.
  - apply Rounding.of_int_proper. lia.
  - by apply slope_proper.
  - by apply Rounding.of_int_mono.
Qed.

(** Checked by evaluation for the counts 1 to 10: the highest score of the
    range is given 100. *)
Definition top_ok (n : Z) : bool :=
  bool_decide (interpolate n (4 * n) = F64.c100).

Lemma interpolate_checked : forallb top_ok (seqZ 1 10) = true.
Proof. by vm_compute. Qed.

Lemma interpolate_top n : 1 ≤ n ≤ 10 → interpolate n (4 * n) = F64.c100.
Proof.
  intros Hn.
  pose proof (F64Facts.forall_range _ _ _ interpolate_checked n ltac:(lia)) as H.
  by apply bool_decide_eq_true in H.
Qed.

End Percentage.

(** C6, amended: with no criterion the percentage is 0 for every score;
    for every count [n >= 1] (whose five-fold fits an [int]) a score below
    [n] gives what [n] gives, a score above [5 * n] gives what [5 * n]
    gives, the percentage of [n] is 0 and the percentage never decreases
    as the score grows; and for the counts 1 to 10 the percentage of
    [5 * n] is 100. *)
Theorem ScoreToPercentage_bounds_and_order :
  (∀ score, ScoreToPercentage score 0 = F64.zero)
  ∧ (∀ n score,
       1 ≤ n → 5 * n ≤ GoInt.int_max →
       ScoreToPercentage score n = ScoreToPercentage (clampScore score n) n
       ∧ (score ≤ n → ScoreToPercentage score n = ScoreToPercentage n n)
       ∧ (5 * n ≤ score → ScoreToPercentage score n = ScoreToPercentage (5 * n) n)
       ∧ ScoreToPercentage n n = F64.zero
       ∧ ∀ s1 s2, s1 ≤ s2 →
           F64Facts.le (ScoreToPercentage s1 n) (ScoreToPercentage s2 n) = true)
  ∧ (∀ n, 1 ≤ n ≤ 10 → ScoreToPercentage (5 * n) n = F64.c100).
Proof.
  split; [reflexivity|]. split.
  - intros n score Hn Hmax.
    assert (H64 : 4 * n < 2 ^ 64) by (unfold GoInt.int_max in Hmax; lia).
    rewrite !ScoreToPercentage_interpolate by done.
    unfold clampScore. repeat split; try (intros; do 2 f_equal; lia).
    + replace (Z.max n (Z.min n (5 * n)) - n) with 0 by lia.
      by apply interpolate_zero.
    + intros s1 s2 Hs. rewrite !ScoreToPercentage_interpolate by lia.
      apply interpolate_mono; unfold clampScore; lia.
  - intros n Hn.
    rewrite ScoreToPercentage_interpolate by (unfold GoInt.int_max; lia).
    unfold clampScore.
    replace (Z.max n (Z.min (5 * n) (5 * n)) - n) with (4 * n) by lia.
    by apply interpolate_top.
Qed.

Lemma ScoreToPercentage_bounds_and_order_witness :
  ScoreToPercentage 7 7 = F64.zero
  ∧ ScoreToPercentage 35 7 = F64.c100
  ∧ ScoreToPercentage 1000 7 = ScoreToPercentage 35 7
  ∧ F64Facts.le (ScoreToPercentage 21 7) (ScoreToPercentage 28 7) = true.
Proof.
  destruct ScoreToPercentage_bounds_and_order as (_ & Hall & Htop).
  destruct (Hall 7 1000 ltac:(lia) ltac:(by vm_compute))
    as (_ & _ & Hhigh & H0 & Hmono).
  split; [done|]. split; [apply (Htop 7); lia|].
  split; [apply Hhigh; lia|apply Hmono; lia].
Defined.

(** C6 as stated fails: with 11 criteria the maximum score 55 is given
    100.00000000000001, not 100. *)
Lemma ScoreToPercentage_11_above_100 :
  ScoreToPercentage (11 * 5) 11 = S754_finite false 7036874417766401 (-46)
  ∧ F64.c100 = S754_finite false 7036874417766400 (-46)
  ∧ F64.lt F64.c100 (ScoreToPercentage (11 * 5) 11) = true.
Proof. repeat split; by vm_compute. Qed.

(** ** The recomputed tier *)

(** The threshold table: exact cutoffs for 3, 4 and 5 criteria, shares of
    the maximum [count * 5] otherwise. *)
Definition tierTable (total count : Z) : string :=
  if count =? 3 then
    ladder (13 <=? total) (10 <=? total) (7 <=? total)
      "Excellent" "Good" "Average" "Weak"
  else if count =? 4 then
    ladder (17 <=? total) (13 <=? total) (9 <=? total)
      "Excellent" "Good" "Average" "Weak"
  else if count =? 5 then
    ladder (21 <=? total) (17 <=? total) (12 <=? total)
      "Excellent" "Good" "Average" "Weak"
  else
    ladder (85 * (count * 5) <=? 100 * total)
           (70 * (count * 5) <=? 100 * total)
           (50 * (count * 5) <=? 100 * total)
      "Excellent" "Good" "Average" "Weak".

(** The table for every count: of the maximum 0 of no criterion there is
    no share (the quotient 0/0 is not a number), which leaves "Weak". *)
Definition tierOf (total count : Z) : string :=
  if count =? 0 then "Weak" else tierTable total count.

Section Tiers.

(** The share of the maximum that a total is, in percent, as
    [getClassificationFromScore] computes it:
    [float64(totalScore) / float64(maxScore) * 100]. *)
Definition share (maxScore total : Z) : spec_float :=
  F64.mul (F64.div (F64.of_int total) (F64.of_int maxScore)) F64.c100.

(** The maxima of 1, 2, 6 and 7 criteria, and the three shares asked. *)
Definition maxima : list Z := [5; 10; 30; 35].
Definition shares : list Z := [50; 70; 85].

(** The least total that is [percent]% of [maxScore]. *)
Definition cutoff (percent maxScore : Z) : Z := (percent * maxScore + 99) / 100.

Lemma c100_canonical : Rounding.canonical (Z.pos 7036874417766400) (-46).
Proof. unfold Rounding.canonical, Rounding.emin. lia. Qed.

Lemma of_int_maxima m :
  In m maxima → ∃ mk ek, F64.of_int m = S754_finite false mk ek.
Proof. intros [<-|[<-|[<-|[<-|[]]]]]; by eexists _, _. Qed.

Lemma of_int_shares c :
  In c shares → ∃ mk ek, F64.of_int c = S754_finite false mk ek.
Proof. intros [<-|[<-|[<-|[]]]]; by eexists _, _. Qed.

(** A larger total has a larger share, also after the three roundings. *)
Lemma share_mono m t1 t2 :
  In m maxima → 0 ≤ t1 → t1 ≤ t2 → SFleb (share m t1) (share m t2) = true.
Proof.
  intros Hm H1 H12. destruct (of_int_maxima m Hm) as (mk & ek & Hk).
  unfold share. rewrite Hk.
  change F64.c100 with (S754_finite false 7036874417766400 (-46)).
  assert (Hn : ∀ t, 0 ≤ t → Rounding.nonneg (F64.of_int t))
    by apply Rounding.of_int_nonneg.
  apply Rounding.mul_mono.
  - apply Rounding.div_nonneg, Hn. lia.
  - apply Rounding.div_nonneg, Hn. lia.
  - apply c100_canonical.
  - apply Rounding.div_mono; [apply Hn; lia|apply Hn; lia|].
    by apply Rounding.of_int_mono.
Qed.

(** The share of a negative total is negative, or a negative zero. *)
Lemma share_negative m t : In m maxima → t < 0 → Rounding.negative (share m t).
Proof.
  intros Hm Ht. destruct (of_int_maxima m Hm) as (mk & ek & Hk).
  unfold share. rewrite Hk.
  change F64.c100 with (S754_finite false 7036874417766400 (-46)).
  by apply Rounding.mul_negative, Rounding.div_negative, Rounding.of_int_negative.
Qed.

(** So one total decides a comparison for all the others. *)
Lemma share_threshold m c t0 t :
  In m maxima → In c shares → 1 ≤ t0 →
  F64.ge (share m t0) (F64.of_int c) = true →
  F64.ge (share m (t0 - 1)) (F64.of_int c) = false →
  F64.ge (share m t) (F64.of_int c) = (t0 <=? t).
Proof.
  unfold F64.ge. intros Hm Hc H0 Hat Hbelow.
  destruct (Z.leb_spec t0 t) as [Hle|Hlt].
  - apply (Rounding.SFleb_trans _ (share m t0)); [done|].
    apply share_mono; [done|lia|done].
  - destruct (Z.lt_ge_cases t 0) as [Hneg|Hpos].
    + destruct (of_int_shares c Hc) as (mc & ec & ->).
      by apply Rounding.negative_below, share_negative.
    + destruct (SFleb (F64.of_int c) (share m t)) eqn:Hge; [|done].
      rewrite <- Hbelow. symmetry.
      apply (Rounding.SFleb_trans _ (share m t)); [done|].
      apply share_mono; [done|done|lia].
Qed.

(** The twelve comparisons at the cutoffs, by evaluation. *)
Definition cutoff_ok (m c : Z) : bool :=
  F64.ge (share m (cutoff c m)) (F64.of_int c)
  && negb (F64.ge (share m (cutoff c m - 1)) (F64.of_int c))
  && (1 <=? cutoff c m).

Lemma cutoffs_checked :
  forallb (λ m, forallb (cutoff_ok m) shares) maxima = true.
Proof. by vm_compute. Qed.

Lemma share_ge m c t :
  In m maxima → In c shares →
  F64.ge (share m t) (F64.of_int c) = (c * m <=? 100 * t).
Proof.
  intros Hm Hc.
  pose proof (proj1 (forallb_forall _ _) cutoffs_checked m Hm) as Hok.
  pose proof (proj1 (forallb_forall _ _) Hok c Hc) as Hmc.
  unfold cutoff_ok in Hmc.
  apply andb_true_iff in Hmc as [Hmc H1]. apply andb_true_iff in Hmc as [Hat Hbelow].
  apply negb_true_iff in Hbelow. apply Z.leb_le in H1.
  rewrite (share_threshold m c (cutoff c m) t) by done.
  assert (Hcut : cutoff c m ≤ t ↔ c * m ≤ 100 * t).
  { unfold cutoff.
    pose proof (Z.div_mod (c * m + 99) 100 ltac:(lia)).
    pose proof (Z.mod_pos_bound (c * m + 99) 100 ltac:(lia)). lia. }
  destruct (Z.leb_spec (cutoff c m) t), (Z.leb_spec (c * m) (100 * t)); lia.
Qed.

(** [getClassificationFromScore] follows the table for every total, for
    each count that seven criteria allow. *)
Lemma getClassificationFromScore_table total count :
  0 ≤ count ≤ 7 →
  getClassificationFromScore total count = tierOf total count.
Proof.
  intros Hcount.
  destruct (Z.eq_dec count 0) as [->|H0]; [done|].
  destruct (Z.eq_dec count 3) as [->|H3]; [done|].
  destruct (Z.eq_dec count 4) as [->|H4]; [done|].
  destruct (Z.eq_dec count 5) as [->|H5]; [done|].
  assert (Hmax : GoInt.mul count 5 = count * 5 ∧ In (count * 5) maxima).
  { assert (Hc : count = 1 ∨ count = 2 ∨ count = 6 ∨ count = 7) by lia.
    destruct Hc as [->|[->|[->| ->]]]; (split; [reflexivity|simpl; lia]). }
  destruct Hmax as [Hmul Hin].
  unfold getClassificationFromScore, tierOf, tierTable.
  destruct (Z.eqb_spec count 0); [done|]. destruct (Z.eqb_spec count 3); [done|].
  destruct (Z.eqb_spec count 4); [done|]. destruct (Z.eqb_spec count 5); [done|].
  cbv zeta. rewrite Hmul. fold (share (count * 5) total).
  by rewrite !share_ge by (done || (simpl; lia)).
Qed.

End Tiers.


(** ** A concrete reply, for the examples *)

Module DemoReply.

(** Apostrophes turned into the double quotes of JSON. *)
Definition requote (s : string) : bytes :=
  map (λ c, if Ascii.eqb c "'"%char then ascii_of_N 34 else c)
    (list_ascii_of_string s).

Definition pre : bytes :=
  list_ascii_of_string "Here is my evaluation: ```json ".

Definition inner : bytes :=
  requote "'scores':{'migration_intent':null,'financial_understanding':4,'communication_quality':5,'red_flags':4,'total_score':99},'classification':'Good','feedback':{'overall':'Clear.'}".

Definition post : bytes :=
  list_ascii_of_string " ``` Good luck with the interview }".

Definition object : bytes := lbrace :: inner ++ [rbrace].

Definition reply : bytes := pre ++ object ++ post.

(** What the decoder makes of [object]: the answer to a Financial
    Capability question, with a total and a tier that do not match the
    scores. *)
Definition analysis : AnalysisResponse :=
  {| Scores :=
       {| MigrationIntent := None; FinancialUnderstanding := Some 4;
          AcademicCredibility := None; SpecificityResearch := None;
          Consistency := None; CommunicationQuality := Some 5;
          RedFlags := Some 4; TotalScore := 99 |};
     Classification := "Good";
     Feedback :=
       {| Overall := "Clear.";
          ByCriterion := ByCriterion DemoSession.noFeedback;
          Improvements := [] |} |}.

(** What [json.Unmarshal] leaves of the reply [{}]: the zero value, with
    every criterion null and no classification. *)
Definition nothingScored : AnalysisResponse :=
  {| Scores :=
       {| MigrationIntent := None; FinancialUnderstanding := None;
          AcademicCredibility := None; SpecificityResearch := None;
          Consistency := None; CommunicationQuality := None;
          RedFlags := None; TotalScore := 0 |};
     Classification := EmptyString;
     Feedback := DemoSession.noFeedback |}.

Definition emptyObject : bytes := [lbrace; rbrace].

Definition unmarshalAnalysis (json : bytes) : option AnalysisResponse :=
  if bool_decide (json = object) then Some analysis
  else if bool_decide (json = emptyObject) then Some nothingScored
  else None.

Definition unmarshalChoices (body : bytes) : option (list bytes) := Some [body].

Definition decode : bytes → (Error + AnalysisResponse) * list Mismatch :=
  decodeReply unmarshalAnalysis.

(** What is returned for [reply]. *)
Definition result : AnalysisResponse :=
  {| Scores := set_TotalScore (Scores analysis) 13;
     Classification := "Excellent";
     Feedback := Feedback analysis |}.

Definition logged : list Mismatch :=
  [ {| said := "Good"; score := 13; outOf := 15; criteria := 3;
       corrected := "Excellent" |} ].

Lemma decode_reply : decode reply = (inr result, logged).
Proof. by vm_compute. Qed.

End DemoReply.

Lemma reply_object_extraction_witness :
  DemoReply.decode DemoReply.reply = (inr DemoReply.result, DemoReply.logged)
  ∧ DemoReply.decode (list_ascii_of_string "I cannot evaluate this answer.")
    = (inl ErrNoJSONObject, [])
  ∧ DemoReply.decode (list_ascii_of_string "Result: {{} and so on")
    = (inl ErrUnmatchedBraces, []).
Proof.
  destruct (reply_object_extraction DemoReply.unmarshalChoices
              DemoReply.unmarshalAnalysis) as (Hobject & Hnone & Hopen & _).
  split; [|split].
  - destruct (Hobject DemoReply.pre DemoReply.inner DemoReply.post) as [_ Hdecode].
    + apply (bool_decide_unpack _). by vm_compute.
    + by vm_compute.
    + apply (Hdecode DemoReply.analysis). by vm_compute.
  - apply Hnone. apply (bool_decide_unpack _). by vm_compute.
  - apply (Hopen (list_ascii_of_string "Result: ")
             (list_ascii_of_string "{} and so on")).
    + apply (bool_decide_unpack _). by vm_compute.
    + intros k Hk. simpl in Hk.
      assert (Hcases : (k = 1 ∨ k = 2 ∨ k = 3 ∨ k = 4 ∨ k = 5 ∨ k = 6 ∨ k = 7
                        ∨ k = 8 ∨ k = 9 ∨ k = 10 ∨ k = 11 ∨ k = 12 ∨ k = 13
                        ∨ k = 14)%nat) by lia.
      repeat (destruct Hcases as [->|Hcases]; [by vm_compute|]).
      subst k. by vm_compute.
Defined.

Lemma total_score_recomputed_witness :
  TotalScore (Scores DemoReply.result) = 4 + 5 + 4
  ∧ TotalScore (Scores DemoReply.analysis) = 99.
Proof.
  destruct (total_score_recomputed DemoReply.unmarshalAnalysis DemoReply.reply
              DemoReply.result DemoReply.logged DemoReply.decode_reply)
    as (_ & _ & Hsum & _).
  split; [|reflexivity]. rewrite Hsum; [reflexivity|].
  repeat constructor; lia.
Defined.


(** The reply [{}]: every criterion is null, the total and the count are
    0, and there is no share of the maximum 0 (the quotient 0/0 is not a
    number and reaches no threshold); the result is "Weak", and the empty
    tier of the reply is logged. *)
Lemma nothing_scored_is_weak :
  DemoReply.decode DemoReply.emptyObject
  = (inr (with_classification DemoReply.nothingScored "Weak"),
     [ {| said := EmptyString; score := 0; outOf := 0; criteria := 0;
          corrected := "Weak" |} ])
  ∧ share 0 0 = S754_nan
  ∧ F64.ge (share 0 0) (F64.of_int 50) = false.
Proof. repeat split; by vm_compute. Qed.

(** A reply whose scores do not fit an [int] together:
    [migration_intent] is the largest [int] and
    [financial_understanding] is 1. *)
Module DemoLarge.

Definition object : bytes :=
  DemoReply.requote "{'scores':{'migration_intent':9223372036854775807,'financial_understanding':1,'total_score':0},'classification':'Weak','feedback':{'overall':'Clear.'}}".

Definition analysis : AnalysisResponse :=
  {| Scores :=
       {| MigrationIntent := Some (2 ^ 63 - 1); FinancialUnderstanding := Some 1;
          AcademicCredibility := None; SpecificityResearch := None;
          Consistency := None; CommunicationQuality := None;
          RedFlags := None; TotalScore := 0 |};
     Classification := "Weak";
     Feedback := Feedback DemoReply.analysis |}.

Definition unmarshalAnalysis (json : bytes) : option AnalysisResponse :=
  if bool_decide (json = object) then Some analysis else None.

(** What is returned for [object]. *)
Definition result : AnalysisResponse := with_total analysis (- 2 ^ 63).

End DemoLarge.

(** C1 as stated fails: the two scores of this reply sum to [2 ^ 63], which
    is no [int]; the total stored is [- 2 ^ 63]. *)
Lemma large_scores_wrap_total :
  decodeReply DemoLarge.unmarshalAnalysis DemoLarge.object
  = (inr DemoLarge.result, [])
  ∧ presentScores (Scores DemoLarge.result) = [2 ^ 63 - 1; 1]
  ∧ sum_scores (presentScores (Scores DemoLarge.result)) = 2 ^ 63
  ∧ TotalScore (Scores DemoLarge.result) = - 2 ^ 63
  ∧ TotalScore (Scores DemoLarge.result)
    ≠ sum_scores (presentScores (Scores DemoLarge.result)).
Proof. repeat split; by vm_compute. Qed.

(** Replies that hold one object and are not cut down to it. *)
Module DemoBraces.

(** Prose that uses braces. *)
Definition prose : bytes := list_ascii_of_string "Use {braces} with care: ".

(** An object with braces inside a string. *)
Definition object : bytes :=
  DemoReply.requote "{'scores':{'consistency':4,'total_score':4},'classification':'Weak','feedback':{'overall':'Write }} after {{ in essays.'}}".

(** What the scan makes of [object]. *)
Definition cut : bytes :=
  DemoReply.requote "{'scores':{'consistency':4,'total_score':4},'classification':'Weak','feedback':{'overall':'Write }}".

Definition analysis : AnalysisResponse :=
  {| Scores :=
       {| MigrationIntent := None; FinancialUnderstanding := None;
          AcademicCredibility := None; SpecificityResearch := None;
          Consistency := Some 4; CommunicationQuality := None;
          RedFlags := None; TotalScore := 4 |};
     Classification := "Weak";
     Feedback :=
       {| Overall := "Write }} after {{ in essays.";
          ByCriterion := ByCriterion DemoSession.noFeedback;
          Improvements := [] |} |}.

(** The decoder: it accepts the two objects, and neither [{braces}] nor
    [cut], which are not JSON. *)
Definition unmarshalAnalysis (json : bytes) : option AnalysisResponse :=
  if bool_decide (json = DemoReply.object) then Some DemoReply.analysis
  else if bool_decide (json = object) then Some analysis
  else None.

Definition decode : bytes → (Error + AnalysisResponse) * list Mismatch :=
  decodeReply unmarshalAnalysis.

End DemoBraces.

(** C4 as stated fails twice.  After prose that uses braces, the first
    brace pair of the prose is cut out instead of the object, and the
    decoder refuses it.  And an object whose braces are balanced, two of
    them closing and two opening inside a string, between prose without
    any brace, is cut off inside that string, and the decoder refuses what
    is left. *)
Lemma object_not_isolated :
  (balanced DemoReply.object
   ∧ DemoBraces.unmarshalAnalysis DemoReply.object = Some DemoReply.analysis
   ∧ extractJSON (DemoBraces.prose ++ DemoReply.object)
     = inr (list_ascii_of_string "{braces}")
   ∧ DemoBraces.decode (DemoBraces.prose ++ DemoReply.object)
     = (inl ErrParseAnalysis, []))
  ∧ (balanced DemoBraces.object
     ∧ DemoBraces.unmarshalAnalysis DemoBraces.object = Some DemoBraces.analysis
     ∧ (lbrace ∉ list_ascii_of_string "Here is my evaluation: ")
     ∧ (lbrace ∉ list_ascii_of_string " Good luck.")
     ∧ extractJSON (list_ascii_of_string "Here is my evaluation: "
                      ++ DemoBraces.object
                      ++ list_ascii_of_string " Good luck.")
       = inr DemoBraces.cut
     ∧ DemoBraces.decode (list_ascii_of_string "Here is my evaluation: "
                            ++ DemoBraces.object
                            ++ list_ascii_of_string " Good luck.")
       = (inl ErrParseAnalysis, [])).
Proof.
  repeat split; try (by vm_compute);
    apply (bool_decide_unpack _); by vm_compute.
Qed.

(** * Further properties of the code

    The rest of the two files, and what the functions above do beyond the
    properties of the specification. *)

(** ** [SelectQuestionsForSession]: identifiers *)

(** [fmt.Sprintf("q%d_%s", n, sanitizeCategory(category))] *)
Definition questionID (n : nat) (category : string) : string :=
  "q" +:+ pretty n +:+ "_" +:+ sanitizeCategory category.

(** A string of decimal digits. *)
Fixpoint digits_only (s : string) : Prop :=
  match s with
  | EmptyString => True
  | String c r => between 48 57 c = true ∧ digits_only r
  end.

Lemma pretty_N_char_digit x : between 48 57 (pretty_N_char x) = true.
Proof. unfold pretty_N_char. by repeat case_match. Qed.

Lemma pretty_N_go_digits x : ∀ s, digits_only s → digits_only (pretty_N_go x s).
Proof.
  induction (N.lt_wf_0 x) as [x _ IH]. intros s Hs.
  destruct (N.eq_dec x 0%N) as [->|Hx]; [by rewrite pretty_N_go_0|].
  rewrite pretty_N_go_step by lia.
  apply IH; [apply N.div_lt; lia|]. split; [apply pretty_N_char_digit|done].
Qed.

Lemma pretty_nat_digits (n : nat) : digits_only (pretty n).
Proof.
  unfold pretty, pretty_nat, pretty, pretty_N.
  case_decide; [done|]. by apply pretty_N_go_digits.
Qed.

(** The digits end at the first character that is not one. *)
Lemma digits_sep a : ∀ b c s s',
  digits_only a → digits_only b → between 48 57 c = false →
  a +:+ String c s = b +:+ String c s' → a = b.
Proof.
  induction a as [|x a IH]; intros [|y b] c s s' Ha Hb Hc Heq; simpl in *.
  - done.
  - injection Heq as <- _. destruct Hb as [Hb _]. congruence.
  - injection Heq as -> _. destruct Ha as [Ha _]. congruence.
  - injection Heq as -> Heq. f_equal.
    destruct Ha as [_ Ha], Hb as [_ Hb]. by apply (IH b c s s').
Qed.

Lemma questionID_inj n m c c' : questionID n c = questionID m c' → n = m.
Proof.
  unfold questionID. intros Heq. injection Heq as Heq.
  apply (inj pretty).
  apply (digits_sep _ _ "_"%char (sanitizeCategory c) (sanitizeCategory c'));
    [apply pretty_nat_digits|apply pretty_nat_digits|done|done].
Qed.

(** Every question carries the identifier of its place in the list. *)
Definition numbered (qs : list Question) : Prop :=
  ∀ i q, qs !! i = Some q → ID q = questionID (i + 1) (Category q).

Lemma numbered_nil : numbered [].
Proof. intros i q Hq. by rewrite lookup_nil in Hq. Qed.

Lemma numbered_snoc qs category text :
  numbered qs → numbered (qs ++ [newQuestion qs category text]).
Proof.
  intros Hqs i q Hq. apply lookup_app_Some in Hq as [Hq|[Hlen Hq]]; [by apply Hqs|].
  apply list_lookup_singleton_Some in Hq as [Hi <-]. simpl.
  unfold questionID. by replace (i + 1)%nat with (length qs + 1)%nat by lia.
Qed.

Lemma numbered_appendAll texts : ∀ qs category,
  numbered qs → numbered (appendAll qs category texts).
Proof.
  induction texts as [|t texts IH]; intros qs category Hqs; [done|].
  unfold appendAll. simpl. apply IH. by apply numbered_snoc.
Qed.

Lemma numbered_NoDup qs : numbered qs → NoDup (ID <$> qs).
Proof.
  intros Hqs. apply NoDup_alt. intros i j x Hi Hj.
  apply list_lookup_fmap_Some in Hi as (q & -> & Hi).
  apply list_lookup_fmap_Some in Hj as (q' & Heq & Hj).
  rewrite (Hqs i q Hi), (Hqs j q' Hj) in Heq.
  apply questionID_inj in Heq. lia.
Qed.
(** ** [SelectQuestionsForSession]: every tier, every bank *)

Section SelectionShape.

Variable RNG : Type.
Variable Seed : Z → RNG → RNG.
Variable Shuffle : list string → RNG → list string * RNG.
Variable Intn : nat → RNG → nat * RNG.
Variable QuestionsByCategory : gmap string (list string).

Hypothesis Shuffle_perm : ∀ l g, (Shuffle l g).1 ≡ₚ l.
Hypothesis Intn_lt : ∀ n g, (0 < n)%nat → ((Intn n g).1 < n)%nat.

Local Abbreviation select :=
  (SelectQuestionsForSession RNG Seed Shuffle Intn QuestionsByCategory).
Local Abbreviation listed := (texts_of QuestionsByCategory).

(** The categories a tier draws from. *)
Definition tierCategories (level : string) : list string :=
  if bool_decide (level = "easy") then easyCategories else allCategories.

(** Every question belongs to one of [categories], which lists its text. *)
Definition from_bank (categories : list string) (qs : list Question) : Prop :=
  Forall (λ q, Category q ∈ categories ∧ Text q ∈ listed (Category q)) qs.

(** What the loops keep: the identifiers and the origin. *)
Definition sound (categories : list string) (qs : list Question) : Prop :=
  numbered qs ∧ from_bank categories qs.

Lemma sound_nil categories : sound categories [].
Proof. split; [apply numbered_nil|constructor]. Qed.

Lemma from_bank_appendAll categories texts : ∀ qs c,
  c ∈ categories → (∀ t, t ∈ texts → t ∈ listed c) →
  from_bank categories qs → from_bank categories (appendAll qs c texts).
Proof.
  induction texts as [|t texts IH]; intros qs c Hc Hin Hqs; [done|].
  unfold appendAll. simpl. apply IH; [done|by intros t' ?; apply Hin; right|].
  apply Forall_app. split; [done|]. constructor; [|constructor]. simpl.
  split; [done|]. apply Hin. by left.
Qed.

Lemma sound_appendAll categories texts qs c :
  c ∈ categories → (∀ t, t ∈ texts → t ∈ listed c) →
  sound categories qs → sound categories (appendAll qs c texts).
Proof.
  intros Hc Hin [Hn Hf]. split; [by apply numbered_appendAll|].
  by apply from_bank_appendAll.
Qed.

(** The categories of [cats] that list a question. *)
Definition stocked (cats : list string) : list string :=
  filter (λ c, listed c ≠ []) cats.

Lemma replicate_stocked c (new : list string) :
  (length new ≤ 1)%nat → (listed c ≠ [] → length new = 1%nat) →
  (∀ t, t ∈ new → t ∈ listed c) →
  replicate (length new) c = stocked [c].
Proof.
  intros Hle Hone Hin. unfold stocked.
  destruct (decide (listed c = [])) as [He|Hne].
  - rewrite filter_cons_False, filter_nil by (by intros ?).
    destruct new as [|t new]; [done|].
    specialize (Hin t ltac:(by left)). rewrite He in Hin. by apply elem_of_nil in Hin.
  - rewrite filter_cons_True, filter_nil by done. by rewrite (Hone Hne).
Qed.

Lemma stocked_cons c cats : stocked (c :: cats) = stocked [c] ++ stocked cats.
Proof. unfold stocked. by rewrite (filter_app _ [c] cats). Qed.

(** The easy loop. *)
Lemma easy_loop_shape categories cats : ∀ sel g,
  (∀ c, c ∈ cats → c ∈ categories) → sound categories sel →
  ∃ sel' g',
    forEach (easyBody RNG Shuffle QuestionsByCategory) cats (sel, g) = Some (sel', g')
    ∧ sound categories sel'
    ∧ Category <$> sel' = (Category <$> sel) ++ stocked cats.
Proof.
  induction cats as [|c cats IH]; intros sel g Hcats Hsel.
  { exists sel, g. rewrite forEach_nil. by rewrite app_nil_r. }
  rewrite forEach_cons.
  destruct (easyBody_spec RNG Shuffle QuestionsByCategory Shuffle_perm sel g c)
    as (new & g1 & -> & Hlen & Hone & Hnew). simpl.
  destruct (IH (appendAll sel c new) g1) as (sel' & g' & -> & Hs & Hc).
  { intros c' Hc'. apply Hcats. by right. }
  { apply sound_appendAll; [apply Hcats; by left|done|done]. }
  exists sel', g'. split; [done|]. split; [done|].
  rewrite Hc, appendAll_Category, stocked_cons, <- app_assoc.
  by rewrite (replicate_stocked c new).
Qed.

(** The first loop of the medium tier. *)
Lemma medium_loop_shape categories cats : ∀ sel txts g,
  (∀ c, c ∈ cats → c ∈ categories) → sound categories sel →
  (∀ t, t ∈ txts ↔ t ∈ Text <$> sel) →
  ∃ sel' txts' g',
    forEach (mediumBody RNG Shuffle QuestionsByCategory) cats (sel, txts, g)
    = Some (sel', txts', g')
    ∧ sound categories sel'
    ∧ (∀ t, t ∈ txts' ↔ t ∈ Text <$> sel')
    ∧ Category <$> sel' = (Category <$> sel) ++ stocked cats.
Proof.
  induction cats as [|c cats IH]; intros sel txts g Hcats Hsel Hset.
  { exists sel, txts, g. rewrite forEach_nil. by rewrite app_nil_r. }
  rewrite forEach_cons.
  destruct (mediumBody_spec RNG Shuffle QuestionsByCategory Shuffle_perm sel txts g c)
    as (new & g1 & -> & Hlen & Hone & Hnew). simpl.
  destruct (IH (appendAll sel c new) (list_to_set new ∪ txts) g1)
    as (sel' & txts' & g' & -> & Hs & Hset' & Hc).
  { intros c' Hc'. apply Hcats. by right. }
  { apply sound_appendAll; [apply Hcats; by left|done|done]. }
  { intros t. rewrite appendAll_Text, elem_of_union, elem_of_list_to_set,
      elem_of_app, Hset. tauto. }
  exists sel', txts', g'. split; [done|]. split; [done|]. split; [done|].
  rewrite Hc, appendAll_Category, stocked_cons, <- app_assoc.
  by rewrite (replicate_stocked c new).
Qed.

(** The loop of the hard tier. *)
Lemma hard_loop_shape categories cats : ∀ sel txts g,
  (∀ c, c ∈ cats → c ∈ categories) → sound categories sel →
  ∃ sel' txts' g',
    forEach (hardBody RNG Shuffle QuestionsByCategory) cats (sel, txts, g)
    = Some (sel', txts', g')
    ∧ sound categories sel'.
Proof.
  induction cats as [|c cats IH]; intros sel txts g Hcats Hsel.
  { exists sel, txts, g. by rewrite forEach_nil. }
  rewrite forEach_cons.
  destruct (hardBody_spec RNG Shuffle QuestionsByCategory Shuffle_perm sel txts g c)
    as (new & rest & g1 & -> & Hlen & Hperm). simpl.
  apply IH; [intros c' Hc'; apply Hcats; by right|].
  apply sound_appendAll; [apply Hcats; by left| |done].
  intros t Ht.
  assert (Hu : t ∈ unselected txts (listed c)).
  { rewrite <- Hperm. apply elem_of_app. by left. }
  by apply unselected_elem in Hu as [_ Hu].
Qed.

(** The extra question of the medium tier: none, or one of a category of
    the list, with a text that was not selected before. *)
Lemma mediumExtra_shape sel txts g :
  sound allCategories sel →
  ∃ sel' g',
    mediumExtra RNG Shuffle Intn QuestionsByCategory (sel, txts, g) = Some (sel', g')
    ∧ sound allCategories sel'
    ∧ (sel' = sel
       ∨ ∃ c t, c ∈ allCategories ∧ t ∈ listed c ∧ (t ∉ txts)
                ∧ sel' = sel ++ [newQuestion sel c t])
    ∧ ((∀ c, c ∈ allCategories → unselected txts (listed c) ≠ []) → sel' ≠ sel).
Proof.
  intros Hsel. unfold mediumExtra.
  case_bool_decide as Hpos; [|exfalso; apply Hpos; simpl; lia].
  pose proof (Intn_lt (length allCategories) g Hpos) as Hi.
  destruct (Intn (length allCategories) g) as [i g1]. simpl in Hi.
  destruct (lookup_lt_is_Some_2 allCategories i Hi) as [c Hc]. rewrite Hc. simpl.
  apply list_elem_of_lookup_2 in Hc.
  assert (Hskip : listed c = [] ∨ unselected txts (listed c) = [] →
    ∃ sel' g', Some (sel, g1) = Some (sel', g') ∧ sound allCategories sel'
      ∧ (sel' = sel ∨ ∃ c t, c ∈ allCategories ∧ t ∈ listed c ∧ (t ∉ txts)
                             ∧ sel' = sel ++ [newQuestion sel c t])
      ∧ ((∀ c, c ∈ allCategories → unselected txts (listed c) ≠ []) → sel' ≠ sel)).
  { intros Hnone. exists sel, g1. split; [done|]. split; [done|]. split; [by left|].
    intros Hall. exfalso. destruct Hnone as [He|He]; [|by apply (Hall c)].
    apply (Hall c Hc). by rewrite He. }
  unfold texts_of in Hskip.
  destruct (QuestionsByCategory !! c) as [[|q questions]|] eqn:Hq;
    [apply Hskip; by left| |apply Hskip; by left].
  simpl in Hskip.
  destruct (unselected txts (q :: questions)) as [|a available] eqn:Hav;
    [apply Hskip; by right|].
  pose proof (Shuffle_perm (a :: available) g1) as Hperm.
  destruct (Shuffle (a :: available) g1) as [[|t shuffled] g2].
  { simpl in Hperm. by apply Permutation_nil_cons in Hperm. }
  simpl in *.
  assert (Ht : t ∈ unselected txts (q :: questions)).
  { rewrite Hav, <- Hperm. by left. }
  apply unselected_elem in Ht as [Hfresh Hin].
  assert (Hl : t ∈ listed c) by (unfold texts_of; by rewrite Hq).
  eexists _, _. split; [done|]. split; [|split].
  - destruct Hsel as [Hn Hf]. split; [by apply numbered_snoc|].
    apply Forall_app. split; [done|]. by constructor.
  - right. by exists c, t.
  - intros _ Heq. apply (f_equal length) in Heq. rewrite length_app in Heq.
    simpl in Heq. lia.
Qed.

(** Whatever the tier, the bank and the draws, the selection returns, and
    the loops' invariant holds of what it returns. *)
Lemma selection_sound (now : Z) (level : string) (g : RNG) :
  ∃ qs g', select now level g = Some (qs, g') ∧ sound (tierCategories level) qs.
Proof.
  unfold SelectQuestionsForSession, tierCategories.
  case_bool_decide as Heasy.
  { destruct (easy_loop_shape easyCategories easyCategories [] (Seed now g))
      as (qs & g' & Hrun & Hs & _); [done|apply sound_nil|].
    by exists qs, g'. }
  case_bool_decide as Hmedium.
  { destruct (medium_loop_shape allCategories allCategories [] ∅ (Seed now g))
      as (sel & txts & g1 & Hrun & Hs & _); [done|apply sound_nil| |].
    { intros t. split; [by intros ?%not_elem_of_empty|by intros ?%elem_of_nil]. }
    rewrite Hrun. simpl.
    destruct (mediumExtra_shape sel txts g1 Hs) as (qs & g' & Hx & Hs' & _).
    by exists qs, g'. }
  destruct (bool_decide (level = "hard") || bool_decide (level = EmptyString)).
  { destruct (hard_loop_shape allCategories allCategories [] ∅ (Seed now g))
      as (sel & txts & g1 & Hrun & Hs); [done|apply sound_nil|].
    rewrite Hrun. simpl. by exists sel, g1. }
  exists [], (Seed now g). split; [done|apply sound_nil].
Qed.


(** X2: the question at place [i] (counted from 0) carries the identifier
    ["q"], [i + 1] in decimal, ["_"], the sanitized category; so no two
    questions of a selection carry the same identifier. *)
Theorem selection_identifiers (now : Z) (level : string) (g : RNG) :
  ∃ qs g',
    select now level g = Some (qs, g')
    ∧ (∀ i q, qs !! i = Some q → ID q = questionID (i + 1) (Category q))
    ∧ NoDup (ID <$> qs).
Proof.
  destruct (selection_sound now level g) as (qs & g' & Hrun & Hn & _).
  exists qs, g'. split; [done|]. split; [done|by apply numbered_NoDup].
Qed.

Lemma stocked_all cats : (∀ c, c ∈ cats → listed c ≠ []) → stocked cats = cats.
Proof.
  induction cats as [|c cats IH]; intros Hall; [done|].
  unfold stocked in *. rewrite filter_cons_True by (apply Hall; by left).
  f_equal. apply IH. intros c' Hc'. apply Hall. by right.
Qed.

(** X3: the easy tier returns one question for each of its four categories
    that the bank lists with at least one question, in the order of the
    categories, and skips the others; so four questions when the bank
    stocks all four. *)
Theorem easy_tier_one_per_category (now : Z) (g : RNG) :
  ∃ qs g',
    select now "easy" g = Some (qs, g')
    ∧ Category <$> qs = stocked easyCategories
    ∧ ((∀ c, c ∈ easyCategories → listed c ≠ []) →
       Category <$> qs = easyCategories ∧ length qs = 4%nat).
Proof.
  destruct (easy_loop_shape easyCategories easyCategories [] (Seed now g))
    as (qs & g' & Hrun & _ & Hcat); [done|apply sound_nil|].
  exists qs, g'. split; [done|]. split; [done|]. intros Hall.
  rewrite (stocked_all _ Hall) in Hcat. split; [done|].
  by rewrite <- (length_fmap Category), Hcat.
Qed.

(** [c] lists two different questions that no other category lists. *)
Definition two_apart (c : string) : Prop :=
  ∃ q1 q2, q1 ≠ q2 ∧ q1 ∈ listed c ∧ q2 ∈ listed c
           ∧ fresh QuestionsByCategory allCategories c q1
           ∧ fresh QuestionsByCategory allCategories c q2.

(** After one question for each category, a category with two questions of
    its own still has one to give. *)
Lemma two_apart_unselected sel txts c :
  from_bank allCategories sel → Category <$> sel = allCategories →
  (∀ t, t ∈ txts ↔ t ∈ Text <$> sel) →
  c ∈ allCategories → two_apart c → unselected txts (listed c) ≠ [].
Proof.
  intros Hfrom Hcat Hset Hc (q1 & q2 & Hne & H1 & H2 & Hf1 & Hf2) Hnone.
  assert (Hall : ∀ q, q ∈ listed c → q ∈ txts).
  { intros q Hq. destruct (decide (q ∈ txts)) as [|Hn]; [done|].
    assert (Hu : q ∈ unselected txts (listed c)) by (by apply unselected_elem).
    rewrite Hnone in Hu. by apply elem_of_nil in Hu. }
  assert (Hplace : ∀ q, q ∈ listed c → fresh QuestionsByCategory allCategories c q →
    ∃ i a, sel !! i = Some a ∧ Text a = q ∧ Category a = c).
  { intros q Hq Hfresh. apply Hall, Hset in Hq.
    apply list_elem_of_fmap in Hq as (a & -> & Ha).
    apply list_elem_of_lookup in Ha as [i Hi]. exists i, a.
    split; [done|]. split; [done|].
    unfold from_bank in Hfrom. rewrite Forall_forall in Hfrom.
    destruct (Hfrom a (list_elem_of_lookup_2 _ _ _ Hi)) as [Hca Hta].
    destruct (decide (Category a = c)) as [|Hd]; [done|].
    by destruct (Hfresh (Category a) Hca Hd). }
  destruct (Hplace q1 H1 Hf1) as (i & a & Hi & Hta & Hca).
  destruct (Hplace q2 H2 Hf2) as (j & b & Hj & Htb & Hcb).
  assert (Hij : i = j).
  { pose proof allCategories_NoDup as Hnd. rewrite <- Hcat in Hnd.
    apply (NoDup_lookup _ i j c Hnd); rewrite list_lookup_fmap.
    - by rewrite Hi; simpl; rewrite Hca.
    - by rewrite Hj; simpl; rewrite Hcb. }
  subst j. rewrite Hi in Hj. injection Hj as <-. congruence.
Qed.

(** X4: the medium tier returns one question for each of the six
    categories the bank stocks, in their order, and then at most one more,
    of one of the six categories, with a text that differs from the texts
    before it; when every category lists two different questions that no
    other category lists, it returns seven questions. *)
Theorem medium_tier_six_and_one (now : Z) (g : RNG) :
  ∃ qs extra g',
    select now "medium" g = Some (qs ++ extra, g')
    ∧ Category <$> qs = stocked allCategories
    ∧ (extra = []
       ∨ ∃ q, extra = [q] ∧ Category q ∈ allCategories
              ∧ Text q ∈ listed (Category q) ∧ Text q ∉ Text <$> qs)
    ∧ ((∀ c, c ∈ allCategories → two_apart c) →
       Category <$> qs = allCategories ∧ length (qs ++ extra) = 7%nat).
Proof.
  destruct (medium_loop_shape allCategories allCategories [] ∅ (Seed now g))
    as (sel & txts & g1 & Hrun & Hs & Hset & Hcat); [done|apply sound_nil| |].
  { intros t. split; [by intros ?%not_elem_of_empty|by intros ?%elem_of_nil]. }
  destruct (mediumExtra_shape sel txts g1 Hs) as (sel' & g' & Hx & _ & Hcase & Hmore).
  assert (Hsel : ∃ extra, sel' = sel ++ extra
    ∧ (extra = []
       ∨ ∃ q, extra = [q] ∧ Category q ∈ allCategories
              ∧ Text q ∈ listed (Category q) ∧ Text q ∉ Text <$> sel)).
  { destruct Hcase as [->|(c & t & Hc & Ht & Hfresh & ->)].
    - exists []. split; [by rewrite app_nil_r|by left].
    - exists [newQuestion sel c t]. split; [done|]. right.
      exists (newQuestion sel c t). simpl. repeat split; try done.
      by rewrite <- Hset. }
  destruct Hsel as (extra & -> & Hextra).
  exists sel, extra, g'. split.
  { unfold SelectQuestionsForSession. simpl. rewrite Hrun. simpl. exact Hx. }
  split; [done|]. split; [done|]. intros Hall.
  assert (Hst : stocked allCategories = allCategories).
  { apply stocked_all. intros c Hc He.
    destruct (Hall c Hc) as (q1 & _ & _ & H1 & _). rewrite He in H1.
    by apply elem_of_nil in H1. }
  simpl in Hcat. rewrite Hst in Hcat. split; [done|].
  assert (Hne : sel ++ extra ≠ sel).
  { apply Hmore. intros c Hc.
    apply (two_apart_unselected sel txts c); [apply Hs|done|done|done|by apply Hall]. }
  assert (Hlen : length sel = 6%nat) by (by rewrite <- (length_fmap Category), Hcat).
  rewrite length_app, Hlen.
  destruct Hextra as [->|(q & -> & _)]; [by rewrite app_nil_r in Hne|done].
Qed.

End SelectionShape.
(** The bank of the examples stocks every category with questions of its
    own. *)
Lemma Demo_bank_two_apart c : c ∈ allCategories → two_apart Demo.bank c.
Proof.
  intros Hc.
  assert (Hdis : disjoint_categories Demo.bank allCategories).
  { apply disjointb_correct. by vm_compute. }
  assert (Hq : ∃ q1 q2 l, texts_of Demo.bank c = q1 :: q2 :: l ∧ q1 ≠ q2).
  { unfold allCategories in Hc.
    repeat (apply elem_of_cons in Hc as [->|Hc]; [by eexists _, _, _|]).
    by apply elem_of_nil in Hc. }
  destruct Hq as (q1 & q2 & l & Hl & Hne).
  exists q1, q2. rewrite Hl. split; [done|].
  split; [by left|]. split; [right; by left|].
  split; intros c' Hc' Hd Hin.
  - apply (Hdis c c' q1); [done|done|done| |done]. rewrite Hl. by left.
  - apply (Hdis c c' q2); [done|done|done| |done]. rewrite Hl. right. by left.
Qed.


Lemma selection_identifiers_witness :
  ∃ qs g',
    Demo.select Demo.bank 1 "medium" 0 = Some (qs, g')
    ∧ (∀ i q, qs !! i = Some q → ID q = questionID (i + 1) (Category q))
    ∧ NoDup (ID <$> qs).
Proof.
  apply (selection_identifiers Z Demo.Seed Demo.Shuffle Demo.Intn Demo.bank
           Demo.Shuffle_perm Demo.Intn_lt 1 "medium" 0).
Defined.

Lemma easy_tier_one_per_category_witness :
  ∃ qs g',
    Demo.select Demo.bank 1 "easy" 0 = Some (qs, g')
    ∧ Category <$> qs = easyCategories ∧ length qs = 4%nat.
Proof.
  destruct (easy_tier_one_per_category Z Demo.Seed Demo.Shuffle Demo.Intn Demo.bank
              Demo.Shuffle_perm 1 0) as (qs & g' & Hrun & _ & Hfour).
  exists qs, g'. split; [exact Hrun|]. apply Hfour.
  intros c Hc He. destruct (Demo_bank_two_apart c) as (q & _ & _ & Hq & _).
  - unfold allCategories, easyCategories in *.
    repeat (apply elem_of_cons in Hc as [->|Hc]; [set_solver|]).
    by apply elem_of_nil in Hc.
  - rewrite He in Hq. by apply elem_of_nil in Hq.
Defined.

Lemma medium_tier_six_and_one_witness :
  ∃ qs extra g',
    Demo.select Demo.bank 1 "medium" 0 = Some (qs ++ extra, g')
    ∧ Category <$> qs = allCategories ∧ length (qs ++ extra) = 7%nat.
Proof.
  destruct (medium_tier_six_and_one Z Demo.Seed Demo.Shuffle Demo.Intn Demo.bank
              Demo.Shuffle_perm Demo.Intn_lt 1 0)
    as (qs & extra & g' & Hrun & _ & _ & Hseven).
  exists qs, extra, g'. split; [exact Hrun|].
  apply Hseven, Demo_bank_two_apart.
Defined.

(** ** [sanitizeCategory] *)

(** A letter or a digit of ASCII. *)
Definition alnum (c : ascii) : bool :=
  between 97 122 c || between 65 90 c || between 48 57 c.

(** A space or a slash. *)
Definition separator (c : ascii) : bool := byte_is c 32 || byte_is c 47.

Definition underscore : ascii := "_"%char.

Lemma sanitizeCategory_String c category :
  sanitizeCategory (String c category)
  = string_of_list_ascii (sanitizeChar c) +:+ sanitizeCategory category.
Proof.
  unfold sanitizeCategory. cbn [list_ascii_of_string map concat].
  generalize (sanitizeChar c). intros l. induction l as [|x l IH]; [done|].
  simpl. by rewrite IH.
Qed.

Lemma append_one c (s : string) : String c EmptyString +:+ s = String c s.
Proof. reflexivity. Qed.

Lemma append_none (s : string) : EmptyString +:+ s = s.
Proof. reflexivity. Qed.

Lemma sanitizeChar_cases c :
  (alnum c = true ∧ sanitizeChar c = [c])
  ∨ (alnum c = false ∧ separator c = true ∧ sanitizeChar c = [underscore])
  ∨ (alnum c = false ∧ separator c = false ∧ sanitizeChar c = []).
Proof.
  unfold sanitizeChar. fold (alnum c) (separator c).
  destruct (alnum c); [by left|]. destruct (separator c); [right; by left|].
  right. by right.
Qed.

(** The characters a category keeps or has replaced. *)
Definition kept (category : string) : list ascii :=
  filter (λ c, alnum c = true ∨ separator c = true) (list_ascii_of_string category).

(** What is written for a character that is kept. *)
Definition written (c : ascii) : ascii := if alnum c then c else underscore.

(** X5: [sanitizeCategory] keeps letters and digits, writes an underscore
    for each space and each slash, and drops every other character (a
    hyphen, for one): what it returns is the category without the
    characters that are no letter, digit, space or slash, with an
    underscore in the place of each space and each slash.  So it consists
    of letters, digits and underscores, has one character for each
    letter, digit, space and slash of the category, is the category itself
    when that consists of letters and digits, and is computed piece by
    piece. *)
Theorem sanitizeCategory_alphabet (category : string) :
  Forall (λ c, alnum c = true ∨ c = underscore)
    (list_ascii_of_string (sanitizeCategory category))
  ∧ String.length (sanitizeCategory category) = length (kept category)
  ∧ (Forall (λ c, alnum c = true) (list_ascii_of_string category) →
     sanitizeCategory category = category)
  ∧ (∀ rest, sanitizeCategory (category +:+ rest)
             = sanitizeCategory category +:+ sanitizeCategory rest)
  ∧ list_ascii_of_string (sanitizeCategory category) = written <$> kept category.
Proof.
  induction category as [|c category (IH1 & IH2 & IH3 & IH4 & IH5)].
  { by repeat split. }
  rewrite sanitizeCategory_String. unfold kept in *.
  cbn [list_ascii_of_string].
  destruct (sanitizeChar_cases c) as [[Ha ->]|[(Ha & Hs & ->)|(Ha & Hs & ->)]];
    cbn [string_of_list_ascii list_ascii_of_string];
    rewrite ?append_one, ?append_none; cbn [list_ascii_of_string String.length].
  - rewrite filter_cons_True by (by left). split; [constructor; [by left|done]|].
    split; [simpl; by rewrite IH2|]. split; [|split].
    + intros Hall. apply Forall_cons in Hall as [_ Hall]. by rewrite IH3.
    + intros rest. change (String c category +:+ rest) with (String c (category +:+ rest)).
      rewrite sanitizeCategory_String, IH4.
      destruct (sanitizeChar_cases c) as [[_ ->]|[(? & _)|(? & _)]]; [done|congruence..].
    + rewrite fmap_cons, <- IH5. unfold written. by rewrite Ha.
  - rewrite filter_cons_True by (by right). split; [constructor; [by right|done]|].
    split; [simpl; by rewrite IH2|]. split; [|split].
    + intros Hall. apply Forall_cons in Hall as [Hc _]. congruence.
    + intros rest. change (String c category +:+ rest) with (String c (category +:+ rest)).
      rewrite sanitizeCategory_String, IH4.
      destruct (sanitizeChar_cases c) as [[? _]|[(_ & _ & ->)|(_ & ? & _)]];
        [congruence|done|congruence].
    + rewrite fmap_cons, <- IH5. unfold written. by rewrite Ha.
  - rewrite filter_cons_False by (intros [?|?]; congruence). split; [done|].
    split; [done|]. split; [|split].
    + intros Hall. apply Forall_cons in Hall as [Hc _]. congruence.
    + intros rest. change (String c category +:+ rest) with (String c (category +:+ rest)).
      rewrite sanitizeCategory_String, IH4.
      destruct (sanitizeChar_cases c) as [[? _]|[(_ & ? & _)|(_ & _ & ->)]];
        [congruence|congruence|done].
    + done.
Qed.

Lemma sanitizeCategory_alphabet_witness :
  sanitizeCategory "Visa101" = "Visa101"
  ∧ sanitizeCategory ("Post-Graduation" +:+ " Plans") = "PostGraduation_Plans"
  ∧ list_ascii_of_string (sanitizeCategory "a/b c")
    = written <$> kept "a/b c".
Proof.
  split; [|split].
  - destruct (sanitizeCategory_alphabet "Visa101") as (_ & _ & Hsame & _).
    apply Hsame. repeat constructor.
  - destruct (sanitizeCategory_alphabet "Post-Graduation") as (_ & _ & _ & Happ & _).
    rewrite Happ. reflexivity.
  - apply (sanitizeCategory_alphabet "a/b c").
Defined.

(** ** [LoadQuestions] and the package variable *)

Section LoadQuestionsState.

Variable ReadFile : string → option bytes.
Variable unmarshalCategories : bytes → option (gmap string (list string)).
Variable rulesOrder : list string.

Local Abbreviation load := (LoadQuestions ReadFile unmarshalCategories rulesOrder).

(** The mapping that the file at [path] decodes to. *)
Definition decoded (path : string) : option (gmap string (list string)) :=
  ReadFile path ≫= unmarshalCategories.

Lemma LoadQuestions_bank path (bank : gmap string (list string)) :
  (load path bank).1 = default bank (decoded path).
Proof.
  unfold LoadQuestions, decoded.
  destruct (ReadFile path) as [data|]; [|done]. simpl.
  destruct (unmarshalCategories data) as [categories|]; [|done]. simpl.
  rewrite copy_categories. by destruct (firstMissing rulesOrder categories).
Qed.

Lemma LoadQuestions_error path (bank bank' : gmap string (list string)) :
  (load path bank').2 = (load path bank).2.
Proof.
  unfold LoadQuestions.
  destruct (ReadFile path) as [data|]; [|done].
  destruct (unmarshalCategories data) as [categories|]; [|done].
  by destruct (firstMissing rulesOrder _).
Qed.

(** X6: [LoadQuestions] leaves [QuestionsByCategory] as it was when the
    file cannot be read or decoded, and otherwise replaces it by the
    decoded mapping, also when it then reports a missing category; the
    error it returns does not depend on what the variable held.  A second
    load of the same file, which visits the selection rules in an order of
    its own, leaves the same bank and succeeds exactly when the first did;
    its error is that of the first load, except that for a file that lacks
    several required categories it may name another of them. *)
Theorem LoadQuestions_state (again : list string) (path : string)
    (bank : gmap string (list string)) :
  (∀ category, category ∈ rulesOrder ↔ required category) →
  (∀ category, category ∈ again ↔ required category) →
  let first := load path bank in
  let second := LoadQuestions ReadFile unmarshalCategories again path first.1 in
  first.1 = default bank (decoded path)
  ∧ (∀ bank', (load path bank').2 = first.2)
  ∧ second.1 = first.1
  ∧ (second.2 = None ↔ first.2 = None)
  ∧ (second.2 = first.2
     ∨ ∃ categories category category',
         decoded path = Some categories
         ∧ first.2 = Some (ErrMissingCategory category)
         ∧ second.2 = Some (ErrMissingCategory category')
         ∧ required category ∧ categories !! category = None
         ∧ required category' ∧ categories !! category' = None).
Proof.
  intros Hkeys Hagain first second.
  split; [apply LoadQuestions_bank|].
  split; [intros bank'; apply LoadQuestions_error|].
  unfold second, first, LoadQuestions, decoded.
  destruct (ReadFile path) as [data|]; [|by repeat split; try left].
  cbn [mbind option_bind].
  destruct (unmarshalCategories data) as [categories|]; [|by repeat split; try left].
  rewrite copy_categories. simpl.
  assert (Hnone : firstMissing again categories = None
                  ↔ firstMissing rulesOrder categories = None).
  { rewrite !firstMissing_None. split; intros H category Hin.
    - apply H, Hagain, Hkeys, Hin.
    - apply H, Hkeys, Hagain, Hin. }
  destruct (firstMissing rulesOrder categories) as [category|] eqn:Hfirst;
    destruct (firstMissing again categories) as [category'|] eqn:Hsecond; simpl.
  - apply firstMissing_Some in Hfirst as [Hin Hmiss].
    apply firstMissing_Some in Hsecond as [Hin' Hmiss'].
    split; [done|]. split; [done|]. right.
    exists categories, category, category'.
    split; [done|]. split; [done|]. split; [done|].
    split; [by apply Hkeys|]. split; [done|]. split; [by apply Hagain|done].
  - discriminate (proj1 Hnone eq_refl).
  - discriminate (proj2 Hnone eq_refl).
  - split; [done|]. split; [done|]. by left.
Qed.

End LoadQuestionsState.

(** A questions file that lacks two required categories. *)
Module DemoTwoMissing.

Definition categories : gmap string (list string) :=
  delete "Immigration Intent" (delete "Purpose of Study" Demo.bank).

Definition unmarshalCategories (data : bytes) : option (gmap string (list string)) :=
  Some categories.

Lemma reverse_keys category :
  category ∈ reverse CategoryOrder ↔ required category.
Proof. rewrite elem_of_reverse. apply DemoFile.CategoryOrder_keys. Qed.

End DemoTwoMissing.

Lemma LoadQuestions_state_witness :
  (LoadQuestions DemoFile.ReadFile DemoTwoMissing.unmarshalCategories
     CategoryOrder "questions.json" ∅).2
  = Some (ErrMissingCategory "Purpose of Study")
  ∧ (LoadQuestions DemoFile.ReadFile DemoTwoMissing.unmarshalCategories
       (reverse CategoryOrder) "questions.json"
       (LoadQuestions DemoFile.ReadFile DemoTwoMissing.unmarshalCategories
          CategoryOrder "questions.json" ∅).1).2
    = Some (ErrMissingCategory "Immigration Intent")
  ∧ (LoadQuestions DemoFile.ReadFile DemoTwoMissing.unmarshalCategories
       (reverse CategoryOrder) "questions.json"
       (LoadQuestions DemoFile.ReadFile DemoTwoMissing.unmarshalCategories
          CategoryOrder "questions.json" ∅).1).1
    = (LoadQuestions DemoFile.ReadFile DemoTwoMissing.unmarshalCategories
         CategoryOrder "questions.json" ∅).1.
Proof.
  split; [by vm_compute|]. split; [by vm_compute|].
  apply (LoadQuestions_state DemoFile.ReadFile DemoTwoMissing.unmarshalCategories
           CategoryOrder (reverse CategoryOrder) "questions.json" ∅
           DemoFile.CategoryOrder_keys DemoTwoMissing.reverse_keys).
Defined.

(** ** [InitQuestions] *)

(** [fmt.Errorf("could not load questions.json from any of the tried
    paths: %w", lastErr)] *)
Inductive InitError :=
| ErrCouldNotLoad (lastErr : option Error).

Section InitQuestions.

(** [os.Getwd] and [os.Executable] ([None] when they return an error),
    [filepath.Join] and [filepath.Dir]. *)
Variable Getwd : option string.
Variable Executable : option string.
Variable Join : string → string → string.
Variable Dir : string → string.

Variable ReadFile : string → option bytes.
Variable unmarshalCategories : bytes → option (gmap string (list string)).
Variable rulesOrder : list string.

Local Abbreviation load := (LoadQuestions ReadFile unmarshalCategories rulesOrder).

Definition possiblePaths : list string :=
  let possiblePaths : list string := [] in
  let possiblePaths :=
    match Getwd with
    | Some wd =>
        possiblePaths
          ++ [ Join wd "interview/questions.json"; Join wd "questions.json" ]
    | None => possiblePaths
    end in
  let possiblePaths :=
    possiblePaths
      ++ [ "interview/questions.json"; "./interview/questions.json";
           "questions.json"; "./questions.json" ] in
  match Executable with
  | Some execPath =>
      let execDir := Dir execPath in
      possiblePaths
        ++ [ Join execDir "interview/questions.json"; Join execDir "questions.json" ]
  | None => possiblePaths
  end.

(** The loop over the paths: the bank it leaves, and [None] when a path
    loaded (the function returns [nil] there) or the last error when the
    paths ran out. *)
Fixpoint tryPaths (paths : list string) (bank : gmap string (list string))
    (lastErr : option Error)
  : gmap string (list string) * option (option Error) :=
  match paths with
  | [] => (bank, Some lastErr)
  | path :: rest =>
      match load path bank with
      | (bank, None) => (bank, None)
      | (bank, Some err) => tryPaths rest bank (Some err)
      end
  end.

Definition InitQuestions (bank : gmap string (list string))
  : gmap string (list string) * option InitError :=
  let '(bank, outcome) := tryPaths possiblePaths bank None in
  (bank, ErrCouldNotLoad <$> outcome).

(** [LoadQuestions] accepts the file at [path]. *)
Definition loads (path : string) : Prop := (load path ∅).2 = None.

Lemma loads_any path bank : (load path bank).2 = None ↔ loads path.
Proof.
  unfold loads.
  by rewrite (LoadQuestions_error ReadFile unmarshalCategories rulesOrder path ∅ bank).
Qed.

Lemma tryPaths_first before : ∀ path after bank lastErr,
  (∀ p, p ∈ before → ¬ loads p) → loads path →
  tryPaths (before ++ path :: after) bank lastErr
  = (default bank (decoded ReadFile unmarshalCategories path), None).
Proof.
  induction before as [|p before IH]; intros path after bank lastErr Hno Hyes; simpl.
  - apply loads_any with (bank := bank) in Hyes.
    pose proof (LoadQuestions_bank ReadFile unmarshalCategories rulesOrder path bank)
      as Hb.
    destruct (load path bank) as [b e]. simpl in *. by subst.
  - destruct (load p bank) as [b [e|]] eqn:Hp.
    + rewrite (IH path after b (Some e)); [|by intros ? ?; apply Hno; right|done].
      f_equal. unfold decoded.
      unfold loads, LoadQuestions in Hyes.
      destruct (ReadFile path) as [data|]; [|done]. simpl in *.
      by destruct (unmarshalCategories data).
    + exfalso. apply (Hno p); [by left|]. apply (loads_any p bank). by rewrite Hp.
Qed.

Lemma tryPaths_none paths : ∀ bank lastErr,
  (∀ p, p ∈ paths → ¬ loads p) →
  ∃ bank', tryPaths paths bank lastErr
           = (bank', Some (match last paths with
                           | Some p => (load p ∅).2
                           | None => lastErr
                           end)).
Proof.
  induction paths as [|p paths IH]; intros bank lastErr Hno; simpl.
  { by exists bank. }
  destruct (load p bank) as [b [e|]] eqn:Hp.
  - destruct (IH b (Some e)) as (bank' & ->); [by intros ? ?; apply Hno; right|].
    exists bank'. do 2 f_equal.
    destruct paths as [|p' paths].
    2: { change (last (p :: p' :: paths)) with (last (p' :: paths)).
         destruct (last (p' :: paths)) eqn:Hl; [done|]. by apply last_None in Hl. }
    simpl.
    pose proof (LoadQuestions_error ReadFile unmarshalCategories rulesOrder p ∅ bank)
      as He.
    rewrite Hp in He. simpl in He. by rewrite <- He.
  - exfalso. apply (Hno p); [by left|]. apply (loads_any p bank). by rewrite Hp.
Qed.

Lemma possiblePaths_last :
  last possiblePaths
  = Some (match Executable with
          | Some execPath => Join (Dir execPath) "questions.json"
          | None => "./questions.json"
          end).
Proof. unfold possiblePaths. by destruct Getwd, Executable. Qed.

Lemma first_loading paths :
  Exists loads paths →
  ∃ before path after,
    paths = before ++ path :: after
    ∧ (∀ p, p ∈ before → ¬ loads p) ∧ loads path.
Proof.
  induction 1 as [p l Hp|p l _ IH].
  - exists [], p, l. split; [done|]. split; [by intros ? ?%elem_of_nil|done].
  - destruct (decide (loads p)) as [Hp|Hp].
    + exists [], p, l. split; [done|]. split; [by intros ? ?%elem_of_nil|done].
    + destruct IH as (before & path & after & -> & Hno & Hyes).
      exists (p :: before), path, after. split; [done|]. split; [|done].
      intros p' [->|Hin]%elem_of_cons; [done|by apply Hno].
Qed.

(** X7: [InitQuestions] returns [nil] exactly when [LoadQuestions] accepts
    one of the candidate paths; the bank is then the mapping decoded from
    the first such path in the order of the candidates (working directory,
    the four relative paths, directory of the executable). *)
Theorem InitQuestions_first_path (bank : gmap string (list string)) :
  ((InitQuestions bank).2 = None ↔ ∃ path, path ∈ possiblePaths ∧ loads path)
  ∧ ∀ before path after,
      possiblePaths = before ++ path :: after →
      (∀ p, p ∈ before → ¬ loads p) → loads path →
      InitQuestions bank
      = (default bank (decoded ReadFile unmarshalCategories path), None).
Proof.
  assert (Hfirst : ∀ before path after,
    possiblePaths = before ++ path :: after →
    (∀ p, p ∈ before → ¬ loads p) → loads path →
    InitQuestions bank
    = (default bank (decoded ReadFile unmarshalCategories path), None)).
  { intros before path after Hsplit Hno Hyes. unfold InitQuestions.
    by rewrite Hsplit, (tryPaths_first before path after bank None Hno Hyes). }
  split; [|done]. split.
  - intros Hnil.
    destruct (decide (Exists loads possiblePaths)) as [Hex|Hno].
    { apply Exists_exists in Hex. exact Hex. }
    exfalso. rewrite <- Forall_Exists_neg, Forall_forall in Hno.
    unfold InitQuestions in Hnil.
    destruct (tryPaths_none possiblePaths bank None Hno) as (bank' & Hrun).
    by rewrite Hrun in Hnil.
  - intros (path & Hin & Hyes).
    assert (Hex : Exists loads possiblePaths) by (apply Exists_exists; eauto).
    clear path Hin Hyes.
    pose proof (first_loading possiblePaths Hex) as Hsplit.
    destruct Hsplit as (before & path & after & Hsplit & Hno & Hyes).
    by rewrite (Hfirst before path after Hsplit Hno Hyes).
Qed.

(** X8: when [LoadQuestions] accepts none of the candidates,
    [InitQuestions] returns the error of the last candidate, wrapped: the
    one for ["questions.json"] beside the executable or, when the
    executable is not known, the one for ["./questions.json"]; there are
    four to eight candidates, the four relative paths always among
    them. *)
Theorem InitQuestions_last_error (bank : gmap string (list string)) :
  (4 ≤ length possiblePaths ≤ 8)%nat
  ∧ [ "interview/questions.json"; "./interview/questions.json";
      "questions.json"; "./questions.json" ] ⊆ possiblePaths
  ∧ ((∀ path, path ∈ possiblePaths → ¬ loads path) →
     ∃ path err,
       last possiblePaths = Some path
       ∧ path = match Executable with
                | Some execPath => Join (Dir execPath) "questions.json"
                | None => "./questions.json"
                end
       ∧ (load path bank).2 = Some err
       ∧ (InitQuestions bank).2 = Some (ErrCouldNotLoad (Some err))).
Proof.
  split; [|split].
  - unfold possiblePaths. destruct Getwd, Executable; simpl; lia.
  - unfold possiblePaths. intros x Hx.
    destruct Getwd, Executable; simpl; rewrite !elem_of_cons in *; tauto.
  - intros Hno. unfold InitQuestions.
    destruct (tryPaths_none possiblePaths bank None Hno) as (bank' & ->).
    rewrite possiblePaths_last. simpl.
    set (path := match Executable with
                 | Some execPath => Join (Dir execPath) "questions.json"
                 | None => "./questions.json"
                 end).
    assert (Hin : path ∈ possiblePaths).
    { apply list_elem_of_lookup. exists (pred (length possiblePaths)).
      rewrite <- last_lookup. apply possiblePaths_last. }
    destruct ((load path ∅).2) as [err|] eqn:He; [|by destruct (Hno path Hin)].
    exists path, err. split; [done|]. split; [done|]. split; [|done].
    by rewrite (LoadQuestions_error ReadFile unmarshalCategories rulesOrder path ∅
                  bank).
Qed.

End InitQuestions.
Module DemoInit.

(** A working directory [/app] that holds no questions file, an unknown
    executable, and path functions that join with a slash. *)
Definition Getwd : option string := Some "/app".
Definition Executable : option string := None.
Definition Join (dir file : string) : string := dir +:+ "/" +:+ file.
Definition Dir (path : string) : string := path.

Definition init :=
  InitQuestions Getwd Executable Join Dir DemoFile.ReadFile
    DemoFile.unmarshalCategories CategoryOrder.

(** A file system without any file. *)
Definition noFile (path : string) : option bytes := None.

Definition initNoFile :=
  InitQuestions Getwd Executable Join Dir noFile
    DemoFile.unmarshalCategories CategoryOrder.

End DemoInit.

Lemma InitQuestions_first_path_witness :
  DemoInit.init ∅ = (DemoFile.categories, None).
Proof.
  destruct (InitQuestions_first_path DemoInit.Getwd DemoInit.Executable
              DemoInit.Join DemoInit.Dir DemoFile.ReadFile
              DemoFile.unmarshalCategories CategoryOrder ∅) as [_ Hfirst].
  apply (Hfirst [ "/app/interview/questions.json"; "/app/questions.json";
                  "interview/questions.json"; "./interview/questions.json" ]
           "questions.json" [ "./questions.json" ]).
  - reflexivity.
  - intros p Hp Hloads. unfold loads in Hloads.
    repeat (apply elem_of_cons in Hp as [->|Hp]; [by vm_compute in Hloads|]).
    by apply elem_of_nil in Hp.
  - by vm_compute.
Defined.

Lemma InitQuestions_last_error_witness :
  (DemoInit.initNoFile ∅).2 = Some (ErrCouldNotLoad (Some ErrReadQuestionsFile)).
Proof.
  destruct (InitQuestions_last_error DemoInit.Getwd DemoInit.Executable
              DemoInit.Join DemoInit.Dir DemoInit.noFile
              DemoFile.unmarshalCategories CategoryOrder ∅) as (_ & _ & Hlast).
  destruct Hlast as (path & err & _ & _ & Herr & Hinit).
  - intros path _ Hloads. by vm_compute in Hloads.
  - unfold DemoInit.initNoFile. rewrite Hinit. by injection Herr as <-.
Defined.

(** ** [analyzer.go]: the analyzer and its entry points *)

(** [VisaAnalyzer]; of the HTTP client only the timeout, in seconds, is
    kept. *)
Record VisaAnalyzer := {
  apiKey : string;
  apiURL : string;
  httpClientTimeout : Z;
  systemPrompt : string
}.

(** What the entry points return besides the errors of [callGPTAPI]. *)
Inductive AnalyzeError :=
| ErrAPIKeyNotSet
| ErrCall (e : Error).

Definition AnalyzeError_text (e : AnalyzeError) : string :=
  match e with
  | ErrAPIKeyNotSet => "API key not set"
  | ErrCall e => Error_text e
  end.

(** [return va.callGPTAPI(...)] *)
Definition returned (r : (Error + AnalysisResponse) * list Mismatch)
  : (AnalyzeError + AnalysisResponse) * list Mismatch :=
  (match r.1 with inl e => inl (ErrCall e) | inr analysis => inr analysis end, r.2).

(** [fmt.Sprintf("Question: %s\nStudent's Answer: %s", question, answer)] *)
Definition historyContent (question answer : string) : string :=
  ("Question: " +:+ question +:+ newline +:+ "Student's Answer: " +:+ answer)%string.

Section Analyzer.

(** [EvalResult] is declared in another file; nothing here looks into
    it. *)
Variable EvalResult : Type.

Record Answer := {
  AnswerQuestionID : string;
  AnswerQuestionText : string;
  AnswerText : string;
  AnswerCreatedAt : Z;
  AnswerEval : option EvalResult;
  AnswerAnalysis : option AnalysisResponse
}.

(** The cumulative [Scores] of a session. *)
Record SessionScores := {
  Academic : Z;
  Financial : Z;
  IntentToReturn : Z;
  OverallRisk : Z
}.

Record Session := {
  SessionIdent : string;
  UserID : string;
  CurrentQuestion : string;
  SelectedQuestions : list Question;
  QuestionIndex : Z;
  Answers : list Answer;
  SessionTotals : SessionScores;
  Status : string;
  SessionCreatedAt : Z;
  UpdatedAt : Z;
  Summary : option SessionSummary
}.

(** The environment, the text of the prompt (lines 34-158), the reasoning
    service with the two decoders of [callGPTAPI], and [json.Marshal] of an
    analysis ([None] when it returns an error). *)
Variable Getenv : string → string.
Variable promptText : string.
Variable service : list GPTMessage → RoundTrip.
Variable unmarshalChoices : bytes → option (list bytes).
Variable unmarshalAnalysis : bytes → option AnalysisResponse.
Variable marshalAnalysis : AnalysisResponse → option string.

Definition NewVisaAnalyzer (apiKey : string) : VisaAnalyzer :=
  let apiKey :=
    if bool_decide (apiKey = EmptyString) then
      let apiKey := Getenv "OPENAI_API_KEY" in
      if bool_decide (apiKey = EmptyString) then Getenv "GPT_API_KEY" else apiKey
    else apiKey in
  {| apiKey := apiKey;
     apiURL := "https://api.openai.com/v1/chat/completions";
     httpClientTimeout := 60;
     systemPrompt := promptText |}.

Definition AnalyzeAnswer (va : VisaAnalyzer) (question answer : string)
  : (AnalyzeError + AnalysisResponse) * list Mismatch :=
  if bool_decide (apiKey va = EmptyString) then (inl ErrAPIKeyNotSet, [])
  else
    let sessionMessages := [ {| Role := "system"; Content := systemPrompt va |} ] in
    returned (callGPTAPI service unmarshalChoices unmarshalAnalysis
                sessionMessages EmptyString question answer).

Definition AnalyzeAnswerWithSession (va : VisaAnalyzer) (session : Session)
    (category question answer : string)
  : (AnalyzeError + AnalysisResponse) * list Mismatch :=
  if bool_decide (apiKey va = EmptyString) then (inl ErrAPIKeyNotSet, [])
  else
    let sessionMessages := [ {| Role := "system"; Content := systemPrompt va |} ] in
    let sessionMessages :=
      fold_left
        (λ sessionMessages prevAnswer,
           let sessionMessages :=
             sessionMessages
               ++ [ {| Role := "user";
                       Content := historyContent (AnswerQuestionText prevAnswer)
                                    (AnswerText prevAnswer) |} ] in
           match AnswerAnalysis prevAnswer with
           | Some analysis =>
               match marshalAnalysis analysis with
               | Some analysisJSON =>
                   sessionMessages
                     ++ [ {| Role := "assistant"; Content := analysisJSON |} ]
               | None => sessionMessages
               end
           | None => sessionMessages
           end)
        (Answers session) sessionMessages in
    returned (callGPTAPI service unmarshalChoices unmarshalAnalysis
                sessionMessages category question answer).

Definition GetSessionMessages (va : VisaAnalyzer) (session : Session)
  : list GPTMessage :=
  let messages := [ {| Role := "system"; Content := systemPrompt va |} ] in
  fold_left
    (λ messages prevAnswer,
       let messages :=
         messages
           ++ [ {| Role := "user";
                   Content := historyContent (AnswerQuestionText prevAnswer)
                                (AnswerText prevAnswer) |} ] in
       match AnswerAnalysis prevAnswer with
       | Some analysis =>
           match marshalAnalysis analysis with
           | Some analysisJSON =>
               messages ++ [ {| Role := "assistant"; Content := analysisJSON |} ]
           | None => messages
           end
       | None => messages
       end)
    (Answers session) messages.

(** *** The history of a session *)

(** The messages that stand for one earlier answer. *)
Definition asked (prevAnswer : Answer) : GPTMessage :=
  {| Role := "user";
     Content := historyContent (AnswerQuestionText prevAnswer) (AnswerText prevAnswer) |}.

Definition assessed (prevAnswer : Answer) : option GPTMessage :=
  analysis ← AnswerAnalysis prevAnswer;
  analysisJSON ← marshalAnalysis analysis;
  Some {| Role := "assistant"; Content := analysisJSON |}.

Definition exchange (prevAnswer : Answer) : list GPTMessage :=
  asked prevAnswer :: option_list (assessed prevAnswer).

Definition hasRole (role : string) (m : GPTMessage) : Prop := Role m = role.

#[local] Instance hasRole_dec role m : Decision (hasRole role m).
Proof. unfold hasRole. apply _. Defined.

Lemma history_fold answers : ∀ messages,
  fold_left
    (λ messages prevAnswer,
       let messages :=
         messages
           ++ [ {| Role := "user";
                   Content := historyContent (AnswerQuestionText prevAnswer)
                                (AnswerText prevAnswer) |} ] in
       match AnswerAnalysis prevAnswer with
       | Some analysis =>
           match marshalAnalysis analysis with
           | Some analysisJSON =>
               messages ++ [ {| Role := "assistant"; Content := analysisJSON |} ]
           | None => messages
           end
       | None => messages
       end)
    answers messages
  = messages ++ (answers ≫= exchange).
Proof.
  induction answers as [|a answers IH]; intros messages; simpl.
  { by rewrite app_nil_r. }
  rewrite IH. unfold exchange at 2, assessed, asked.
  destruct (AnswerAnalysis a) as [analysis|]; simpl;
    [destruct (marshalAnalysis analysis); simpl|]; by rewrite <- !app_assoc.
Qed.

Lemma exchange_users answers :
  filter (hasRole "user") (answers ≫= exchange) = asked <$> answers.
Proof.
  induction answers as [|a answers IH]; [done|].
  rewrite bind_cons, filter_app, IH, fmap_cons. unfold exchange.
  rewrite filter_cons_True by done.
  destruct (assessed a) as [m|] eqn:Hm; simpl; [|done].
  rewrite filter_cons_False, filter_nil; [done|].
  unfold assessed in Hm. destruct (AnswerAnalysis a) as [x|]; [|done]. simpl in Hm.
  destruct (marshalAnalysis x); [|done]. by injection Hm as <-.
Qed.

Lemma exchange_assistants answers :
  filter (hasRole "assistant") (answers ≫= exchange) = omap assessed answers.
Proof.
  induction answers as [|a answers IH]; [done|].
  rewrite bind_cons, filter_app, IH. unfold exchange. simpl.
  rewrite filter_cons_False by done.
  destruct (assessed a) as [m|] eqn:Hm; simpl; [|done].
  rewrite filter_cons_True, filter_nil; [done|].
  unfold assessed in Hm. destruct (AnswerAnalysis a) as [x|]; [|done]. simpl in Hm.
  destruct (marshalAnalysis x); [|done]. by injection Hm as <-.
Qed.

(** X9: the history that [GetSessionMessages] builds is the system prompt
    followed, for each earlier answer in order, by a user message with its
    question and text and, when the answer has an analysis that
    [json.Marshal] accepts, an assistant message with that analysis; so it
    holds one user message for each answer and the system prompt only at
    its head. *)
Theorem GetSessionMessages_history (va : VisaAnalyzer) (session : Session) :
  ∃ rest,
    GetSessionMessages va session
    = {| Role := "system"; Content := systemPrompt va |} :: rest
    ∧ rest = Answers session ≫= exchange
    ∧ filter (hasRole "user") rest = asked <$> Answers session
    ∧ filter (hasRole "assistant") rest = omap assessed (Answers session)
    ∧ filter (hasRole "system") rest = []
    ∧ (length (Answers session) ≤ length rest ≤ 2 * length (Answers session))%nat.
Proof.
  exists (Answers session ≫= exchange). unfold GetSessionMessages.
  rewrite history_fold. split; [done|]. split; [done|].
  split; [apply exchange_users|]. split; [apply exchange_assistants|].
  generalize (Answers session). intros answers. split.
  - induction answers as [|a answers IH]; [done|].
    rewrite bind_cons, filter_app, IH, app_nil_r. unfold exchange.
    rewrite filter_cons_False by done.
    destruct (assessed a) as [m|] eqn:Hm; simpl; [|done].
    rewrite filter_cons_False, filter_nil; [done|].
    unfold assessed in Hm. destruct (AnswerAnalysis a) as [x|]; [|done]. simpl in Hm.
    destruct (marshalAnalysis x); [|done]. by injection Hm as <-.
  - induction answers as [|a answers IH]; [simpl; lia|].
    rewrite bind_cons, length_app. unfold exchange at 1 3.
    destruct (assessed a); simpl; lia.
Qed.

(** The request of an analysis: the history and the new question. *)
Definition request (va : VisaAnalyzer) (session : Session)
    (category question answer : string) : list GPTMessage :=
  GetSessionMessages va session
    ++ [ {| Role := "user"; Content := userContent category question answer |} ].

End Analyzer.
Arguments AnswerQuestionID {EvalResult} _.
Arguments AnswerQuestionText {EvalResult} _.
Arguments AnswerText {EvalResult} _.
Arguments AnswerCreatedAt {EvalResult} _.
Arguments AnswerEval {EvalResult} _.
Arguments AnswerAnalysis {EvalResult} _.
Arguments Answers {EvalResult} _.
Arguments GetSessionMessages {EvalResult} marshalAnalysis va session.
Arguments AnalyzeAnswerWithSession {EvalResult} service unmarshalChoices
  unmarshalAnalysis marshalAnalysis va session category question answer.
Arguments request {EvalResult} marshalAnalysis va session category question answer.

Section Requests.

Variable EvalResult : Type.
Variable unmarshalChoices : bytes → option (list bytes).
Variable unmarshalAnalysis : bytes → option AnalysisResponse.
Variable marshalAnalysis : AnalysisResponse → option string.

(** What becomes of the reply to a request. *)
Definition outcome (rt : RoundTrip)
  : (AnalyzeError + AnalysisResponse) * list Mismatch :=
  returned
    match firstChoice unmarshalChoices rt with
    | inl e => (inl e, [])
    | inr content => decodeReply unmarshalAnalysis content
    end.

(** X10: without an API key [AnalyzeAnswerWithSession] answers "API key
    not set" whatever the service would reply; with a key, its result is
    what becomes of the service's reply to one request, the history of
    [GetSessionMessages] followed by the new question.  [AnalyzeAnswer]
    does the same for a session without answers and without a category:
    its request is the system prompt and the question. *)
Theorem analysis_consults_once (va : VisaAnalyzer) (session : Session EvalResult)
    (category question answer : string) (service : list GPTMessage → RoundTrip) :
  (apiKey va = EmptyString →
   AnalyzeAnswerWithSession service unmarshalChoices unmarshalAnalysis
     marshalAnalysis va session category question answer
   = (inl ErrAPIKeyNotSet, [])
   ∧ AnalyzeAnswer service unmarshalChoices unmarshalAnalysis va question answer
     = (inl ErrAPIKeyNotSet, []))
  ∧ (apiKey va ≠ EmptyString →
     AnalyzeAnswerWithSession service unmarshalChoices unmarshalAnalysis
       marshalAnalysis va session category question answer
     = outcome (service (request marshalAnalysis va session category question answer))
     ∧ AnalyzeAnswer service unmarshalChoices unmarshalAnalysis va question answer
       = outcome (service [ {| Role := "system"; Content := systemPrompt va |};
                            {| Role := "user";
                               Content := historyContent question answer |} ])
     ∧ (Answers session = [] →
        AnalyzeAnswer service unmarshalChoices unmarshalAnalysis va question answer
        = AnalyzeAnswerWithSession service unmarshalChoices unmarshalAnalysis
            marshalAnalysis va session EmptyString question answer)).
Proof.
  unfold AnalyzeAnswerWithSession, AnalyzeAnswer, outcome, request,
    GetSessionMessages, callGPTAPI.
  split; intros Hkey.
  - by rewrite !bool_decide_eq_true_2 by done.
  - rewrite !bool_decide_eq_false_2 by done. split; [done|]. split; [done|].
    intros ->. reflexivity.
Qed.

End Requests.

Module DemoAnalyzer.

Definition noKey : VisaAnalyzer :=
  {| apiKey := EmptyString;
     apiURL := "https://api.openai.com/v1/chat/completions";
     httpClientTimeout := 60;
     systemPrompt := "Rules" |}.

Definition session : Session unit :=
  {| SessionIdent := "s1"; UserID := "u1"; CurrentQuestion := "q1_PurposeofStudy";
     SelectedQuestions := []; QuestionIndex := 0; Answers := [];
     SessionTotals := {| Academic := 0; Financial := 0; IntentToReturn := 0;
                         OverallRisk := 0 |};
     Status := "active"; SessionCreatedAt := 0; UpdatedAt := 0;
     Summary := None |}.

End DemoAnalyzer.

Lemma analysis_consults_once_witness :
  AnalyzeAnswerWithSession (λ _, Replied 200 DemoReply.reply)
    DemoReply.unmarshalChoices DemoReply.unmarshalAnalysis (λ _, None)
    DemoAnalyzer.noKey DemoAnalyzer.session "Purpose of Study" "Why?" "Because."
  = (inl ErrAPIKeyNotSet, []).
Proof.
  destruct (analysis_consults_once unit DemoReply.unmarshalChoices
              DemoReply.unmarshalAnalysis (λ _, None) DemoAnalyzer.noKey
              DemoAnalyzer.session "Purpose of Study" "Why?" "Because."
              (λ _, Replied 200 DemoReply.reply)) as [Hno _].
  apply Hno. reflexivity.
Defined.

(** X11: [NewVisaAnalyzer] keeps the key it is given; given none it takes
    [OPENAI_API_KEY] from the environment and, if that is empty too,
    [GPT_API_KEY]; the analyzer it returns refuses an answer with "API key
    not set" exactly when all three are empty. *)
Theorem NewVisaAnalyzer_key (Getenv : string → string) (promptText key : string) :
  let va := NewVisaAnalyzer Getenv promptText key in
  apiKey va
  = (if bool_decide (key ≠ EmptyString) then key
     else if bool_decide (Getenv "OPENAI_API_KEY" ≠ EmptyString)
          then Getenv "OPENAI_API_KEY"
          else Getenv "GPT_API_KEY")
  ∧ systemPrompt va = promptText
  ∧ ∀ service unmarshalChoices unmarshalAnalysis question answer,
      (AnalyzeAnswer service unmarshalChoices unmarshalAnalysis va question answer).1
      = inl ErrAPIKeyNotSet
      ↔ key = EmptyString ∧ Getenv "OPENAI_API_KEY" = EmptyString
        ∧ Getenv "GPT_API_KEY" = EmptyString.
Proof.
  intros va.
  assert (Hkey : apiKey va
    = (if bool_decide (key ≠ EmptyString) then key
       else if bool_decide (Getenv "OPENAI_API_KEY" ≠ EmptyString)
            then Getenv "OPENAI_API_KEY"
            else Getenv "GPT_API_KEY")).
  { unfold va, NewVisaAnalyzer. simpl. repeat case_bool_decide; congruence. }
  split; [done|]. split; [done|].
  intros service unmarshalChoices unmarshalAnalysis question answer.
  unfold AnalyzeAnswer. rewrite Hkey. split.
  - repeat case_bool_decide; simpl; try done; try congruence;
      unfold returned; simpl; by destruct (callGPTAPI _ _ _ _ _ _ _).1.
  - intros (Hk & Ho & Hg). repeat case_bool_decide; simpl; congruence.
Qed.

(** ** [callGPTAPI]: every reply has one of three shapes *)

Section Shapes.

(** The scan stops at the closing brace that brings the count back to
    zero: what it passes is balanced. *)
Lemma findJSONEnd_Some r : ∀ i d j,
  findJSONEnd r i (1 + Z.of_nat d) = Some j →
  ∃ inner post, r = inner ++ rbrace :: post ∧ braceDepth inner d = Some 0%nat.
Proof.
  induction r as [|c r IH]; [done|]. intros i d j. simpl.
  destruct (Ascii.eqb c lbrace) eqn:Hl.
  { replace (1 + Z.of_nat d + 1) with (1 + Z.of_nat (S d)) by lia.
    intros (inner & post & -> & Hd)%IH.
    exists (c :: inner), post. split; [done|]. simpl. by rewrite Hl. }
  destruct (Ascii.eqb c rbrace) eqn:Hr.
  { destruct d as [|d].
    - intros _. apply Ascii.eqb_eq in Hr as ->. by exists [], r.
    - replace (1 + Z.of_nat (S d) - 1) with (1 + Z.of_nat d) by lia.
      destruct (Z.eqb_spec (1 + Z.of_nat d) 0); [lia|].
      intros (inner & post & -> & Hd)%IH.
      exists (c :: inner), post. split; [done|]. simpl. by rewrite Hl, Hr. }
  intros (inner & post & -> & Hd)%IH.
  exists (c :: inner), post. split; [done|]. simpl. by rewrite Hl, Hr.
Qed.

(** When the scan runs off the end, the count never came back to zero. *)
Lemma findJSONEnd_None r : ∀ i bc,
  1 ≤ bc → findJSONEnd r i bc = None →
  ∀ k, (k ≤ length r)%nat → 1 ≤ bc + excess (take k r).
Proof.
  induction r as [|c r IH]; intros i bc Hbc Hnone k Hk.
  { rewrite take_nil. simpl. lia. }
  destruct k as [|k]; [simpl; lia|]. simpl in *.
  destruct (Ascii.eqb c lbrace).
  { specialize (IH (S i) (bc + 1) ltac:(lia) Hnone k ltac:(lia)). lia. }
  destruct (Ascii.eqb c rbrace).
  { destruct (Z.eqb_spec (bc - 1) 0); [done|].
    specialize (IH (S i) (bc - 1) ltac:(lia) Hnone k ltac:(lia)). lia. }
  specialize (IH (S i) bc Hbc Hnone k ltac:(lia)). lia.
Qed.

(** What follows an opening brace either closes it or leaves it open. *)
Lemma closes_or_not rest :
  (∃ inner post, rest = inner ++ rbrace :: post ∧ balanced inner)
  ∨ unmatched (lbrace :: rest).
Proof.
  destruct (findJSONEnd rest 1 (1 + Z.of_nat 0)) as [j|] eqn:Hj.
  - left. by apply findJSONEnd_Some in Hj.
  - right. intros [|k] Hk; [lia|]. simpl.
    pose proof (findJSONEnd_None rest 1 1 ltac:(lia) Hj k ltac:(simpl in Hk; lia)).
    change (Ascii.eqb lbrace lbrace) with true. lia.
Qed.

(** X12: the text of a reply has exactly one of three shapes, and
    [callGPTAPI] treats each in one way: no opening brace, and the error
    is "no JSON object found in response"; a first opening brace that
    nothing closes, and the error is "unmatched braces in JSON response";
    or a first opening brace, a balanced stretch and the brace that closes
    it, and these are what is handed to the decoder, whatever else the
    reply holds.  Braces are counted wherever they stand, inside the
    strings of the object too. *)
Theorem reply_shapes (content : bytes) :
  ((lbrace ∉ content) ∧ extractJSON content = inl ErrNoJSONObject)
  ∨ (∃ pre rest,
       content = pre ++ lbrace :: rest ∧ (lbrace ∉ pre)
       ∧ unmatched (lbrace :: rest)
       ∧ extractJSON content = inl ErrUnmatchedBraces)
  ∨ (∃ pre inner post,
       content = pre ++ lbrace :: inner ++ rbrace :: post ∧ (lbrace ∉ pre)
       ∧ balanced inner
       ∧ extractJSON content = inr (lbrace :: inner ++ [rbrace])).
Proof.
  rewrite extractJSON_locate.
  destruct (decide (lbrace ∈ content)) as [Hin|Hnotin].
  2: { left. split; [done|]. by apply locateObject_no_brace. }
  right. apply list_elem_of_split_l in Hin as (pre & rest & -> & Hpre).
  destruct (closes_or_not rest) as [(inner & post & -> & Hbal)|Hun].
  - right. exists pre, inner, post. split; [done|]. split; [done|]. split; [done|].
    by apply locateObject_balanced.
  - left. exists pre, rest. split; [done|]. split; [done|]. split; [done|].
    by apply locateObject_unmatched.
Qed.

End Shapes.

(** ** [callGPTAPI]: what validation leaves *)

(** The four tiers. *)
Definition tiers : list string := [ "Excellent"; "Good"; "Average"; "Weak" ].

Lemma ladder_tiers a b c :
  ladder a b c "Excellent" "Good" "Average" "Weak" ∈ tiers.
Proof. unfold tiers. destruct a, b, c; simpl; set_solver. Qed.

Lemma getClassificationFromScore_tiers totalScore criteriaCount :
  getClassificationFromScore totalScore criteriaCount ∈ tiers.
Proof.
  unfold getClassificationFromScore.
  repeat (case_match; [first [apply ladder_tiers|unfold tiers; set_solver]|]).
  apply ladder_tiers.
Qed.

Lemma calculateTotalScore_total s t :
  calculateTotalScore (set_TotalScore s t) = calculateTotalScore s.
Proof. reflexivity. Qed.

Lemma countRelevantCriteria_total s t :
  countRelevantCriteria (set_TotalScore s t) = countRelevantCriteria s.
Proof. reflexivity. Qed.

Lemma recompute_fixed a : recompute (recompute a).1 = ((recompute a).1, []).
Proof.
  assert (Hfix : ∀ r,
    TotalScore (Scores r) = calculateTotalScore (Scores r) →
    Classification r
    = getClassificationFromScore (TotalScore (Scores r))
        (countRelevantCriteria (Scores r)) →
    recompute r = (r, [])).
  { intros [[mi fu ac sr co cq rf total] tier feedback]. simpl. intros Ht Hc.
    unfold recompute. cbn [Scores Classification Feedback].
    rewrite countRelevantCriteria_total. cbn [set_TotalScore TotalScore].
    cbn [MigrationIntent FinancialUnderstanding AcademicCredibility
         SpecificityResearch Consistency CommunicationQuality RedFlags].
    rewrite <- Ht. rewrite bool_decide_eq_true_2 by done. done. }
  apply Hfix.
  - unfold recompute. by case_bool_decide.
  - apply recompute_classification.
Qed.

(** X13: what [callGPTAPI] returns has one of the four tiers, whatever
    tier the reply named, and validating it once more changes nothing and
    logs nothing. *)
Theorem validated_result_is_stable
    (unmarshalAnalysis : bytes → option AnalysisResponse)
    (content : bytes) (result : AnalysisResponse) (logged : list Mismatch) :
  decodeReply unmarshalAnalysis content = (inr result, logged) →
  Classification result ∈ tiers
  ∧ TotalScore (Scores result) = calculateTotalScore (Scores result)
  ∧ recompute result = (result, []).
Proof.
  intros (jsonContent & analysis & _ & _ & Hre)%decodeReply_inr.
  replace result with (recompute analysis).1 by (by rewrite Hre).
  split; [|split].
  - rewrite recompute_classification. apply getClassificationFromScore_tiers.
  - unfold recompute. by case_bool_decide.
  - apply recompute_fixed.
Qed.

Lemma validated_result_is_stable_witness :
  Classification DemoReply.result ∈ tiers
  ∧ TotalScore (Scores DemoReply.result)
    = calculateTotalScore (Scores DemoReply.result)
  ∧ recompute DemoReply.result = (DemoReply.result, []).
Proof.
  apply (validated_result_is_stable DemoReply.unmarshalAnalysis DemoReply.reply
           DemoReply.result DemoReply.logged DemoReply.decode_reply).
Defined.


(** ** Tiers, totals and percentages *)

Definition tierRank (tier : string) : Z :=
  if bool_decide (tier = "Excellent") then 3
  else if bool_decide (tier = "Good") then 2
  else if bool_decide (tier = "Average") then 1
  else 0.

Lemma ladder_rank (a b c a' b' c' : bool) :
  (a = true → a' = true) → (b = true → b' = true) → (c = true → c' = true) →
  tierRank (ladder a b c "Excellent" "Good" "Average" "Weak")
  ≤ tierRank (ladder a' b' c' "Excellent" "Good" "Average" "Weak").
Proof.
  intros Ha Hb Hc.
  destruct a; [rewrite (Ha eq_refl); by vm_compute|].
  destruct b; [rewrite (Hb eq_refl); destruct a'; by vm_compute|].
  destruct c; [rewrite (Hc eq_refl); destruct a', b'; by vm_compute|].
  destruct a', b', c'; by vm_compute.
Qed.

Lemma leb_grows (k x y : Z) : x ≤ y → (k <=? x) = true → (k <=? y) = true.
Proof. intros Hxy Hk. apply Z.leb_le in Hk. apply Z.leb_le. lia. Qed.

(** X15: for each number of scored criteria that seven criteria allow, a
    larger total never gets a lower tier; the largest total that [count]
    scores of 1 to 5 can reach is "Excellent" and the smallest is
    "Weak". *)
Theorem tier_grows_with_total (total1 total2 count : Z) :
  0 ≤ count ≤ 7 → total1 ≤ total2 →
  tierRank (getClassificationFromScore total1 count)
  ≤ tierRank (getClassificationFromScore total2 count)
  ∧ (1 ≤ count →
     getClassificationFromScore (5 * count) count = "Excellent"
     ∧ getClassificationFromScore count count = "Weak").
Proof.
  intros Hcount Hle. rewrite !getClassificationFromScore_table by done. split.
  - unfold tierOf, tierTable.
    repeat (case_match; [first [done|apply ladder_rank; by apply leb_grows]|]).
    apply ladder_rank; apply leb_grows; lia.
  - intros H1.
    assert (Hc : count = 1 ∨ count = 2 ∨ count = 3 ∨ count = 4 ∨ count = 5
                 ∨ count = 6 ∨ count = 7) by lia.
    destruct Hc as [->|[->|[->|[->|[->|[->| ->]]]]]]; by vm_compute.
Qed.

Lemma tier_grows_with_total_witness :
  tierRank (getClassificationFromScore 24 7)
  ≤ tierRank (getClassificationFromScore 30 7)
  ∧ getClassificationFromScore 35 7 = "Excellent"
  ∧ getClassificationFromScore 7 7 = "Weak".
Proof.
  destruct (tier_grows_with_total 24 30 7 ltac:(lia) ltac:(lia)) as [Hrank Hends].
  split; [exact Hrank|]. apply Hends. lia.
Defined.

(** ** The percentage of a validated result *)

Lemma validated_total (a : AnalysisResponse) :
  Forall (λ v, 1 ≤ v ≤ 5) (presentScores (Scores a)) →
  countRelevantCriteria (Scores a) ≤ calculateTotalScore (Scores a)
  ≤ 5 * countRelevantCriteria (Scores a).
Proof.
  intros Hall. rewrite calculateTotalScore_wrap, countRelevantCriteria_length.
  pose proof (sum_scores_bounds _ _ _ Hall) as Hb.
  pose proof (presentScores_length (Scores a)) as Hl.
  rewrite GoInt.wrap_in_range; [lia|].
  unfold GoInt.in_range, GoInt.int_min, GoInt.int_max. lia.
Qed.

Lemma interpolate_range n k :
  1 ≤ n ≤ 10 → 0 ≤ k ≤ 4 * n →
  F64Facts.le F64.zero (interpolate n k) = true
  ∧ F64Facts.le (interpolate n k) F64.c100 = true.
Proof.
  intros Hn Hk. split.
  - rewrite <- (interpolate_zero n) by lia. apply interpolate_mono; lia.
  - rewrite <- (interpolate_top n) by lia. apply interpolate_mono; lia.
Qed.

(** X16: when the scores of a reply that are not null lie in 1 to 5, the
    total that [callGPTAPI] returns lies between the number of scored
    criteria and five times that number, so [ScoreToPercentage] does not
    clamp it: its percentage is the interpolated one, between 0 and
    100. *)
Theorem validated_percentage
    (unmarshalAnalysis : bytes → option AnalysisResponse)
    (content : bytes) (result : AnalysisResponse) (logged : list Mismatch) :
  decodeReply unmarshalAnalysis content = (inr result, logged) →
  Forall (λ v, 1 ≤ v ≤ 5) (presentScores (Scores result)) →
  0 ≤ countRelevantCriteria (Scores result) ≤ 7
  ∧ countRelevantCriteria (Scores result) ≤ TotalScore (Scores result)
    ≤ 5 * countRelevantCriteria (Scores result)
  ∧ ScoreToPercentage (TotalScore (Scores result))
      (countRelevantCriteria (Scores result))
    = (if countRelevantCriteria (Scores result) =? 0 then F64.zero
       else interpolate (countRelevantCriteria (Scores result))
              (TotalScore (Scores result)
               - countRelevantCriteria (Scores result)))
  ∧ F64Facts.le F64.zero
      (ScoreToPercentage (TotalScore (Scores result))
         (countRelevantCriteria (Scores result))) = true
  ∧ F64Facts.le
      (ScoreToPercentage (TotalScore (Scores result))
         (countRelevantCriteria (Scores result))) F64.c100 = true.
Proof.
  intros (jsonContent & analysis & _ & _ & Hre)%decodeReply_inr Hall.
  assert (Ht : TotalScore (Scores result) = calculateTotalScore (Scores result)).
  { replace result with (recompute analysis).1 by (by rewrite Hre).
    unfold recompute. by case_bool_decide. }
  pose proof (validated_total result Hall) as Hb. rewrite <- Ht in Hb.
  pose proof (countRelevantCriteria_range (Scores result)) as Hc.
  split; [done|]. split; [done|].
  destruct (Z.eqb_spec (countRelevantCriteria (Scores result)) 0) as [H0|H0].
  { rewrite H0. by vm_compute. }
  assert (Hp : ScoreToPercentage (TotalScore (Scores result))
                 (countRelevantCriteria (Scores result))
               = interpolate (countRelevantCriteria (Scores result))
                   (TotalScore (Scores result)
                    - countRelevantCriteria (Scores result))).
  { rewrite ScoreToPercentage_interpolate by (unfold GoInt.int_max; lia).
    unfold clampScore. f_equal. lia. }
  rewrite Hp. split; [done|]. apply interpolate_range; lia.
Qed.

Lemma validated_percentage_witness :
  TotalScore (Scores DemoReply.result) = 13
  ∧ countRelevantCriteria (Scores DemoReply.result) = 3
  ∧ F64Facts.le
      (ScoreToPercentage (TotalScore (Scores DemoReply.result))
         (countRelevantCriteria (Scores DemoReply.result))) F64.c100 = true.
Proof.
  split; [reflexivity|]. split; [reflexivity|].
  apply (validated_percentage DemoReply.unmarshalAnalysis DemoReply.reply
           DemoReply.result DemoReply.logged DemoReply.decode_reply).
  repeat constructor; lia.
Defined.

(** ** Grades *)

Definition gradeRank (grade : string) : Z :=
  if bool_decide (grade = "A") then 3
  else if bool_decide (grade = "B") then 2
  else if bool_decide (grade = "C") then 1
  else 0.

Lemma ladder_gradeRank (a b c a' b' c' : bool) :
  (a = true → a' = true) → (b = true → b' = true) → (c = true → c' = true) →
  gradeRank (ladder a b c "A" "B" "C" "D")
  ≤ gradeRank (ladder a' b' c' "A" "B" "C" "D").
Proof.
  intros Ha Hb Hc.
  destruct a; [rewrite (Ha eq_refl); by vm_compute|].
  destruct b; [rewrite (Hb eq_refl); destruct a'; by vm_compute|].
  destruct c; [rewrite (Hc eq_refl); destruct a', b'; by vm_compute|].
  destruct a', b', c'; by vm_compute.
Qed.

(** X17: for one to seven criteria a larger score never gets a lower
    grade, the score [5 * criteriaCount] is graded "A", and a score is
    graded "D" exactly when it is below half of [5 * criteriaCount],
    rounded down; so with one criterion no score from 2 up is below
    "C". *)
Theorem grade_grows_with_score (score1 score2 criteriaCount : Z) :
  1 ≤ criteriaCount ≤ 7 → score1 ≤ score2 →
  gradeRank (getGradeFromScore score1 criteriaCount)
  ≤ gradeRank (getGradeFromScore score2 criteriaCount)
  ∧ getGradeFromScore (5 * criteriaCount) criteriaCount = "A"
  ∧ (getGradeFromScore score1 criteriaCount = "D"
     ↔ score1 < 5 * criteriaCount / 2).
Proof.
  intros Hc Hle. rewrite !getGradeFromScore_table by done.
  split; [|split].
  - apply ladder_gradeRank; apply leb_grows; lia.
  - assert (H : criteriaCount = 1 ∨ criteriaCount = 2 ∨ criteriaCount = 3
                ∨ criteriaCount = 4 ∨ criteriaCount = 5 ∨ criteriaCount = 6
                ∨ criteriaCount = 7) by lia.
    destruct H as [->|[->|[->|[->|[->|[->| ->]]]]]]; by vm_compute.
  - assert (Hhalf : gradeThreshold 50 criteriaCount = 5 * criteriaCount / 2).
    { unfold gradeThreshold.
      replace (50 * (criteriaCount * 5)) with (5 * criteriaCount * 50) by lia.
      change 100 with (2 * 50). by rewrite Z.div_mul_cancel_r. }
    assert (H70 : gradeThreshold 50 criteriaCount ≤ gradeThreshold 70 criteriaCount).
    { unfold gradeThreshold. apply Z.div_le_mono; lia. }
    assert (H85 : gradeThreshold 50 criteriaCount ≤ gradeThreshold 85 criteriaCount).
    { unfold gradeThreshold. apply Z.div_le_mono; lia. }
    rewrite <- Hhalf. unfold ladder.
    destruct (Z.leb_spec (gradeThreshold 85 criteriaCount) score1),
      (Z.leb_spec (gradeThreshold 70 criteriaCount) score1),
      (Z.leb_spec (gradeThreshold 50 criteriaCount) score1); split; intros Hd;
      first [done|lia|exfalso; lia].
Qed.

Lemma grade_grows_with_score_witness :
  gradeRank (getGradeFromScore 24 7) ≤ gradeRank (getGradeFromScore 30 7)
  ∧ getGradeFromScore 35 7 = "A"
  ∧ (getGradeFromScore 24 7 = "D" ↔ 24 < 35 / 2).
Proof. apply (grade_grows_with_score 24 30 7); lia. Defined.

(** ** Strong areas, weak areas and red flags *)

Definition criterionNames : list string :=
  [ "migration_intent"; "financial_understanding"; "academic_credibility";
    "specificity_research"; "consistency"; "communication_quality";
    "red_flags" ].

(** The score that [s] holds under the JSON name [name]; [None] when it is
    null and when no criterion has that name. *)
Definition scoreNamed (name : string) (s : AnalysisScores) : option Z :=
  default None ((list_to_map (namedScores s) : gmap string (option Z)) !! name).

(** [p] is not nil and the score it points to passes [test]. *)
Definition passes (test : Z → bool) (p : option Z) : bool :=
  match p with
  | Some v => test v
  | None => false
  end.

(** The number of records whose score named [name] passes [test]. *)
Definition times (test : Z → bool) (name : string)
    (analyses : list AnalysisRecord) : Z :=
  Z.of_nat (length (List.filter
    (λ record, passes test (scoreNamed name (Scores (Analysis record))))
    analyses)).

Lemma namedScores_names s : (namedScores s).*1 = criterionNames.
Proof. reflexivity. Qed.

Lemma criterionNames_NoDup : NoDup criterionNames.
Proof. apply (bool_decide_unpack _). by vm_compute. Qed.

Lemma scoreNamed_name name s v :
  scoreNamed name s = Some v → name ∈ criterionNames.
Proof.
  unfold scoreNamed. intros H.
  destruct (list_to_map (namedScores s) !! name) as [p|] eqn:Hp; [|done].
  apply elem_of_list_to_map_2 in Hp.
  apply (list_elem_of_fmap_2 fst) in Hp. by rewrite namedScores_names in Hp.
Qed.

Lemma formatCriterionName_inj a b :
  a ∈ criterionNames → b ∈ criterionNames →
  formatCriterionName a = formatCriterionName b → a = b.
Proof.
  unfold criterionNames. intros Ha Hb.
  repeat (apply elem_of_cons in Ha as [->|Ha]);
    try (by apply elem_of_nil in Ha);
    repeat (apply elem_of_cons in Hb as [->|Hb]);
    try (by apply elem_of_nil in Hb); by vm_compute.
Qed.

Section Counting.

Variable test : Z → bool.

(** The body of the loop over the records. *)
Definition countStep (counts : gmap string Z) (entry : string * option Z)
  : gmap string Z :=
  let '(name, p) := entry in
  match p with
  | Some v =>
      if test v
      then <[name := GoInt.add (default 0 (counts !! name)) 1]> counts
      else counts
  | None => counts
  end.

Lemma countWhere_fold analyses :
  countWhere test analyses
  = fold_left
      (λ counts record,
         fold_left countStep (namedScores (Scores (Analysis record))) counts)
      analyses ∅.
Proof. reflexivity. Qed.

Lemma countStep_lookup (l : list (string * option Z)) name : ∀ counts,
  NoDup l.*1 →
  fold_left countStep l counts !! name
  = if passes test
         (default None ((list_to_map l : gmap string (option Z)) !! name))
    then Some (GoInt.add (default 0 (counts !! name)) 1)
    else counts !! name.
Proof.
  induction l as [|[n p] l IH]; intros counts Hnd; [done|].
  apply NoDup_cons in Hnd as [Hn Hnd]. cbn [fold_left list_to_map foldr uncurry].
  rewrite IH by done. destruct (decide (n = name)) as [->|Hne].
  - rewrite lookup_insert_eq.
    rewrite (not_elem_of_list_to_map_1 _ name Hn). simpl.
    destruct p as [v|]; simpl; [|done].
    destruct (test v); [|done]. by rewrite lookup_insert_eq.
  - rewrite lookup_insert_ne by done.
    assert (Hsame : countStep counts (n, p) !! name = counts !! name).
    { simpl. destruct p as [v|]; [|done]. destruct (test v); [|done].
      by rewrite lookup_insert_ne. }
    by rewrite Hsame.
Qed.

Lemma times_cons name record analyses :
  times test name (record :: analyses)
  = (if passes test (scoreNamed name (Scores (Analysis record))) then 1 else 0)
    + times test name analyses.
Proof.
  unfold times. cbn [List.filter].
  destruct (passes test _); cbn [length]; lia.
Qed.

Lemma times_range name analyses :
  0 ≤ times test name analyses ≤ Z.of_nat (length analyses).
Proof.
  induction analyses as [|record analyses IH]; [by vm_compute|].
  rewrite times_cons. cbn [length]. rewrite Nat2Z.inj_succ.
  destruct (passes test _); lia.
Qed.

(** A count that is kept in the map: no entry for 0. *)
Definition entry (count : Z) : option Z :=
  if count =? 0 then None else Some count.

Lemma counts_fold name analyses : ∀ counts count,
  counts !! name = entry count → 0 ≤ count →
  count + Z.of_nat (length analyses) ≤ GoInt.int_max →
  fold_left
    (λ counts record,
       fold_left countStep (namedScores (Scores (Analysis record))) counts)
    analyses counts !! name
  = entry (count + times test name analyses).
Proof.
  induction analyses as [|record analyses IH]; intros counts count Hc H0 Hmax.
  { simpl. rewrite Hc. f_equal. unfold times. simpl. lia. }
  cbn [fold_left]. cbn [length] in Hmax. rewrite Nat2Z.inj_succ in Hmax.
  rewrite times_cons.
  pose proof (countStep_lookup (namedScores (Scores (Analysis record))) name
                counts) as Hstep.
  rewrite namedScores_names in Hstep. specialize (Hstep criterionNames_NoDup).
  fold (scoreNamed name (Scores (Analysis record))) in Hstep.
  destruct (passes test (scoreNamed name (Scores (Analysis record)))).
  - rewrite (IH _ (count + 1)); [f_equal; lia| |lia|lia].
    rewrite Hstep, Hc.
    assert (Hd : default 0 (entry count) = count).
    { unfold entry. destruct (Z.eqb_spec count 0); simpl; lia. }
    rewrite Hd. unfold GoInt.add. rewrite GoInt.wrap_in_range.
    + unfold entry. destruct (Z.eqb_spec (count + 1) 0); [lia|done].
    + unfold GoInt.in_range, GoInt.int_min, GoInt.int_max in *. lia.
  - rewrite (IH _ count); [f_equal; lia| |lia|lia]. by rewrite Hstep.
Qed.

(** The map built by the first loop holds, for each criterion that passed
    at least once, the number of records in which it passed, and nothing
    else. *)
Lemma countWhere_lookup name analyses :
  Z.of_nat (length analyses) ≤ GoInt.int_max →
  countWhere test analyses !! name = entry (times test name analyses).
Proof.
  intros Hmax. rewrite countWhere_fold.
  rewrite (counts_fold name analyses ∅ 0); [done|done|lia|lia].
Qed.

Lemma times_name name analyses :
  1 ≤ times test name analyses → name ∈ criterionNames.
Proof.
  induction analyses as [|record analyses IH]; [by vm_compute|].
  rewrite times_cons.
  destruct (scoreNamed name (Scores (Analysis record))) as [v|] eqn:Hv.
  - intros _. by apply scoreNamed_name in Hv.
  - simpl. intros H. apply IH. lia.
Qed.

Lemma frequent_NoDup (counts : gmap string Z) analyses :
  (∀ name count, counts !! name = Some count → name ∈ criterionNames) →
  NoDup (frequent counts analyses).
Proof.
  intros Hnames. unfold frequent.
  pose proof (NoDup_fst_map_to_list counts) as Hnd.
  assert (Hin : ∀ name count, (name, count) ∈ map_to_list counts →
                              name ∈ criterionNames).
  { intros name count H%elem_of_map_to_list. by eapply Hnames. }
  induction (map_to_list counts) as [|[name count] l IH]; [constructor|].
  simpl in Hnd. apply NoDup_cons in Hnd as [Hn Hnd].
  assert (Hl : NoDup (omap (λ '(criterion, count),
                 if Z.of_nat (length analyses) `quot` 2 <=? count
                 then Some (formatCriterionName criterion) else None) l)).
  { apply IH; [done|]. intros n c H. apply (Hin n c). by right. }
  cbn [omap list_omap]. destruct (_ <=? count); [|done].
  apply NoDup_cons. split; [|done].
  intros ([name' count'] & Hin' & Hf)%list_elem_of_omap.
  destruct (_ <=? count'); [|done]. injection Hf as Hf.
  apply formatCriterionName_inj in Hf.
  - subst name'. apply Hn. apply (list_elem_of_fmap_2 fst) in Hin'. done.
  - apply (Hin name' count'). by right.
  - apply (Hin name count). by left.
Qed.

(** What the second loop lists: the label of each criterion that passed at
    least once and at least [len(analyses)/2] times, each once. *)
Lemma frequent_countWhere analyses :
  Z.of_nat (length analyses) ≤ GoInt.int_max →
  (∀ label,
     label ∈ frequent (countWhere test analyses) analyses
     ↔ ∃ name, name ∈ criterionNames
               ∧ label = formatCriterionName name
               ∧ 1 ≤ times test name analyses
               ∧ Z.of_nat (length analyses) `quot` 2 ≤ times test name analyses)
  ∧ NoDup (frequent (countWhere test analyses) analyses)
  ∧ (length (frequent (countWhere test analyses) analyses) ≤ 7)%nat.
Proof.
  intros Hmax.
  assert (Hlook : ∀ name count,
            countWhere test analyses !! name = Some count
            ↔ count = times test name analyses ∧ 1 ≤ count).
  { intros name count. rewrite countWhere_lookup by done. unfold entry.
    pose proof (times_range name analyses).
    destruct (Z.eqb_spec (times test name analyses) 0); split.
    - done.
    - intros [-> ?]. lia.
    - intros [= <-]. lia.
    - by intros [-> _]. }
  assert (Hmem : ∀ label,
     label ∈ frequent (countWhere test analyses) analyses
     ↔ ∃ name, name ∈ criterionNames
               ∧ label = formatCriterionName name
               ∧ 1 ≤ times test name analyses
               ∧ Z.of_nat (length analyses) `quot` 2 ≤ times test name analyses).
  { intros label. unfold frequent. rewrite list_elem_of_omap. split.
    - intros ([name count] & Hin%elem_of_map_to_list & Hf).
      apply Hlook in Hin as [-> H1].
      destruct (Z.leb_spec (Z.of_nat (length analyses) `quot` 2)
                  (times test name analyses)); [|done].
      injection Hf as <-. exists name. split; [by eapply times_name|done].
    - intros (name & _ & -> & H1 & Hhalf).
      exists (name, times test name analyses). split.
      + apply elem_of_map_to_list, Hlook. done.
      + destruct (Z.leb_spec (Z.of_nat (length analyses) `quot` 2)
                    (times test name analyses)); [done|lia]. }
  assert (Hnd : NoDup (frequent (countWhere test analyses) analyses)).
  { apply frequent_NoDup. intros name count [-> H1]%Hlook.
    by eapply times_name. }
  split; [done|]. split; [done|].
  change 7%nat with (length (formatCriterionName <$> criterionNames)).
  apply submseteq_length, NoDup_submseteq; [done|].
  intros label (name & Hname & -> & _)%Hmem. by apply list_elem_of_fmap_2.
Qed.

End Counting.

(** X18: the strong areas of a session are the labels of the criteria
    scored 4 or more in at least one answer and in at least half of the
    answers (the half rounded down), each label once; a criterion that was
    never scored 4 or more is not listed, whatever the number of
    answers. *)
Theorem strengths_are_the_frequent_high_scores (analyses : list AnalysisRecord) :
  Z.of_nat (length analyses) ≤ GoInt.int_max →
  (∀ label,
     label ∈ extractCommonStrengths analyses
     ↔ ∃ name, name ∈ criterionNames
               ∧ label = formatCriterionName name
               ∧ 1 ≤ times (λ v, 4 <=? v) name analyses
               ∧ Z.of_nat (length analyses) `quot` 2
                 ≤ times (λ v, 4 <=? v) name analyses)
  ∧ NoDup (extractCommonStrengths analyses)
  ∧ (length (extractCommonStrengths analyses) ≤ 7)%nat.
Proof. apply frequent_countWhere. Qed.

Lemma strengths_are_the_frequent_high_scores_witness :
  "Financial understanding"
  ∈ extractCommonStrengths [DemoSession.first; DemoSession.second].
Proof.
  apply (strengths_are_the_frequent_high_scores
           [DemoSession.first; DemoSession.second]).
  - unfold GoInt.int_max. simpl. lia.
  - exists "financial_understanding". split; [|split; [reflexivity|]].
    + apply (bool_decide_unpack _). by vm_compute.
    + by vm_compute.
Defined.

(** X19: the weak areas of a session are the labels of the criteria scored
    3 or less in at least one answer and in at least half of the answers
    (the half rounded down), each label once; the labels are those of the
    strong areas, so that "No red flags" among the weak areas stands for
    low [red_flags] scores. *)
Theorem weaknesses_are_the_frequent_low_scores (analyses : list AnalysisRecord) :
  Z.of_nat (length analyses) ≤ GoInt.int_max →
  (∀ label,
     label ∈ extractCommonWeaknesses analyses
     ↔ ∃ name, name ∈ criterionNames
               ∧ label = formatCriterionName name
               ∧ 1 ≤ times (λ v, v <=? 3) name analyses
               ∧ Z.of_nat (length analyses) `quot` 2
                 ≤ times (λ v, v <=? 3) name analyses)
  ∧ NoDup (extractCommonWeaknesses analyses)
  ∧ (length (extractCommonWeaknesses analyses) ≤ 7)%nat.
Proof. apply frequent_countWhere. Qed.

Lemma weaknesses_are_the_frequent_low_scores_witness :
  "No red flags"
  ∈ extractCommonWeaknesses
      [DemoSession.record "q1" 5 4 4 4 5 5 2 29 "Good"; DemoSession.second].
Proof.
  apply (weaknesses_are_the_frequent_low_scores
           [DemoSession.record "q1" 5 4 4 4 5 5 2 29 "Good"; DemoSession.second]).
  - unfold GoInt.int_max. simpl. lia.
  - exists "red_flags". split; [|split; [reflexivity|]].
    + apply (bool_decide_unpack _). by vm_compute.
    + by vm_compute.
Defined.

(** The body of the loop of [extractCommonRedFlags]. *)
Definition flagStep (flagMap : gset string) (scored : string * option Z)
  : gset string :=
  let '(flag, p) := scored in
  match p with
  | Some v => if v <=? 2 then {[flag]} ∪ flagMap else flagMap
  | None => flagMap
  end.

(** The flags that one record raises. *)
Definition raises (record : AnalysisRecord) (flag : string) : Prop :=
  ∃ i v, flagNames !! i = Some flag
         ∧ criterionScores (Scores (Analysis record)) !! i = Some (Some v)
         ∧ v ≤ 2.

Lemma flagStep_fold (l : list (string * option Z)) flag : ∀ flagMap,
  flag ∈ fold_left flagStep l flagMap
  ↔ flag ∈ flagMap ∨ ∃ v, (flag, Some v) ∈ l ∧ v ≤ 2.
Proof.
  induction l as [|[f p] l IH]; intros flagMap.
  { simpl. split; [by left|]. intros [H|(v & H%elem_of_nil & _)]; done. }
  cbn [fold_left]. rewrite IH. split.
  - intros [H|(v & Hin & Hv)].
    + simpl in H. destruct p as [v|]; [|by left].
      destruct (Z.leb_spec v 2); [|by left].
      apply elem_of_union in H as [->%elem_of_singleton|H]; [|by left].
      right. exists v. split; [by left|done].
    + right. exists v. split; [by right|done].
  - intros [H|(v & Hin & Hv)].
    + left. simpl. destruct p as [v|]; [|done].
      destruct (v <=? 2); [|done]. apply elem_of_union. by right.
    + apply elem_of_cons in Hin as [[= <- <-]|Hin].
      * left. simpl. destruct (Z.leb_spec v 2); [|lia].
        apply elem_of_union. left. by apply elem_of_singleton.
      * right. by exists v.
Qed.

Lemma raises_zip record flag :
  raises record flag
  ↔ ∃ v, (flag, Some v) ∈ zip flagNames (criterionScores (Scores (Analysis record)))
         ∧ v ≤ 2.
Proof.
  unfold raises. split.
  - intros (i & v & Hf & Hs & Hv). exists v. split; [|done].
    apply list_elem_of_lookup. exists i. rewrite lookup_zip_with, Hf. simpl.
    by rewrite Hs.
  - intros (v & (i & Hi)%list_elem_of_lookup & Hv). exists i, v.
    rewrite lookup_zip_with in Hi.
    destruct (flagNames !! i) as [f|]; [|done]. simpl in Hi.
    destruct (criterionScores _ !! i) as [p|]; [|done]. simpl in Hi.
    by injection Hi as -> ->.
Qed.

Lemma flags_fold analyses flag : ∀ flagMap,
  flag ∈ fold_left
           (λ (flagMap : gset string) record,
              fold_left flagStep
                (zip flagNames (criterionScores (Scores (Analysis record))))
                flagMap)
           analyses flagMap
  ↔ flag ∈ flagMap ∨ ∃ record, record ∈ analyses ∧ raises record flag.
Proof.
  induction analyses as [|record analyses IH]; intros flagMap.
  { simpl. split; [by left|]. intros [H|(r & H%elem_of_nil & _)]; done. }
  cbn [fold_left]. rewrite IH, flagStep_fold, <- raises_zip. split.
  - intros [[H|H]|(r & Hin & Hr)]; [by left| |].
    + right. exists record. split; [by left|done].
    + right. exists r. split; [by right|done].
  - intros [H|(r & Hin & Hr)]; [by left; left|].
    apply elem_of_cons in Hin as [->|Hin]; [by left; right|].
    right. by exists r.
Qed.

(** X20: the red flags of a session are the flags of the criteria that
    some answer scored 2 or less, each flag once, however often it was
    raised; a session in which no score is 2 or less has none. *)
Theorem red_flags_are_the_low_scores (analyses : list AnalysisRecord) :
  (∀ flag,
     flag ∈ extractCommonRedFlags analyses
     ↔ ∃ record, record ∈ analyses ∧ raises record flag)
  ∧ NoDup (extractCommonRedFlags analyses)
  ∧ (length (extractCommonRedFlags analyses) ≤ 7)%nat
  ∧ ((∀ record v, record ∈ analyses →
        Some v ∈ criterionScores (Scores (Analysis record)) → 3 ≤ v) →
     extractCommonRedFlags analyses = []).
Proof.
  assert (Hmem : ∀ flag,
     flag ∈ extractCommonRedFlags analyses
     ↔ ∃ record, record ∈ analyses ∧ raises record flag).
  { intros flag. unfold extractCommonRedFlags. rewrite elem_of_elements.
    change (flag ∈ fold_left
              (λ (flagMap : gset string) record,
                 fold_left flagStep
                   (zip flagNames (criterionScores (Scores (Analysis record))))
                   flagMap)
              analyses ∅ ↔ ∃ record, record ∈ analyses ∧ raises record flag).
    rewrite flags_fold. split; [intros [H|H]; [|done]|by right].
    by apply elem_of_empty in H. }
  assert (Hnd : NoDup (extractCommonRedFlags analyses)).
  { unfold extractCommonRedFlags. apply NoDup_elements. }
  split; [done|]. split; [done|]. split.
  - change 7%nat with (length flagNames).
    apply submseteq_length, NoDup_submseteq; [done|].
    intros flag (record & _ & i & v & Hf & _)%Hmem.
    by eapply list_elem_of_lookup_2.
  - intros Hhigh. apply elem_of_nil_inv. intros flag Hflag.
    apply Hmem in Hflag as (record & Hin & i & v & _ & Hs & Hv).
    apply list_elem_of_lookup_2 in Hs. specialize (Hhigh record v Hin Hs). lia.
Qed.

Lemma red_flags_are_the_low_scores_witness :
  extractCommonRedFlags [DemoSession.first; DemoSession.second] = []
  ∧ "Major red flags detected"
    ∈ extractCommonRedFlags
        [DemoSession.record "q1" 5 4 4 4 5 5 2 29 "Good"; DemoSession.second].
Proof.
  split.
  - apply (red_flags_are_the_low_scores [DemoSession.first; DemoSession.second]).
    intros record v Hin Hv.
    repeat (apply elem_of_cons in Hin as [->|Hin]);
      [| |by apply elem_of_nil in Hin];
      repeat (apply elem_of_cons in Hv as [[= ->]|Hv]);
      first [lia|by apply elem_of_nil in Hv].
  - apply (red_flags_are_the_low_scores
             [DemoSession.record "q1" 5 4 4 4 5 5 2 29 "Good"; DemoSession.second]).
    exists (DemoSession.record "q1" 5 4 4 4 5 5 2 29 "Good").
    split; [by left|]. exists 6%nat, 2. by repeat split.
Defined.

(** ** The mean total of a session

    [GenerateSessionSummary] divides two [float64]s and cuts the quotient
    to an [int].  For the sizes a session has, what it gets is the
    quotient of the integer division, and the comparisons of the mean with
    a whole number are those of the exact mean. *)

Module Exact.

Import Rounding.

Lemma pow2_pos k : 0 ≤ k → 0 < 2 ^ k.
Proof. intros. apply Z.pow_pos_nonneg; lia. Qed.

Lemma pow2_3 a b c d :
  0 ≤ a → 0 ≤ b → 0 ≤ c → a + b + c = d → 2 ^ a * 2 ^ b * 2 ^ c = 2 ^ d.
Proof. intros ? ? ? <-. by rewrite !Z.pow_add_r by lia. Qed.

Lemma pow2_2 a b d : 0 ≤ a → 0 ≤ b → a + b = d → 2 ^ a * 2 ^ b = 2 ^ d.
Proof. intros ? ? <-. by rewrite !Z.pow_add_r by lia. Qed.

Lemma rne_cell_exact M : rne (cell M 1) = M.
Proof.
  unfold cell. rewrite Z.div_1_r, Z.mod_1_r. cbn [Z.eqb].
  replace (2 * (2 * M) + 0) with (M * 4) by lia.
  unfold rne. rewrite Z.div_mul, Z.mod_mul by lia. simpl. lia.
Qed.

(** A number that fits the 53 digits is not changed by the rounding. *)
Lemma rnd_exact M e :
  2 ^ 52 ≤ M < 2 ^ 53 → emin ≤ e ≤ 971 →
  rnd false M 1 e = S754_finite false (Z.to_pos M) e.
Proof.
  intros HM He.
  assert (Hd : digits M = 53) by (apply digits_unique; [lia|]; simpl; lia).
  assert (Hf : fexp (53 + e) = e) by (unfold fexp; lia).
  assert (H1 : shift1 M 1 e = 0).
  { unfold shift1. rewrite Z.div_1_r, Hd, Hf. lia. }
  assert (Hm : mant1 M 1 e = M).
  { unfold mant1. rewrite H1. change (2 ^ 0 * 1) with 1. apply rne_cell_exact. }
  assert (H2 : shift2 M 1 e = 0).
  { unfold shift2. rewrite Hm, H1, Hd, Z.add_0_r, Hf. lia. }
  rewrite rnd_eq. unfold rman, rexp. rewrite Hm, H1, H2.
  change (2 ^ 0) with 1. rewrite Z.div_1_r, !Z.add_0_r.
  destruct M as [|m|m]; [lia| |lia].
  destruct (Z.leb_spec e 971); [done|lia].
Qed.

(** The shift that brings [Y] to 53 digits, and the float that holds
    [Y * 2 ^ e]. *)
Definition up (Y : Z) : Z := 53 - digits Y.

Definition scaled (Y e : Z) : spec_float :=
  S754_finite false (Z.to_pos (Y * 2 ^ up Y)) (e - up Y).

Section Scaled.

Variables Y e : Z.
Hypothesis HY : 0 < Y < 2 ^ 53.
Hypothesis He : emin ≤ e - up Y ≤ 971.

Lemma up_range : 0 ≤ up Y ≤ 52.
Proof.
  unfold up. destruct (digits_bounds Y) as [_ Hd]; [lia|].
  pose proof (digits_lt_pow Y 53 ltac:(lia) ltac:(lia)). lia.
Qed.

Lemma scaled_mantissa : 2 ^ 52 ≤ Y * 2 ^ up Y < 2 ^ 53.
Proof.
  pose proof up_range as Hu. unfold up in *.
  destruct (digits_bounds Y) as [[Hlo Hhi] Hd]; [lia|].
  pose proof (pow2_pos (53 - digits Y) ltac:(lia)) as Hp.
  rewrite <- (pow2_2 (digits Y - 1) (53 - digits Y) 52) by lia.
  rewrite <- (pow2_2 (digits Y) (53 - digits Y) 53) by lia.
  split.
  - apply Z.mul_le_mono_nonneg_r; lia.
  - apply Z.mul_lt_mono_pos_r; lia.
Qed.

Lemma scaled_rnd : rnd false (Y * 2 ^ up Y) 1 (e - up Y) = scaled Y e.
Proof. apply rnd_exact; [apply scaled_mantissa|done]. Qed.

Lemma scaled_canonical : canonical (Z.pos (Z.to_pos (Y * 2 ^ up Y))) (e - up Y).
Proof.
  pose proof scaled_mantissa as HM. rewrite Z2Pos.id by lia.
  unfold canonical. lia.
Qed.

Lemma scaled_enough : enough (Y * 2 ^ up Y) 1 (e - up Y).
Proof.
  apply canonical_enough. pose proof scaled_canonical as Hc.
  pose proof scaled_mantissa. by rewrite Z2Pos.id in Hc by lia.
Qed.

End Scaled.

(** An [int] below [2 ^ 53] is converted exactly. *)
Lemma of_int_scaled z : 0 < z < 2 ^ 53 → F64.of_int z = scaled z 0.
Proof.
  intros Hz. pose proof (up_range z Hz) as Hu.
  destruct z as [|m|m]; [lia| |lia]. rewrite of_int_pos.
  assert (Hl : lift (Z.pos m) = up (Z.pos m)).
  { unfold lift, fexp, up, emin in *. lia. }
  rewrite Hl. replace (- up (Z.pos m)) with (0 - up (Z.pos m)) by lia.
  apply scaled_rnd; [done|]. unfold emin. lia.
Qed.

(** The order of two such floats is the order of the numbers they hold. *)
Lemma scaled_le Y1 e1 Y2 e2 e0 :
  0 < Y1 < 2 ^ 53 → 0 < Y2 < 2 ^ 53 →
  emin ≤ e1 - up Y1 ≤ 971 → emin ≤ e2 - up Y2 ≤ 971 →
  e0 ≤ e1 → e0 ≤ e2 →
  SFleb (scaled Y1 e1) (scaled Y2 e2) = true →
  Y1 * 2 ^ (e1 - e0) ≤ Y2 * 2 ^ (e2 - e0).
Proof.
  intros H1 H2 He1 He2 H01 H02 Hle.
  pose proof (up_range Y1 H1) as Hu1. pose proof (up_range Y2 H2) as Hu2.
  pose proof (scaled_mantissa Y1 H1) as HM1.
  pose proof (scaled_mantissa Y2 H2) as HM2.
  apply (SFleb_finite _ _ _ _ (e0 - up Y1 - up Y2)) in Hle;
    [|by apply scaled_canonical|by apply scaled_canonical|lia|lia].
  rewrite !Z2Pos.id in Hle by lia.
  replace (Y1 * 2 ^ up Y1 * 2 ^ (e1 - up Y1 - (e0 - up Y1 - up Y2)))
    with (Y1 * 2 ^ (e1 - e0) * 2 ^ (up Y1 + up Y2)) in Hle.
  2:{ rewrite <- !Z.mul_assoc. f_equal.
      rewrite !pow2_2 with (d := e1 - e0 + up Y1 + up Y2); lia. }
  replace (Y2 * 2 ^ up Y2 * 2 ^ (e2 - up Y2 - (e0 - up Y1 - up Y2)))
    with (Y2 * 2 ^ (e2 - e0) * 2 ^ (up Y1 + up Y2)) in Hle.
  2:{ rewrite <- !Z.mul_assoc. f_equal.
      rewrite !pow2_2 with (d := e2 - e0 + up Y1 + up Y2); lia. }
  apply Z.mul_le_mono_pos_r in Hle; [done|]. apply pow2_pos. lia.
Qed.

(** [int(f)] for a float between two whole numbers. *)
Lemma to_int_floor m e c e0 :
  canonical (Z.pos m) e → e0 ≤ e → e0 ≤ 0 → 0 ≤ c ≤ GoInt.int_max →
  c * 2 ^ (- e0) ≤ Z.pos m * 2 ^ (e - e0) < (c + 1) * 2 ^ (- e0) →
  F64.to_int (S754_finite false m e) = c.
Proof.
  intros Hc H0e H00 Hrange [Hlo Hhi]. unfold F64.to_int.
  assert (Hmag : (if 0 <=? e then Z.pos m * 2 ^ e else Z.pos m / 2 ^ (- e)) = c).
  { destruct (Z.leb_spec 0 e).
    - rewrite <- (pow2_2 e (- e0) (e - e0)) in Hlo, Hhi by lia.
      pose proof (pow2_pos (- e0) ltac:(lia)) as Hp.
      rewrite Z.mul_assoc in Hlo, Hhi.
      apply Z.mul_le_mono_pos_r in Hlo; [|done].
      apply Z.mul_lt_mono_pos_r in Hhi; [|done]. lia.
    - rewrite <- (pow2_2 (- e) (e - e0) (- e0)) in Hlo, Hhi by lia.
      pose proof (pow2_pos (e - e0) ltac:(lia)) as Hp.
      pose proof (pow2_pos (- e) ltac:(lia)) as Hq.
      rewrite Z.mul_assoc in Hlo, Hhi.
      apply Z.mul_le_mono_pos_r in Hlo; [|done].
      apply Z.mul_lt_mono_pos_r in Hhi; [|done].
      apply Z.le_antisymm.
      + apply Z.lt_succ_r, Z.div_lt_upper_bound; lia.
      + apply Z.div_le_lower_bound; lia. }
  rewrite Hmag.
  destruct (Z.leb_spec GoInt.int_min c), (Z.leb_spec c GoInt.int_max);
    unfold GoInt.int_min, GoInt.int_max in *; simpl; lia.
Qed.

Section Mean.

Variables sum n : Z.
Hypothesis Hsum : 0 < sum < 2 ^ 53.
Hypothesis Hn : 0 < n < 2 ^ 53.

(** [float64(sum) / float64(n)] *)
Definition mean : spec_float := F64.div (F64.of_int sum) (F64.of_int n).

Definition meanExp : Z :=
  dexp (sum * 2 ^ up sum) (0 - up sum) (n * 2 ^ up n) (0 - up n).

Definition meanShift : Z := 0 - up sum - (0 - up n) - meanExp.

Lemma meanShift_nonneg : 0 ≤ meanShift.
Proof. unfold meanShift, meanExp, dexp. lia. Qed.

Lemma mean_rnd :
  mean = rnd false (sum * 2 ^ up sum * 2 ^ meanShift) (n * 2 ^ up n) meanExp.
Proof.
  unfold mean. rewrite !of_int_scaled by done. unfold scaled.
  pose proof (scaled_mantissa sum Hsum). pose proof (scaled_mantissa n Hn).
  rewrite div_rnd, !Z2Pos.id by lia. reflexivity.
Qed.

Lemma mean_enough :
  enough (sum * 2 ^ up sum * 2 ^ meanShift) (n * 2 ^ up n) meanExp.
Proof.
  pose proof (scaled_mantissa sum Hsum). pose proof (scaled_mantissa n Hn).
  apply div_enough; lia.
Qed.

Lemma mean_nonneg : nonneg mean.
Proof.
  pose proof (scaled_mantissa sum Hsum). pose proof (scaled_mantissa n Hn).
  pose proof (pow2_pos meanShift meanShift_nonneg).
  rewrite mean_rnd. apply rnd_nonneg; [nia|lia|apply mean_enough].
Qed.

(** A float that holds no more than the exact mean is not above the
    computed one. *)
Lemma mean_above Y t :
  0 < Y < 2 ^ 53 → 0 ≤ t ≤ 52 → Y * n ≤ sum * 2 ^ t →
  SFleb (scaled Y (- t)) mean = true.
Proof.
  intros HY Ht Hle.
  pose proof (up_range Y HY) as HuY. pose proof (up_range sum Hsum) as Hus.
  pose proof (up_range n Hn) as Hun.
  pose proof (scaled_mantissa Y HY) as HMY.
  pose proof (scaled_mantissa sum Hsum) as HMs.
  pose proof (scaled_mantissa n Hn) as HMn.
  pose proof meanShift_nonneg as Hs.
  pose proof (pow2_pos meanShift Hs) as Hps.
  assert (HeY : emin ≤ - t - up Y ≤ 971) by (unfold emin; lia).
  rewrite <- (scaled_rnd Y (- t) HY HeY), mean_rnd.
  set (e0 := Z.min (- t - up Y) meanExp - up sum - t).
  apply (rnd_mono _ _ _ _ _ _ e0);
    [lia|lia|nia|lia|by apply scaled_enough|apply mean_enough|lia|lia|].
  rewrite Z.mul_1_r.
  replace (Y * 2 ^ up Y * 2 ^ (- t - up Y - e0) * (n * 2 ^ up n))
    with (Y * n * (2 ^ up Y * 2 ^ (- t - up Y - e0) * 2 ^ up n)) by ring.
  replace (sum * 2 ^ up sum * 2 ^ meanShift * 2 ^ (meanExp - e0))
    with (sum * (2 ^ up sum * 2 ^ meanShift * 2 ^ (meanExp - e0))) by ring.
  rewrite (pow2_3 (up Y) (- t - up Y - e0) (up n) (up n - e0 - t)) by lia.
  rewrite (pow2_3 (up sum) meanShift (meanExp - e0) (up n - e0))
    by (unfold meanShift in *; lia).
  rewrite <- (pow2_2 t (up n - e0 - t) (up n - e0)) by lia.
  rewrite !Z.mul_assoc. apply Z.mul_le_mono_nonneg_r; [|done].
  apply Z.pow_nonneg. lia.
Qed.

(** A float that holds no less than the exact mean is not below the
    computed one. *)
Lemma mean_below Y t :
  0 < Y < 2 ^ 53 → 0 ≤ t ≤ 52 → sum * 2 ^ t ≤ Y * n →
  SFleb mean (scaled Y (- t)) = true.
Proof.
  intros HY Ht Hle.
  pose proof (up_range Y HY) as HuY. pose proof (up_range sum Hsum) as Hus.
  pose proof (up_range n Hn) as Hun.
  pose proof (scaled_mantissa Y HY) as HMY.
  pose proof (scaled_mantissa sum Hsum) as HMs.
  pose proof (scaled_mantissa n Hn) as HMn.
  pose proof meanShift_nonneg as Hs.
  pose proof (pow2_pos meanShift Hs) as Hps.
  assert (HeY : emin ≤ - t - up Y ≤ 971) by (unfold emin; lia).
  rewrite <- (scaled_rnd Y (- t) HY HeY), mean_rnd.
  set (e0 := Z.min (- t - up Y) meanExp - up sum - t).
  apply (rnd_mono _ _ _ _ _ _ e0);
    [nia|lia|lia|lia|apply mean_enough|by apply scaled_enough|lia|lia|].
  rewrite Z.mul_1_r.
  replace (Y * 2 ^ up Y * 2 ^ (- t - up Y - e0) * (n * 2 ^ up n))
    with (Y * n * (2 ^ up Y * 2 ^ (- t - up Y - e0) * 2 ^ up n)) by ring.
  replace (sum * 2 ^ up sum * 2 ^ meanShift * 2 ^ (meanExp - e0))
    with (sum * (2 ^ up sum * 2 ^ meanShift * 2 ^ (meanExp - e0))) by ring.
  rewrite (pow2_3 (up Y) (- t - up Y - e0) (up n) (up n - e0 - t)) by lia.
  rewrite (pow2_3 (up sum) meanShift (meanExp - e0) (up n - e0))
    by (unfold meanShift in *; lia).
  rewrite <- (pow2_2 t (up n - e0 - t) (up n - e0)) by lia.
  rewrite !Z.mul_assoc. apply Z.mul_le_mono_nonneg_r; [|done].
  apply Z.pow_nonneg. lia.
Qed.

(** The computed mean reaches a whole number [c] exactly when the exact
    mean does. *)
Lemma mean_ge c :
  0 < c < 2 ^ 53 → n ≤ 2 ^ up c →
  SFleb (F64.of_int c) mean = true ↔ c * n ≤ sum.
Proof.
  intros Hc Hnc. pose proof (up_range c Hc) as Hu.
  pose proof (scaled_mantissa c Hc) as HM.
  rewrite of_int_scaled by done. split.
  - intros Hle. destruct (Z.le_gt_cases (c * n) sum) as [|Hlt]; [done|]. exfalso.
    assert (HY : 0 < c * 2 ^ up c - 1 < 2 ^ 53) by lia.
    pose proof (up_range _ HY) as HuY.
    assert (Hbelow : SFleb mean (scaled (c * 2 ^ up c - 1) (- up c)) = true).
    { apply mean_below; [done|lia|].
      pose proof (pow2_pos (up c) ltac:(lia)). nia. }
    pose proof (SFleb_trans _ _ _ Hle Hbelow) as Habs.
    apply (scaled_le _ _ _ _ (- up c)) in Habs;
      [|done|done|unfold emin; lia|unfold emin; lia|lia|lia].
    replace (0 - - up c) with (up c) in Habs by lia.
    replace (- up c - - up c) with 0 in Habs by lia.
    change (2 ^ 0) with 1 in Habs. lia.
  - intros Hle. change 0 with (- 0). apply mean_above; [done|lia|].
    change (2 ^ 0) with 1. lia.
Qed.

(** Cut to an [int], the computed mean is the quotient of the integer
    division. *)
Lemma mean_to_int :
  sum / n + 1 < 2 ^ 53 → n ≤ 2 ^ up (sum / n + 1) →
  F64.to_int mean = sum / n.
Proof.
  intros Hk Hnk. set (k := sum / n) in *.
  assert (Hk0 : 0 ≤ k) by (apply Z.div_pos; lia).
  assert (Hc : 0 < k + 1 < 2 ^ 53) by lia.
  pose proof (up_range _ Hc) as Hu.
  pose proof (scaled_mantissa _ Hc) as HM.
  assert (HY : 0 < (k + 1) * 2 ^ up (k + 1) - 1 < 2 ^ 53) by lia.
  pose proof (up_range _ HY) as HuY.
  pose proof (scaled_mantissa _ HY) as HMY.
  pose proof (pow2_pos (up (k + 1)) ltac:(lia)) as Hp.
  assert (Hlo : k * n ≤ sum).
  { rewrite Z.mul_comm. apply Z.mul_div_le. lia. }
  assert (Hhi : sum < (k + 1) * n).
  { pose proof (Z.mul_succ_div_gt sum n ltac:(lia)). fold k in H. lia. }
  assert (Hbelow : SFleb mean (scaled ((k + 1) * 2 ^ up (k + 1) - 1)
                                 (- up (k + 1))) = true).
  { apply mean_below; [done|lia|]. nia. }
  assert (Habove : 1 ≤ k → SFleb (scaled k 0) mean = true).
  { intros H1. change 0 with (- 0). apply mean_above; [lia|lia|].
    change (2 ^ 0) with 1. lia. }
  pose proof mean_nonneg as Hnn.
  destruct mean as [[]|[]| |[] m e]; try done.
  - simpl. destruct (Z.le_gt_cases 1 k) as [H1|]; [|lia].
    by specialize (Habove H1).
  - assert (Hk1 : 1 ≤ k → 0 < k < 2 ^ 53) by lia.
    set (e0 := Z.min e (- 105)).
    apply (to_int_floor m e k e0); [done|lia|lia| |].
    { unfold GoInt.int_max. lia. }
    split.
    + destruct (Z.le_gt_cases 1 k) as [H1|];
        [|replace k with 0 by lia; lia].
      specialize (Habove H1). pose proof (up_range k (Hk1 H1)) as Huk.
      pose proof (scaled_mantissa k (Hk1 H1)) as HMk.
      apply (SFleb_finite _ _ _ _ e0) in Habove;
        [|apply scaled_canonical; [lia|unfold emin; lia]|done|lia|lia].
      rewrite Z2Pos.id in Habove by lia.
      rewrite <- Z.mul_assoc in Habove.
      rewrite (pow2_2 (up k) (0 - up k - e0) (- e0)) in Habove by lia. done.
    + apply (SFleb_finite _ _ _ _ e0) in Hbelow;
        [|done|apply scaled_canonical; [lia|unfold emin; lia]|lia|lia].
      rewrite Z2Pos.id in Hbelow by lia.
      eapply Z.le_lt_trans; [exact Hbelow|].
      rewrite <- Z.mul_assoc.
      rewrite (pow2_2 (up ((k + 1) * 2 ^ up (k + 1) - 1))
                 (- up (k + 1) - up ((k + 1) * 2 ^ up (k + 1) - 1) - e0)
                 (- up (k + 1) - e0)) by lia.
      rewrite <- (pow2_2 (up (k + 1)) (- up (k + 1) - e0) (- e0)) by lia.
      pose proof (pow2_pos (- up (k + 1) - e0) ltac:(lia)). nia.
Qed.

End Mean.

Lemma mean_of_nothing n :
  0 < n < 2 ^ 53 → mean 0 n = S754_zero false.
Proof.
  intros Hn. unfold mean. rewrite (of_int_scaled n Hn). reflexivity.
Qed.

Lemma up_small c : 0 < c ≤ 63 → 2 ^ 47 ≤ 2 ^ up c.
Proof.
  intros Hc. apply Z.pow_le_mono_r; [lia|]. unfold up.
  pose proof (digits_lt_pow c 6 ltac:(lia) ltac:(lia)). lia.
Qed.

End Exact.

Section SessionMean.

Variables sum n : Z.
Hypothesis Hsum : 0 ≤ sum ≤ 35 * n.
Hypothesis Hn : 0 < n ≤ 2 ^ 47.

Lemma whole_mean : F64.to_int (Exact.mean sum n) = sum / n.
Proof.
  destruct (Z.eq_dec sum 0) as [->|Hne].
  { rewrite Exact.mean_of_nothing by lia. by rewrite Z.div_0_l by lia. }
  assert (Hk : 0 ≤ sum / n ≤ 35).
  { split; [apply Z.div_pos; lia|]. apply Z.div_le_upper_bound; lia. }
  pose proof (Exact.up_small (sum / n + 1) ltac:(lia)).
  apply Exact.mean_to_int; lia.
Qed.

Lemma mean_at_least c :
  1 ≤ c ≤ 63 → F64.ge (Exact.mean sum n) (F64.of_int c) = (c <=? sum / n).
Proof.
  intros Hc. unfold F64.ge.
  assert (Hdiv : c ≤ sum / n ↔ c * n ≤ sum).
  { split.
    - intros H. pose proof (Z.mul_div_le sum n ltac:(lia)). nia.
    - intros H. apply Z.div_le_lower_bound; lia. }
  destruct (Z.eq_dec sum 0) as [->|Hne].
  { rewrite Exact.mean_of_nothing by lia. rewrite Z.div_0_l by lia.
    destruct (Z.leb_spec c 0); [lia|].
    rewrite Exact.of_int_scaled by lia. reflexivity. }
  pose proof (Exact.up_small c ltac:(lia)).
  pose proof (Exact.mean_ge sum n ltac:(lia) ltac:(lia) c ltac:(lia) ltac:(lia))
    as Hge.
  destruct (Z.leb_spec c (sum / n)) as [Hle|Hlt].
  - apply Hge, Hdiv, Hle.
  - apply not_true_is_false. intros E. apply Hge, Hdiv in E. lia.
Qed.

End SessionMean.

Definition whole_ok (c k : Z) : bool :=
  bool_decide (F64.ge (F64.of_int k) (F64.of_int c) = (c <=? k)).

Lemma whole_checked :
  forallb (λ c, forallb (whole_ok c) (seqZ 0 36)) [32; 25; 18] = true.
Proof. by vm_compute. Qed.

Lemma whole_at_least c k :
  c ∈ [32; 25; 18] → 0 ≤ k ≤ 35 →
  F64.ge (F64.of_int k) (F64.of_int c) = (c <=? k).
Proof.
  intros Hc Hk. pose proof whole_checked as H.
  rewrite forallb_forall in H. apply list_elem_of_In, H in Hc.
  pose proof (F64Facts.forall_range _ _ _ Hc k ltac:(lia)) as Hok.
  by apply bool_decide_eq_true in Hok.
Qed.

(** X21: for a session of at most [2 ^ 47] answers whose totals lie
    between 0 and 35, the floating-point mean loses nothing that the
    summary uses: cut to an [int] it is the quotient of the integer
    division of the sum of the totals by the number of answers, the grade
    is the grade of that quotient, the mean reaches a whole number up to
    63 exactly when the sum reaches that number times the number of
    answers, and the recommendation is the one of the quotient. *)
Theorem session_mean_is_exact (now : Z) (analyses : list AnalysisRecord) :
  analyses ≠ [] →
  Z.of_nat (length analyses) ≤ 2 ^ 47 →
  Forall (λ record, 0 ≤ TotalScore (Scores (Analysis record)) ≤ 35) analyses →
  ∃ summary,
    GenerateSessionSummary now analyses = inr summary
    ∧ F64.to_int (AverageScore summary)
      = sumOfTotals analyses / Z.of_nat (length analyses)
    ∧ OverallGrade summary
      = getGradeFromScore (sumOfTotals analyses / Z.of_nat (length analyses))
          (averageCriteria analyses)
    ∧ (∀ c, 1 ≤ c ≤ 63 →
         F64.ge (AverageScore summary) (F64.of_int c) = true
         ↔ c * Z.of_nat (length analyses) ≤ sumOfTotals analyses)
    ∧ Recommendation summary
      = generateRecommendation
          (F64.of_int (sumOfTotals analyses / Z.of_nat (length analyses)))
          analyses.
Proof.
  intros Hne Hlen Hall. unfold GenerateSessionSummary.
  destruct (Nat.eqb_spec (length analyses) 0) as [H0|_];
    [by destruct analyses|].
  rewrite (sumTotals_exact analyses Hne).
  pose proof (sumOfCounts_range analyses) as Hk.
  assert (Hn : 0 < Z.of_nat (length analyses)) by (destruct analyses; [done|simpl; lia]).
  assert (Hs : 0 ≤ sumOfTotals analyses ≤ 35 * Z.of_nat (length analyses)).
  { unfold sumOfTotals.
    pose proof (sum_scores_bounds
      ((λ r, TotalScore (Scores (Analysis r))) <$> analyses) 0 35) as H.
    rewrite length_fmap in H. rewrite Z.mul_0_l in H. apply H.
    by apply Forall_fmap. }
  assert (Hw : GoInt.wrap (sumOfTotals analyses) = sumOfTotals analyses).
  { apply GoInt.wrap_in_range.
    unfold GoInt.in_range, GoInt.int_min, GoInt.int_max. lia. }
  assert (Hq : GoInt.quot (GoInt.wrap (sumOfCounts analyses))
                 (Z.of_nat (length analyses))
               = sumOfCounts analyses `quot` Z.of_nat (length analyses)).
  { unfold GoInt.quot.
    rewrite (GoInt.wrap_in_range (sumOfCounts analyses))
      by (unfold GoInt.in_range, GoInt.int_min, GoInt.int_max in *; lia).
    apply GoInt.wrap_in_range.
    rewrite Z.quot_div_nonneg by lia.
    assert (0 ≤ sumOfCounts analyses / Z.of_nat (length analyses) ≤ 7).
    { split; [apply Z.div_pos; lia|]. apply Z.div_le_upper_bound; lia. }
    unfold GoInt.in_range, GoInt.int_min, GoInt.int_max. lia. }
  rewrite Hq, Hw. fold (averageCriteria analyses).
  fold (Exact.mean (sumOfTotals analyses) (Z.of_nat (length analyses))).
  eexists. split; [reflexivity|].
  cbn [AverageScore OverallGrade Recommendation].
  assert (Hk35 : 0 ≤ sumOfTotals analyses / Z.of_nat (length analyses) ≤ 35).
  { split; [apply Z.div_pos; lia|]. apply Z.div_le_upper_bound; lia. }
  rewrite (whole_mean _ _ Hs ltac:(lia)).
  split; [done|]. split; [done|]. split.
  - intros c Hc. rewrite (mean_at_least _ _ Hs ltac:(lia) c Hc).
    rewrite Z.leb_le. split.
    + intros H. pose proof (Z.mul_div_le (sumOfTotals analyses)
                              (Z.of_nat (length analyses)) ltac:(lia)). nia.
    + intros H. apply Z.div_le_lower_bound; lia.
  - unfold generateRecommendation.
    rewrite !(mean_at_least _ _ Hs ltac:(lia)) by lia.
    rewrite !whole_at_least
      by first [done|apply (bool_decide_unpack _); by vm_compute].
    done.
Qed.

Lemma session_mean_is_exact_witness :
  ∃ summary,
    GenerateSessionSummary 0 [DemoSession.first; DemoSession.second] = inr summary
    ∧ F64.to_int (AverageScore summary) = 30
    ∧ OverallGrade summary = "A".
Proof.
  destruct (session_mean_is_exact 0 [DemoSession.first; DemoSession.second])
    as (summary & Hs & Hint & Hgrade & _).
  - done.
  - simpl. lia.
  - repeat constructor; simpl; lia.
  - exists summary. split; [done|]. split; [exact Hint|].
    rewrite Hgrade. by vm_compute.
Defined.

(** ** What [callGPTAPI] accepts *)

Section Accepted.

Variable service : list GPTMessage → RoundTrip.
Variable unmarshalChoices : bytes → option (list bytes).
Variable unmarshalAnalysis : bytes → option AnalysisResponse.

(** The messages of the request: those of the session and the new one. *)
Definition sent (sessionMessages : list GPTMessage)
    (category question answer : string) : list GPTMessage :=
  sessionMessages
    ++ [ {| Role := "user"; Content := userContent category question answer |} ].

(** X22: [callGPTAPI] returns a result exactly when the service replies
    with status 200 and a body that decodes to at least one choice, and
    the text of the first choice holds an object that decodes to an
    analysis; the result is that analysis with total and tier recomputed,
    and the other choices are not looked at.  A status other than 200 is
    the error "API error" with the status and the body, whatever the body
    holds; and nothing is logged when an error is returned. *)
Theorem reply_accepted (sessionMessages : list GPTMessage)
    (category question answer : string) :
  (∀ result logged,
     callGPTAPI service unmarshalChoices unmarshalAnalysis sessionMessages
       category question answer = (inr result, logged)
     ↔ ∃ body content others jsonContent analysis,
         service (sent sessionMessages category question answer)
         = Replied 200 body
         ∧ unmarshalChoices body = Some (content :: others)
         ∧ extractJSON content = inr jsonContent
         ∧ unmarshalAnalysis jsonContent = Some analysis
         ∧ recompute analysis = (result, logged))
  ∧ (∀ status body,
       service (sent sessionMessages category question answer)
       = Replied status body →
       status ≠ 200 →
       callGPTAPI service unmarshalChoices unmarshalAnalysis sessionMessages
         category question answer = (inl (ErrAPIStatus status body), []))
  ∧ (∀ e logged,
       callGPTAPI service unmarshalChoices unmarshalAnalysis sessionMessages
         category question answer = (inl e, logged) →
       logged = []).
Proof.
  unfold callGPTAPI. fold (sent sessionMessages category question answer).
  split; [|split].
  - intros result logged. split.
    + destruct (service _) as [| |status body] eqn:Hs; simpl; try done.
      destruct (Z.eqb_spec status 200) as [->|]; simpl; [|done].
      destruct (unmarshalChoices body) as [[|content others]|] eqn:Hc; try done.
      intros (jsonContent & analysis & He & Hd & Hre)%decodeReply_inr.
      by exists body, content, others, jsonContent, analysis.
    + intros (body & content & others & jsonContent & analysis
              & -> & Hc & He & Hd & Hre).
      simpl. rewrite Hc. unfold decodeReply. by rewrite He, Hd, Hre.
  - intros status body -> Hne. simpl.
    by destruct (Z.eqb_spec status 200).
  - intros e logged.
    destruct (service _) as [| |status body]; simpl; try by intros [= _ <-].
    destruct (Z.eqb_spec status 200); simpl; [|by intros [= _ <-]].
    destruct (unmarshalChoices body) as [[|content others]|];
      try by intros [= _ <-].
    unfold decodeReply. destruct (extractJSON content); [by intros [= _ <-]|].
    destruct (unmarshalAnalysis _); [|by intros [= _ <-]].
    by destruct (recompute _).
Qed.

End Accepted.

Lemma reply_accepted_witness :
  callGPTAPI (λ _, Replied 200 DemoReply.reply) DemoReply.unmarshalChoices
    DemoReply.unmarshalAnalysis [] EmptyString "Why this university?" "It fits."
  = (inr DemoReply.result, DemoReply.logged).
Proof.
  apply (reply_accepted (λ _, Replied 200 DemoReply.reply)
           DemoReply.unmarshalChoices DemoReply.unmarshalAnalysis []
           EmptyString "Why this university?" "It fits.").
  exists DemoReply.reply, DemoReply.reply, [], DemoReply.object, DemoReply.analysis.
  repeat split; by vm_compute.
Defined.
